(** * OpenTalons: asset decoders, simulation clock and tile physics

    A shallow embedding of the engine core:
    - [TileCollisionMap]  (src/core/TileCollisionMap.ts)
    - [PhysicsSystem]     (src/core/PhysicsSystem.ts)
    - [GameLoop]          (src/core/GameLoop.ts)
    - [EventBus]          (src/core/EventBus.ts)
    - [PidLoader]         (src/parsers/PidLoader.ts)
    - [WwdLoader]         (src/parsers/WwdLoader.ts)
    - [RezLoader]         (src/parsers/RezLoader.ts)

    Conventions.  Typed-array contents are lists read with stdpp's
    lookup [l !! i] and written with [<[i:=v]> l]; a read that JavaScript
    answers with [undefined] is a [None].  Bytes are [Byte.byte].
    Integers are [Z].  The numbers of the physics step and of the clock
    are IEEE doubles, [Number.t]: a rational value rounded to nearest,
    ties to even, after every operation, with [NaN], the infinities and
    the negative zero; a store into a [Float32Array] rounds to single
    precision.  The collision grid's own lookups, which take cell and
    pixel coordinates, are stated over [Z] and exact rationals [Q].
    Thrown exceptions are values of explicit result types. *)

From Stdlib Require Import ZArith QArith Qround Qabs Qpower Qminmax Lia Lqa List.
From Stdlib Require Import Strings.Byte.
From stdpp Require Import base tactics option list.

Open Scope Z_scope.

(** ** JavaScript numbers *)

Module Number.

Open Scope Q_scope.

(** A number value: a not-a-number, an infinity, the negative zero, or a
    finite value ([Finite 0] is the positive zero). *)
Inductive t : Type :=
| NaN
| Infinity (negative : bool)
| NegZero
| Finite (q : Q).

Definition pow2 (e : Z) : Q := 2 ^ e.

(** The binary order of magnitude of a non-zero rational:
    [2 ^ magnitude q <= |q| < 2 ^ (magnitude q + 1)]. *)
Definition magnitude (q : Q) : Z :=
  let l := (Z.log2 (Z.abs (Qnum q)) - Z.log2 (Z.pos (Qden q)))%Z in
  if Qle_bool (pow2 l) (Qabs q) then l else (l - 1)%Z.

(** The nearest integer, a tie going to the even one. *)
Definition nearestEven (x : Q) : Z :=
  let f := Qfloor x in
  match Qcompare (x - inject_Z f) (1 # 2) with
  | Lt => f
  | Gt => (f + 1)%Z
  | Eq => if Z.even f then f else (f + 1)%Z
  end.

(** A binary interchange format: the number of significand bits, the
    exponent of the least positive value and the exponent of the first
    power of two that overflows. *)
Record Format : Type := mkFormat { precision : Z; emin : Z; emax : Z }.

Definition binary64 : Format := mkFormat 53 (-1074) 1024.
Definition binary32 : Format := mkFormat 24 (-149) 128.

(** The exponent of the unit in the last place at [q]. *)
Definition quantum (fmt : Format) (q : Q) : Z :=
  Z.max (magnitude q - precision fmt + 1) (emin fmt).

(** The multiple of the quantum nearest to a non-zero [q]. *)
Definition nearest (fmt : Format) (q : Q) : Q :=
  inject_Z (nearestEven (q / pow2 (quantum fmt q))) * pow2 (quantum fmt q).

Definition negativeQ (q : Q) : bool := negb (Qle_bool 0 q).

Definition zero (negative : bool) : t := if negative then NegZero else Finite 0.

(** Rounding to nearest, ties to even, with gradual underflow and
    overflow to an infinity.  An exact zero comes out positive; the
    operations below give the zero its sign where the standard fixes one. *)
Definition round (fmt : Format) (q : Q) : t :=
  let q := Qred q in
  if Qeq_bool q 0 then Finite 0
  else
    let r := Qred (nearest fmt q) in
    if Qeq_bool r 0 then zero (negativeQ q)
    else if Qle_bool (pow2 (emax fmt)) (Qabs r) then Infinity (negativeQ q)
    else Finite r.

(** A numeric literal, and an integer as a number. *)
Definition ofQ (q : Q) : t := round binary64 q.
Definition ofZ (z : Z) : t := ofQ (inject_Z z).

(** [Math.fround], which is also what a store into a [Float32Array]
    does to the value stored. *)
Definition fround (x : t) : t :=
  match x with
  | Finite q => round binary32 q
  | _ => x
  end.

(** The rational value of a finite number, 0 for the others. *)
Definition value (x : t) : Q :=
  match x with
  | Finite q => q
  | _ => 0
  end.

Definition isFinite (x : t) : bool :=
  match x with
  | Finite _ | NegZero => true
  | _ => false
  end.

Definition isZero (x : t) : bool :=
  match x with
  | NegZero => true
  | Finite q => Qeq_bool q 0
  | _ => false
  end.

(** The sign bit. *)
Definition isNegative (x : t) : bool :=
  match x with
  | NaN => false
  | Infinity s => s
  | NegZero => true
  | Finite q => negativeQ q
  end.

(** Unary minus. *)
Definition opp (x : t) : t :=
  match x with
  | NaN => NaN
  | Infinity s => Infinity (negb s)
  | NegZero => Finite 0
  | Finite q => if Qeq_bool q 0 then NegZero else Finite (- q)
  end.

(** [x + y]. *)
Definition add (x y : t) : t :=
  match x, y with
  | NaN, _ => NaN
  | _, NaN => NaN
  | Infinity s, Infinity s' => if Bool.eqb s s' then Infinity s else NaN
  | Infinity s, _ => Infinity s
  | _, Infinity s => Infinity s
  | NegZero, NegZero => NegZero
  | _, _ => round binary64 (value x + value y)
  end.

(** [x - y]. *)
Definition sub (x y : t) : t := add x (opp y).

(** [x * y]. *)
Definition mul (x y : t) : t :=
  match x, y with
  | NaN, _ => NaN
  | _, NaN => NaN
  | Infinity s, _ => if isZero y then NaN else Infinity (xorb s (isNegative y))
  | _, Infinity s => if isZero x then NaN else Infinity (xorb (isNegative x) s)
  | _, _ =>
      if isZero x || isZero y then zero (xorb (isNegative x) (isNegative y))
      else round binary64 (value x * value y)
  end.

(** [x / y]. *)
Definition div (x y : t) : t :=
  match x, y with
  | NaN, _ => NaN
  | _, NaN => NaN
  | Infinity _, Infinity _ => NaN
  | Infinity s, _ => Infinity (xorb s (isNegative y))
  | _, Infinity s => zero (xorb (isNegative x) s)
  | _, _ =>
      if isZero y then
        if isZero x then NaN else Infinity (xorb (isNegative x) (isNegative y))
      else if isZero x then zero (xorb (isNegative x) (isNegative y))
      else round binary64 (value x / value y)
  end.

(** [Math.floor]. *)
Definition floor (x : t) : t :=
  match x with
  | Finite q => Finite (inject_Z (Qfloor q))
  | _ => x
  end.

(** [Math.abs]. *)
Definition abs (x : t) : t :=
  match x with
  | NaN => NaN
  | Infinity _ => Infinity false
  | NegZero => Finite 0
  | Finite q => Finite (Qabs q)
  end.

(** [Math.sign]. *)
Definition sign (x : t) : t :=
  match x with
  | NaN => NaN
  | Infinity s => if s then Finite (-1) else Finite 1
  | NegZero => NegZero
  | Finite q =>
      match Qcompare q 0 with
      | Gt => Finite 1
      | Lt => Finite (-1)
      | Eq => Finite 0
      end
  end.

(** The order of two numbers; none when one of them is [NaN]. *)
Definition compare (x y : t) : option comparison :=
  match x, y with
  | NaN, _ => None
  | _, NaN => None
  | Infinity s, Infinity s' =>
      Some (if Bool.eqb s s' then Eq else if s then Lt else Gt)
  | Infinity s, _ => Some (if s then Lt else Gt)
  | _, Infinity s => Some (if s then Gt else Lt)
  | _, _ => Some (Qcompare (value x) (value y))
  end.

(** [x > y], [x < y], [x >= y]. *)
Definition gt (x y : t) : bool :=
  match compare x y with Some Gt => true | _ => false end.
Definition lt (x y : t) : bool :=
  match compare x y with Some Lt => true | _ => false end.
Definition ge (x y : t) : bool :=
  match compare x y with Some Gt | Some Eq => true | _ => false end.

(** The integer a number denotes, when it is one (the negative zero
    denotes 0). *)
Definition toInteger (x : t) : option Z :=
  match x with
  | NegZero => Some 0%Z
  | Finite q => if Qeq_bool (inject_Z (Qfloor q)) q then Some (Qfloor q) else None
  | _ => None
  end.

(** An integer multiple of [2 ^ k]. *)
Definition multiple (k : Z) (q : Q) : Prop := exists m : Z, q == inject_Z m * pow2 k.

(** A multiple of [2 ^ k] within [bound] of zero. *)
Definition within (k : Z) (bound q : Q) : Prop :=
  multiple k q /\ - bound <= q /\ q <= bound.

(** A finite number that the format holds: an integer of fewer than
    [precision] bits times a power of two not below the least one. *)
Definition representable (fmt : Format) (q : Q) : Prop :=
  exists m k : Z,
    q == inject_Z m * pow2 k /\ (Z.abs m < 2 ^ precision fmt)%Z /\ (emin fmt <= k)%Z /\
    Qabs q < pow2 (emax fmt).

End Number.

(** ** Property reads *)

Module JS.

(** What reading a numeric property gives: [undefined] when the object
    has no such property, the number otherwise. *)
Inductive Value : Type :=
| Undefined
| Num (n : Number.t).

(** [ToNumber], applied by every arithmetic operator and comparison. *)
Definition toNumber (v : Value) : Number.t :=
  match v with
  | Undefined => Number.NaN
  | Num n => n
  end.

(** [ToBoolean], applied by [!] and [if]: [undefined], [NaN] and the two
    zeros are false. *)
Definition toBoolean (v : Value) : bool :=
  match v with
  | Undefined => false
  | Num Number.NaN => false
  | Num Number.NegZero => false
  | Num (Number.Infinity _) => true
  | Num (Number.Finite q) => negb (Qeq_bool q 0)
  end.

End JS.

(** ** Tile collision map *)

Module TileCollisionMap.

(** [type TileAttribute = 0 | 1 | 2 | 3]. *)
Inductive TileAttribute : Type :=
| Empty
| Solid
| OneWayPlatform
| Ladder.

Definition attr_code (a : TileAttribute) : Z :=
  match a with
  | Empty => 0
  | Solid => 1
  | OneWayPlatform => 2
  | Ladder => 3
  end.

(** The object: a [Uint8Array] and the three read-only fields. *)
Record t : Type := mk {
  data : list Z;
  cols : Z;
  rows : Z;
  tileSize : Q
}.

(** [new TileCollisionMap(cols, rows, tileSize)].  [new Uint8Array(n)]
    raises a RangeError on a negative length: [None]. *)
Definition create (c r : Z) (ts : Q) : option t :=
  if c * r <? 0 then None
  else Some (mk (replicate (Z.to_nat (c * r)) 0) c r ts).

(** The guard shared by [set] and [get]. *)
Definition out_of_bounds (m : t) (col row : Z) : bool :=
  (col <? 0) || (cols m <=? col) || (row <? 0) || (rows m <=? row).

Definition cell_index (m : t) (col row : Z) : nat :=
  Z.to_nat (row * cols m + col).

Definition set (m : t) (col row : Z) (attr : TileAttribute) : t :=
  if out_of_bounds m col row then m
  else mk (<[cell_index m col row := attr_code attr]> (data m))
          (cols m) (rows m) (tileSize m).

(** [get]: [Some 1] out of bounds; otherwise the array read, which is
    [None] (undefined) only if the array is shorter than the grid. *)
Definition get (m : t) (col row : Z) : option Z :=
  if out_of_bounds m col row then Some 1
  else data m !! cell_index m col row.

(** [getAtPixel]: the cell of a pixel.  For [tileSize = 0] JavaScript
    divides to an infinity or NaN; the lemmas about pixel lookups assume
    a positive tile size. *)
Definition getAtPixel (m : t) (px py : Q) : option Z :=
  get m (Qfloor (px / tileSize m)) (Qfloor (py / tileSize m)).

Definition is_code (a : TileAttribute) (v : option Z) : bool :=
  match v with
  | Some z => z =? attr_code a
  | None => false
  end.

Definition isSolid (m : t) (px py : Q) : bool := is_code Solid (getAtPixel m px py).
Definition isLadder (m : t) (px py : Q) : bool := is_code Ladder (getAtPixel m px py).
Definition isOneWayPlatform (m : t) (px py : Q) : bool :=
  is_code OneWayPlatform (getAtPixel m px py).

(** A write request, and the grid after a sequence of them. *)
Record SetOp : Type := mkSet { op_col : Z; op_row : Z; op_attr : TileAttribute }.

Definition apply_set (m : t) (o : SetOp) : t :=
  set m (op_col o) (op_row o) (op_attr o).

Definition run_sets (m : t) (ops : list SetOp) : t := fold_left apply_set ops m.

(** The attribute most recently written at a cell by [ops], [Empty] if
    none of them addresses it. *)
Fixpoint last_set (ops : list SetOp) (col row : Z) (acc : TileAttribute) : TileAttribute :=
  match ops with
  | [] => acc
  | o :: rest =>
      if (op_col o =? col) && (op_row o =? row)
      then last_set rest col row (op_attr o)
      else last_set rest col row acc
  end.

(** A cell inside the grid. *)
Definition in_grid (m : t) (col row : Z) : Prop :=
  0 <= col < cols m /\ 0 <= row < rows m.

(** The grid is sized as constructed. *)
Definition well_sized (m : t) : Prop :=
  length (data m) = Z.to_nat (cols m * rows m).

(** *** The lookups on number values

    The methods again, as the physics step calls them: with the numbers
    it computes, which may be [NaN] or infinite, and with the divisions
    rounded as doubles.  A comparison with [NaN] is false, so a [NaN]
    coordinate passes the bounds test and indexes the array by [NaN],
    which reads [undefined]. *)
Module OnNumbers.

Definition get (m : t) (col row : Number.t) : option Z :=
  if Number.lt col (Number.ofZ 0) || Number.ge col (Number.ofZ (cols m))
     || Number.lt row (Number.ofZ 0) || Number.ge row (Number.ofZ (rows m))
  then Some 1
  else
    match Number.toInteger (Number.add (Number.mul row (Number.ofZ (cols m))) col) with
    | Some i => if i <? 0 then None else data m !! Z.to_nat i
    | None => None
    end.

Definition getAtPixel (m : t) (px py : Number.t) : option Z :=
  get m (Number.floor (Number.div px (Number.ofQ (tileSize m))))
        (Number.floor (Number.div py (Number.ofQ (tileSize m)))).

Definition isSolid (m : t) (px py : Number.t) : bool :=
  is_code Solid (getAtPixel m px py).

End OnNumbers.

End TileCollisionMap.


(** ** Physics: gravity, integration, axis-separated collision *)

Module PhysicsSystem.

(** [PHYSICS_CONSTANTS]. *)
Definition GRAVITY : Number.t := Number.ofQ (35 # 100).
Definition MAX_FALL_SPEED : Number.t := Number.ofZ 16.
Definition JUMP_IMPULSE : Number.t := Number.ofQ (- (95 # 10)).
Definition WALK_SPEED : Number.t := Number.ofZ 3.
Definition LADDER_SPEED : Number.t := Number.ofQ (5 # 2).
Definition TILE_SIZE : Number.t := Number.ofZ 64.
Definition PIXEL_STUCK_THRESHOLD : Number.t := Number.ofZ 2.

Inductive Axis : Type :=
| horizontal
| vertical.

(** The object [{ pos, blocked }]. *)
Record Resolved : Type := mkResolved { pos : Number.t; blocked : bool }.

(** [Math.floor(test / TILE_SIZE)]: the tile index the snap is computed
    from. *)
Definition tileOf (test : Number.t) : Number.t :=
  Number.floor (Number.div test TILE_SIZE).

(** [resolveAxisCollision], lines 117-169.  The arguments are used in
    arithmetic and comparisons only, so that an [undefined] argument
    acts as [NaN]: the callers pass [JS.toNumber] of what they read. *)
Definition resolveAxisCollision
    (collisionMap : option TileCollisionMap.t)
    (x y vx vy w h : Number.t) (axis : Axis) : Resolved :=
  match collisionMap with
  | None => mkResolved (match axis with horizontal => x | vertical => y end) false
  | Some cm =>
      let half_w := Number.div w (Number.ofZ 2) in
      let half_h := Number.div h (Number.ofZ 2) in
      match axis with
      | horizontal =>
          let testX :=
            if Number.gt vx (Number.ofZ 0) then Number.add x half_w else Number.sub x half_w in
          let topY := Number.add (Number.sub y half_h) (Number.ofZ 1) in
          let bottomY := Number.sub (Number.add y half_h) (Number.ofZ 1) in
          if TileCollisionMap.OnNumbers.isSolid cm testX topY
             || TileCollisionMap.OnNumbers.isSolid cm testX bottomY
          then
            let tileX := tileOf testX in
            let snapped :=
              if Number.gt vx (Number.ofZ 0)
              then Number.sub (Number.sub (Number.mul tileX TILE_SIZE) half_w) (Number.ofZ 1)
              else Number.add
                     (Number.add (Number.mul (Number.add tileX (Number.ofZ 1)) TILE_SIZE) half_w)
                     (Number.ofZ 1) in
            if Number.lt (Number.abs (Number.sub snapped x)) PIXEL_STUCK_THRESHOLD
            then mkResolved (Number.sub x (Number.sign vx)) true
            else mkResolved snapped true
          else mkResolved x false
      | vertical =>
          let testY :=
            if Number.gt vy (Number.ofZ 0) then Number.add y half_h else Number.sub y half_h in
          let leftX := Number.add (Number.sub x half_w) (Number.ofZ 1) in
          let rightX := Number.sub (Number.add x half_w) (Number.ofZ 1) in
          if TileCollisionMap.OnNumbers.isSolid cm leftX testY
             || TileCollisionMap.OnNumbers.isSolid cm rightX testY
          then
            let tileY := tileOf testY in
            let snapped :=
              if Number.gt vy (Number.ofZ 0)
              then Number.sub (Number.mul tileY TILE_SIZE) half_h
              else Number.add (Number.mul (Number.add tileY (Number.ofZ 1)) TILE_SIZE) half_h in
            mkResolved snapped true
          else mkResolved y false
      end
  end.

(** The local constants of [resolveAxisCollision] as functions of what
    they are computed from: [half_w] and [half_h]; [testX] and [testY];
    [topY] and [leftX]; [bottomY] and [rightX]; the two [snapped]. *)
Definition half (extent : Number.t) : Number.t := Number.div extent (Number.ofZ 2).

Definition leadingEdge (p v extent : Number.t) : Number.t :=
  if Number.gt v (Number.ofZ 0) then Number.add p (half extent) else Number.sub p (half extent).

Definition innerLow (p extent : Number.t) : Number.t :=
  Number.add (Number.sub p (half extent)) (Number.ofZ 1).

Definition innerHigh (p extent : Number.t) : Number.t :=
  Number.sub (Number.add p (half extent)) (Number.ofZ 1).

Definition snappedX (x vx w : Number.t) : Number.t :=
  if Number.gt vx (Number.ofZ 0)
  then Number.sub (Number.sub (Number.mul (tileOf (leadingEdge x vx w)) TILE_SIZE) (half w))
                  (Number.ofZ 1)
  else Number.add
         (Number.add
            (Number.mul (Number.add (tileOf (leadingEdge x vx w)) (Number.ofZ 1)) TILE_SIZE)
            (half w))
         (Number.ofZ 1).

Definition snappedY (y vy h : Number.t) : Number.t :=
  if Number.gt vy (Number.ofZ 0)
  then Number.sub (Number.mul (tileOf (leadingEdge y vy h)) TILE_SIZE) (half h)
  else Number.add
         (Number.mul (Number.add (tileOf (leadingEdge y vy h)) (Number.ofZ 1)) TILE_SIZE)
         (half h).

(** A single-field component at one entity.  [defineComponent({ value:
    ... })] gives an object whose field [value] is a typed array:
    [stored] is the cell [C.value[eid]], which the entity store and the
    proxies exported beside the components read and write.  [update]
    destructures the component objects themselves (line 55-56) and
    indexes them, [C[eid]]: [own] is that property of the object,
    [undefined] until something assigns it. *)
Record Component : Type := mkComponent {
  stored : Number.t;
  own : JS.Value
}.

(** What the step reads and writes for one entity: the cells of
    [Position] and [PreviousPosition], which have the fields [x] and [y]
    the step names and are [Float32Array]s, and the six single-field
    components. *)
Record Body : Type := mkBody {
  posX : Number.t;
  posY : Number.t;
  prevX : Number.t;
  prevY : Number.t;
  velX : Component;
  velY : Component;
  onGround : Component;
  onLadder : Component;
  width : Component;
  height : Component
}.

(** The payload of ['entity:landed']. *)
Inductive Event : Type :=
| EntityLanded (eid : nat) (velocity : JS.Value).

(** An assignment [C[eid] = v]: it creates or replaces the own property
    and leaves the typed array alone. *)
Definition assign (c : Component) (v : Number.t) : Component :=
  mkComponent (stored c) (JS.Num v).

Definition set_velY (b : Body) (c : Component) : Body :=
  mkBody (posX b) (posY b) (prevX b) (prevY b) (velX b) c
         (onGround b) (onLadder b) (width b) (height b).

Definition set_velX (b : Body) (c : Component) : Body :=
  mkBody (posX b) (posY b) (prevX b) (prevY b) c (velY b)
         (onGround b) (onLadder b) (width b) (height b).

Definition set_onGround (b : Body) (c : Component) : Body :=
  mkBody (posX b) (posY b) (prevX b) (prevY b) (velX b) (velY b)
         c (onLadder b) (width b) (height b).

(** A store into [Position.x]: the cell takes the value rounded to
    single precision. *)
Definition set_posX (b : Body) (v : Number.t) : Body :=
  mkBody (Number.fround v) (posY b) (prevX b) (prevY b) (velX b) (velY b)
         (onGround b) (onLadder b) (width b) (height b).

Definition set_posY (b : Body) (v : Number.t) : Body :=
  mkBody (posX b) (Number.fround v) (prevX b) (prevY b) (velX b) (velY b)
         (onGround b) (onLadder b) (width b) (height b).

(** Lines 64-69. *)
Definition applyGravity (b : Body) : Body :=
  if negb (JS.toBoolean (own (onLadder b))) then
    let b1 := set_velY b (assign (velY b) (Number.add (JS.toNumber (own (velY b))) GRAVITY)) in
    if Number.gt (JS.toNumber (own (velY b1))) MAX_FALL_SPEED
    then set_velY b1 (assign (velY b1) MAX_FALL_SPEED)
    else b1
  else b.

(** Lines 72-73: a cell of one [Float32Array] copied into a cell of
    another. *)
Definition savePreviousPosition (b : Body) : Body :=
  mkBody (posX b) (posY b) (posX b) (posY b) (velX b) (velY b)
         (onGround b) (onLadder b) (width b) (height b).

(** Lines 80-87, for the integrated [newX]. *)
Definition horizontalResult (collisionMap : option TileCollisionMap.t)
    (newX : Number.t) (b : Body) : Resolved :=
  resolveAxisCollision collisionMap newX (posY b)
    (JS.toNumber (own (velX b))) (Number.ofZ 0)
    (JS.toNumber (own (width b))) (JS.toNumber (own (height b))) horizontal.

Definition horizontalStage (collisionMap : option TileCollisionMap.t)
    (newX : Number.t) (b : Body) : Body :=
  let r := horizontalResult collisionMap newX b in
  let b1 := set_posX b (pos r) in
  if blocked r then set_velX b1 (assign (velX b1) (Number.ofZ 0)) else b1.

(** Lines 90-110, for the integrated [newY]. *)
Definition verticalResult (collisionMap : option TileCollisionMap.t)
    (newY : Number.t) (b : Body) : Resolved :=
  resolveAxisCollision collisionMap (posX b) newY
    (Number.ofZ 0) (JS.toNumber (own (velY b)))
    (JS.toNumber (own (width b))) (JS.toNumber (own (height b))) vertical.

Definition verticalStage (collisionMap : option TileCollisionMap.t) (eid : nat)
    (newY : Number.t) (b : Body) : Body * list Event :=
  let r := verticalResult collisionMap newY b in
  let b1 := set_posY b (pos r) in
  if blocked r then
    let wasGrounded := JS.toBoolean (own (onGround b1)) in
    if Number.gt (JS.toNumber (own (velY b1))) (Number.ofZ 0) then
      let b2 := set_onGround b1 (assign (onGround b1) (Number.ofZ 1)) in
      (set_velY b2 (assign (velY b2) (Number.ofZ 0)),
       if wasGrounded then [] else [EntityLanded eid (own (velY b2))])
    else (set_velY b1 (assign (velY b1) (Number.ofZ 0)), [])
  else (set_onGround b1 (assign (onGround b1) (Number.ofZ 0)), []).

(** The body of the [for] loop, lines 62-111. *)
Definition updateEntity (collisionMap : option TileCollisionMap.t) (eid : nat)
    (b : Body) : Body * list Event :=
  let b1 := savePreviousPosition (applyGravity b) in
  let newX := Number.add (posX b1) (JS.toNumber (own (velX b1))) in
  let newY := Number.add (posY b1) (JS.toNumber (own (velY b1))) in
  verticalStage collisionMap eid newY (horizontalStage collisionMap newX b1).

Fixpoint updateAll (collisionMap : option TileCollisionMap.t)
    (entities : list (nat * Body)) : list (nat * Body) * list Event :=
  match entities with
  | [] => ([], [])
  | (eid, b) :: rest =>
      let '(b', evs) := updateEntity collisionMap eid b in
      let '(rest', evs') := updateAll collisionMap rest in
      ((eid, b') :: rest', evs ++ evs')
  end.

(** [update(dt)]: nothing happens before a collision map is loaded.
    [entities] are the entities of the query, each with its cells. *)
Definition update (collisionMap : option TileCollisionMap.t) (dt : Number.t)
    (entities : list (nat * Body)) : list (nat * Body) * list Event :=
  match collisionMap with
  | None => (entities, [])
  | Some cm => updateAll (Some cm) entities
  end.

(** An entity as the entity store holds it: the values in the typed
    arrays, no property of its own on any component object. *)
Definition held (v : Number.t) : Component := mkComponent v JS.Undefined.

Definition heldBody (x y vx vy w h : Number.t) (grounded ladder : Number.t) : Body :=
  mkBody x y x y (held vx) (held vy) (held grounded) (held ladder) (held w) (held h).

(** The same values written by hand as properties of the component
    objects, where the step looks for them. *)
Definition written (v : Number.t) : Component := mkComponent v (JS.Num v).

Definition writtenBody (x y vx vy w h : Number.t) (grounded ladder : Number.t) : Body :=
  mkBody x y x y (written vx) (written vy) (written grounded) (written ladder)
         (written w) (written h).

(** A body 32 px wide and high at (32, 40), falling at 10 px per tick,
    neither grounded nor on a ladder: as the entity store holds it, and
    with the same values written on the component objects. *)
Definition fallingHeld : Body :=
  heldBody (Number.ofZ 32) (Number.ofZ 40) (Number.ofZ 0) (Number.ofZ 10)
           (Number.ofZ 32) (Number.ofZ 32) (Number.ofZ 0) (Number.ofZ 0).

Definition fallingWritten : Body :=
  writtenBody (Number.ofZ 32) (Number.ofZ 40) (Number.ofZ 0) (Number.ofZ 10)
              (Number.ofZ 32) (Number.ofZ 32) (Number.ofZ 0) (Number.ofZ 0).

(** A body at (100, 100) with velocity.y = 5, off or on a ladder. *)
Definition driftingHeld (ladder : Z) : Body :=
  heldBody (Number.ofZ 100) (Number.ofZ 100) (Number.ofZ 0) (Number.ofZ 5)
           (Number.ofZ 32) (Number.ofZ 32) (Number.ofZ 0) (Number.ofZ ladder).

Definition driftingWritten (ladder : Z) : Body :=
  writtenBody (Number.ofZ 100) (Number.ofZ 100) (Number.ofZ 0) (Number.ofZ 5)
              (Number.ofZ 32) (Number.ofZ 32) (Number.ofZ 0) (Number.ofZ ladder).

(** A coordinate or size on which the step's arithmetic is exact: a
    multiple of [2 ^ -34] px of magnitude at most 65536 px.  Every
    single-precision value of magnitude between [2 ^ -11] and 65536 is
    one. *)
Definition pixelValue (q : Q) : Prop := Number.within (-34) 65536 q.

(** A one-cell level: the cell is empty, everything around it is
    out of the grid. *)
Definition openCell : TileCollisionMap.t :=
  TileCollisionMap.mk [0%Z] 1 1 64.

(** A column of two cells: an empty cell above a solid one. *)
Definition floorCell : TileCollisionMap.t :=
  TileCollisionMap.mk [0%Z; 1%Z] 1 2 64.

End PhysicsSystem.

(** ** Simulation clock: fixed timestep with render interpolation *)

Module GameLoop.

(** What the loop does to the outside: the two callbacks of the
    configuration and the frame requests. *)
Inductive Event : Type :=
| LogicTick (dt : Number.t)
| RenderFrame (alpha : Number.t)
| RequestFrame
| CancelFrame.

(** The private fields.  [rafPending] stands for [rafHandle !== null]. *)
Record State : Type := mkState {
  logicInterval : Number.t;
  rafPending : bool;
  previousTime : Number.t;
  accumulator : Number.t;
  running : bool;
  frameCount : Number.t;
  lastFPSTime : Number.t;
  currentFPS : Number.t;
  logicTicksThisSecond : Number.t;
  logicTickCounter : Number.t
}.

Definition MAX_ACCUMULATOR_MS : Number.t := Number.ofZ 200.

(** The constructor: [logicInterval = 1000 / config.logicTickRate]. *)
Definition create (logicTickRate : Number.t) : State :=
  mkState (Number.div (Number.ofZ 1000) logicTickRate) false (Number.ofZ 0) (Number.ofZ 0)
          false (Number.ofZ 0) (Number.ofZ 0) (Number.ofZ 0) (Number.ofZ 0) (Number.ofZ 0).

(** [start()], with the value [performance.now()] returns. *)
Definition start (s : State) (now : Number.t) : State * list Event :=
  if running s then (s, [])
  else (mkState (logicInterval s) true now (accumulator s) true
                (frameCount s) (lastFPSTime s) (currentFPS s)
                (logicTicksThisSecond s) (logicTickCounter s),
        [RequestFrame]).

(** [stop()]. *)
Definition stop (s : State) : State * list Event :=
  (mkState (logicInterval s) false (previousTime s) (accumulator s) false
           (frameCount s) (lastFPSTime s) (currentFPS s)
           (logicTicksThisSecond s) (logicTickCounter s),
   if rafPending s then [CancelFrame] else []).

(** The clamp of lines 63-65. *)
Definition clampFrameTime (frameTime : Number.t) : Number.t :=
  if Number.gt frameTime MAX_ACCUMULATOR_MS then MAX_ACCUMULATOR_MS else frameTime.

(** The [while] loop of lines 70-74.  It returns the accumulator, the
    tick counter and the callbacks made; [None] when [fuel] iterations
    did not bring the accumulator below the interval. *)
Fixpoint drain (fuel : nat) (interval acc counter : Number.t)
  : option (Number.t * Number.t * list Event) :=
  if Number.ge acc interval then
    match fuel with
    | O => None
    | S fuel' =>
        match drain fuel' interval (Number.sub acc interval)
                    (Number.add counter (Number.ofZ 1)) with
        | Some (acc', counter', evs) =>
            Some (acc', counter', LogicTick (Number.div interval (Number.ofZ 1000)) :: evs)
        | None => None
        end
    end
  else Some (acc, counter, []).

(** [tick(currentTime)]. *)
Definition tick (fuel : nat) (s : State) (currentTime : Number.t)
  : option (State * list Event) :=
  if negb (running s) then Some (s, [])
  else
    let frameTime := clampFrameTime (Number.sub currentTime (previousTime s)) in
    let acc0 := Number.add (accumulator s) frameTime in
    match drain fuel (logicInterval s) acc0 (logicTickCounter s) with
    | None => None
    | Some (acc, counter, ticks) =>
        let alpha := Number.div acc (logicInterval s) in
        let frames := Number.add (frameCount s) (Number.ofZ 1) in
        let rollover :=
          Number.ge (Number.sub currentTime (lastFPSTime s)) (Number.ofZ 1000) in
        Some (mkState (logicInterval s) true currentTime acc (running s)
                (if rollover then Number.ofZ 0 else frames)
                (if rollover then currentTime else lastFPSTime s)
                (if rollover then frames else currentFPS s)
                (if rollover then counter else logicTicksThisSecond s)
                (if rollover then Number.ofZ 0 else counter),
              ticks ++ [RenderFrame alpha; RequestFrame])
    end.

Definition logicTicks (evs : list Event) : list Number.t :=
  flat_map (fun e => match e with LogicTick dt => [dt] | _ => [] end) evs.


End GameLoop.

(** ** Reading a byte buffer *)

Module DataView.

(** The byte at an offset as a number. *)
Definition u8 (b : byte) : Z := Z.of_N (Byte.to_N b).

(** [n] bytes from [off]; [None] (a RangeError) when the read leaves
    the buffer. *)
Definition bytesAt (buf : list byte) (off : Z) (n : nat) : option (list byte) :=
  if (off <? 0) || (Z.of_nat (length buf) <? off + Z.of_nat n) then None
  else Some (take n (drop (Z.to_nat off) buf)).

(** The unsigned value of bytes, least significant first. *)
Fixpoint le_value (bs : list byte) : Z :=
  match bs with
  | [] => 0
  | b :: rest => u8 b + 256 * le_value rest
  end.

Definition unsignedAt (buf : list byte) (off : Z) (n : nat) (littleEndian : bool) : option Z :=
  match bytesAt buf off n with
  | None => None
  | Some bs => Some (le_value (if littleEndian then bs else rev bs))
  end.

(** Two's complement reading of a [bits]-wide unsigned value. *)
Definition toSigned (bits : Z) (v : Z) : Z :=
  if v <? 2 ^ (bits - 1) then v else v - 2 ^ bits.

Definition getUint16 (buf : list byte) (off : Z) (le : bool) : option Z :=
  unsignedAt buf off 2 le.
Definition getInt16 (buf : list byte) (off : Z) (le : bool) : option Z :=
  option_map (toSigned 16) (unsignedAt buf off 2 le).
Definition getUint32 (buf : list byte) (off : Z) (le : bool) : option Z :=
  unsignedAt buf off 4 le.
Definition getInt32 (buf : list byte) (off : Z) (le : bool) : option Z :=
  option_map (toSigned 32) (unsignedAt buf off 4 le).

(** [raw[i]] on a [Uint8Array], for an index computed by the code. *)
Definition rawAt (buf : list byte) (i : Z) : option byte :=
  if i <? 0 then None else buf !! Z.to_nat i.

(** [String.fromCharCode(raw[i])]: an [undefined] argument gives the
    character of code 0. *)
Definition charCode (o : option byte) : byte := default x00 o.

(** Equality of character strings, [===] on what [fromCharCode] built. *)
Fixpoint bytes_eqb (a b : list byte) : bool :=
  match a, b with
  | [], [] => true
  | x :: a', y :: b' => Byte.eqb x y && bytes_eqb a' b'
  | _, _ => false
  end.

(** [raw.slice(a, b)] for [0 <= a <= b]. *)
Definition slice (buf : list byte) (a b : nat) : list byte :=
  take (b - a) (drop a buf).

End DataView.

(** ** Sprite frames: palette indices, run-length decoding *)

Module PidLoader.

Record PidFrame : Type := mkFrame {
  width : Z;
  height : Z;
  offsetX : Z;
  offsetY : Z;
  flags : Z;
  pixels : list byte
}.

Definition PID_FLAG_COLOR_KEY : Z := 1.
Definition PID_FLAG_COMPRESSED : Z := 2.
Definition PID_FLAG_HAS_PALETTE : Z := 4.

(** [DEFAULT_PALETTE]: 768 zero bytes. *)
Definition DEFAULT_PALETTE : list byte := replicate 768%nat x00.

Inductive Error : Type :=
| InvalidMagic
| InvalidPalette
| RangeError.

(** [setPalette]. *)
Definition setPalette (palette : list byte) : Error + list byte :=
  if Nat.eqb (length palette) 768 then inr palette else inl InvalidPalette.

(** Storing into a [Uint8Array] or [Uint8ClampedArray] a value read
    from another one: [undefined] is stored as 0. *)
Definition stored (o : option byte) : byte := default x00 o.

(** The decoder's variables. *)
Record Rle : Type := mkRle { out : list byte; srcPos : nat; dstPos : nat }.

(** [out[dstPos++] = v]. *)
Definition emit (st : Rle) (v : byte) : Rle :=
  mkRle (<[dstPos st := v]> (out st)) (srcPos st) (S (dstPos st)).

(** The run loop of lines 160-162. *)
Fixpoint runLoop (count : nat) (value : byte) (expectedPixels : nat) (st : Rle) : Rle :=
  match count with
  | O => st
  | S count' =>
      if (dstPos st <? expectedPixels)%nat
      then runLoop count' value expectedPixels (emit st value)
      else st
  end.

(** The literal loop of lines 166-168. *)
Fixpoint literalLoop (count : nat) (src : list byte) (expectedPixels : nat) (st : Rle) : Rle :=
  match count with
  | O => st
  | S count' =>
      if (dstPos st <? expectedPixels)%nat && (srcPos st <? length src)%nat
      then
        let st1 := emit st (stored (src !! srcPos st)) in
        literalLoop count' src expectedPixels (mkRle (out st1) (S (srcPos st1)) (dstPos st1))
      else st
  end.

(** One iteration of the [while] loop: a control byte and its run or
    literal. *)
Definition rleStep (src : list byte) (expectedPixels : nat) (st : Rle) : Rle :=
  match src !! srcPos st with
  | None => mkRle (out st) (S (srcPos st)) (dstPos st)
  | Some c =>
      let control := Byte.to_nat c in
      let st1 := mkRle (out st) (S (srcPos st)) (dstPos st) in
      if (control <=? 127)%nat then
        let count := (control + 1)%nat in
        let value := stored (src !! srcPos st1) in
        runLoop count value expectedPixels (mkRle (out st1) (S (srcPos st1)) (dstPos st1))
      else
        let count := (control - 128 + 1)%nat in
        literalLoop count src expectedPixels st1
  end.

(** The [while] loop; [None] when [fuel] iterations did not end it. *)
Fixpoint rleLoop (fuel : nat) (src : list byte) (expectedPixels : nat) (st : Rle) : option Rle :=
  if (dstPos st <? expectedPixels)%nat && (srcPos st <? length src)%nat then
    match fuel with
    | O => None
    | S fuel' => rleLoop fuel' src expectedPixels (rleStep src expectedPixels st)
    end
  else Some st.

(** [decompressRLE(src, srcOffset, expectedPixels)]: the output array
    and whether the warning of lines 172-176 is printed.  Every iteration
    consumes a source byte, so [length src] iterations are allowed. *)
Definition decompressRLE (src : list byte) (srcOffset expectedPixels : nat)
    : option (list byte * bool) :=
  match rleLoop (length src) src expectedPixels
          (mkRle (replicate expectedPixels x00) srcOffset 0) with
  | None => None
  | Some st => Some (out st, negb (dstPos st =? expectedPixels)%nat)
  end.

(** One pass of the conversion loop of lines 104-121. *)
Definition convertPixel (hasColorKey : bool) (palette indices : list byte)
    (pixels : list byte) (i : nat) : list byte :=
  let idx := indices !! i in
  let base := (i * 4)%nat in
  let entry (k : nat) : option byte :=
    match idx with
    | Some ix => palette !! (Byte.to_nat ix * 3 + k)%nat
    | None => None
    end in
  let isZero := match idx with Some ix => Byte.eqb ix x00 | None => false end in
  if hasColorKey && isZero then
    <[(base + 3)%nat := x00]> (<[(base + 2)%nat := x00]>
      (<[(base + 1)%nat := x00]> (<[(base + 0)%nat := x00]> pixels)))
  else
    <[(base + 3)%nat := xff]> (<[(base + 2)%nat := stored (entry 2%nat)]>
      (<[(base + 1)%nat := stored (entry 1%nat)]> (<[(base + 0)%nat := stored (entry 0%nat)]> pixels))).

Definition convert (hasColorKey : bool) (palette indices : list byte) (pixelCount : nat)
    : list byte :=
  fold_left (convertPixel hasColorKey palette indices) (seq 0 pixelCount)
            (replicate (pixelCount * 4) x00).

Definition flagSet (flags mask : Z) : bool := negb (Z.land flags mask =? 0).

(** The palette the conversion uses and where the pixel data starts. *)
Definition activePalette (loaderPalette raw : list byte) (hasPalette : bool) : list byte * nat :=
  if hasPalette then (DataView.slice raw 16 (16 + 768), (16 + 768)%nat)
  else (loaderPalette, 16%nat).

(** The palette indices of the frame, one per pixel when the payload is
    long enough. *)
Definition frameIndices (raw : list byte) (cursor pixelCount : nat) (isCompressed : bool)
    : option (list byte) :=
  if isCompressed then option_map fst (decompressRLE raw cursor pixelCount)
  else Some (DataView.slice raw cursor (cursor + pixelCount)).

(** [parse(buffer)] of a loader whose palette is [loaderPalette].  The
    decoder always returns ([decompressRLE_total_and_exact] below), so
    the branch for its [None] is never taken. *)
Definition parse (loaderPalette : list byte) (buffer : list byte) : Error + PidFrame :=
  let raw := buffer in
  let magic := map (fun i => DataView.charCode (DataView.rawAt raw i)) [0; 1; 2] in
  if negb (DataView.bytes_eqb magic ["P"; "I"; "D"]%byte) then inl InvalidMagic
  else
    match DataView.getUint16 buffer 4 true, DataView.getUint16 buffer 6 true,
          DataView.getInt16 buffer 8 true, DataView.getInt16 buffer 10 true,
          DataView.getUint32 buffer 12 true with
    | Some w, Some h, Some ox, Some oy, Some fl =>
        let hasColorKey := flagSet fl PID_FLAG_COLOR_KEY in
        let isCompressed := flagSet fl PID_FLAG_COMPRESSED in
        let hasPalette := flagSet fl PID_FLAG_HAS_PALETTE in
        let '(palette, cursor) := activePalette loaderPalette raw hasPalette in
        let pixelCount := Z.to_nat (w * h) in
        match frameIndices raw cursor pixelCount isCompressed with
        | None => inl RangeError
        | Some indices =>
            inr (mkFrame w h ox oy fl (convert hasColorKey palette indices pixelCount))
        end
    | _, _, _, _, _ => inl RangeError
    end.

(** The run/literal rule as the format describes it: what a stream of
    control bytes and their operands expands to when nothing cuts it
    short.  [fuel] bounds the number of control bytes. *)
Fixpoint expand (fuel : nat) (stream : list byte) : list byte :=
  match fuel, stream with
  | S fuel', c :: rest =>
      let control := Byte.to_nat c in
      if (control <=? 127)%nat then
        match rest with
        | v :: rest' => replicate (control + 1) v ++ expand fuel' rest'
        | [] => []
        end
      else
        take (control - 128 + 1) rest ++ expand fuel' (drop (control - 128 + 1) rest)
  | _, _ => []
  end.

(** The whole expansion of a stream. *)
Definition expandAll (stream : list byte) : list byte := expand (length stream) stream.

(** A list cut at [n] elements and padded with zeros up to [n]. *)
Definition zeroPad (n : nat) (l : list byte) : list byte :=
  take n l ++ replicate (n - length (take n l)) x00.

(** The expected output: the expansion of the stream from the offset,
    cut at the expected count and padded with zeros up to it. *)
Definition expectedOutput (src : list byte) (srcOffset expectedPixels : nat) : list byte :=
  zeroPad expectedPixels (expandAll (drop srcOffset src)).

(** The decoder's output holds the bytes [w] written so far and zeros
    after them. *)
Definition written (n : nat) (w : list byte) (st : Rle) : Prop :=
  out st = w ++ replicate (n - length w) x00 /\ dstPos st = length w /\ (length w <= n)%nat.

(** The four bytes of pixel [i] of an RGBA buffer. *)
Definition pixelAt (pixels : list byte) (i : nat) : option (byte * byte * byte * byte) :=
  match pixels !! (i * 4 + 0)%nat, pixels !! (i * 4 + 1)%nat,
        pixels !! (i * 4 + 2)%nat, pixels !! (i * 4 + 3)%nat with
  | Some r, Some g, Some b, Some a => Some (r, g, b, a)
  | _, _, _, _ => None
  end.

(** The three bytes of a palette at an index; a byte the palette does
    not have reads as 0. *)
Definition paletteEntry (palette : list byte) (ix : byte) : byte * byte * byte :=
  (stored (palette !! (Byte.to_nat ix * 3 + 0)%nat),
   stored (palette !! (Byte.to_nat ix * 3 + 1)%nat),
   stored (palette !! (Byte.to_nat ix * 3 + 2)%nat)).

(** The pixel the format asks for, given the palette index of the
    pixel, if the payload has one. *)
Definition specPixel (hasColorKey : bool) (palette : list byte) (idx : option byte)
    : byte * byte * byte * byte :=
  match idx with
  | Some ix =>
      if hasColorKey && Byte.eqb ix x00 then (x00, x00, x00, x00)
      else let '(r, g, b) := paletteEntry palette ix in (r, g, b, xff)
  | None => (x00, x00, x00, xff)
  end.

(** A 2 x 1 frame with the colour-key flag, raw indices 0 and 5, and a
    palette whose entry 5 is (10,20,30): the decoded pixels are
    0 0 0 0 10 20 30 255. *)
Definition scenarioPalette : list byte :=
  replicate 15%nat x00 ++ [x0a; x14; x1e] ++ replicate 750%nat x00.

Definition scenarioFrame : list byte :=
  ["P"; "I"; "D"; x00; x02; x00; x01; x00; x00; x00; x00; x00; x01; x00; x00; x00;
   x00; x05]%byte.

(** The encoded form the format description gives (lines 22-24): a run
    of [count] equal bytes is the control byte [count - 1] followed by
    the byte; [count] bytes copied verbatim are the control byte
    [0x80 + count - 1] followed by the bytes.  A well-formed count is
    between 1 and 128. *)
Inductive Chunk : Type :=
| Run (count : nat) (value : byte)
| Literal (bs : list byte).

Definition controlByte (n : nat) : byte := default x00 (Byte.of_nat n).

Definition chunkCount (c : Chunk) : nat :=
  match c with
  | Run count _ => count
  | Literal bs => length bs
  end.

Definition wellFormed (c : Chunk) : Prop := (1 <= chunkCount c <= 128)%nat.

Definition chunkBytes (c : Chunk) : list byte :=
  match c with
  | Run count value => [controlByte (count - 1); value]
  | Literal bs => controlByte (128 + (length bs - 1)) :: bs
  end.

Definition chunkPixels (c : Chunk) : list byte :=
  match c with
  | Run count value => replicate count value
  | Literal bs => bs
  end.

Definition encode (chunks : list Chunk) : list byte := flat_map chunkBytes chunks.

Definition pixelsOf (chunks : list Chunk) : list byte := flat_map chunkPixels chunks.

(** The buffer starts with the three signature characters. *)
Definition startsWithPID (buffer : list byte) : Prop :=
  exists rest : list byte, buffer = ("P" :: "I" :: "D" :: rest)%byte.

End PidLoader.

(** ** Thrown errors *)

Module Thrown.

(** What a parser call ends with besides a value: the error the code
    throws itself for a bad signature, and the two runtime errors of the
    language (a read outside a buffer or an invalid array length; a
    property read on [undefined]). *)
Inductive Error : Type :=
| InvalidMagic
| RangeError
| TypeError.

Definition result (A : Type) : Type := Error + A.

Definition bind {A B : Type} (r : result A) (k : A -> result B) : result B :=
  match r with
  | inl e => inl e
  | inr a => k a
  end.

(** A [DataView] read: out of the buffer is a RangeError. *)
Definition read {A : Type} (o : option A) : result A :=
  match o with
  | Some a => inr a
  | None => inl RangeError
  end.

(** A loop that pushes the value of each call, stopping at a throw. *)
Fixpoint collect {A B : Type} (f : A -> result B) (l : list A) : result (list B) :=
  match l with
  | [] => inr []
  | a :: rest =>
      bind (f a) (fun b => bind (collect f rest) (fun bs => inr (b :: bs)))
  end.

End Thrown.

Notation "'let*' x ':=' e 'in' k" := (Thrown.bind e (fun x => k))
  (at level 10, x name, e at level 100, k at level 200).

(** ** Level maps: layers, objects, derived collision grid *)

Module WwdLoader.
Import Thrown.

Definition WWD_MAGIC : Z := 0x574F524C.
Definition WWD_VERSION : Z := 0x00050002.
Definition HEADER_SIZE : Z := 1536.
Definition OBJECT_ENTRY_SIZE : Z := 360.
Definition MAX_LAYERS : Z := 8.
Definition LAYER_HEADER_SIZE : Z := 52.

Record Rect : Type := mkRect { r_minX : Z; r_maxX : Z; r_minY : Z; r_maxY : Z }.

Record WwdObject : Type := mkObject {
  id : Z;
  o_name : list byte;
  logic : list byte;
  imageSet : list byte;
  animation : list byte;
  x : Z; y : Z; z : Z;
  width : Z; height : Z;
  speed : Z; points : Z; health : Z; damage : Z; smarts : Z;
  minX : Z; maxX : Z; minY : Z; maxY : Z;
  moveRect : Rect;
  userValues : list Z;
  addFlags : Z; dynamicFlags : Z; drawFlags : Z; userFlags : Z;
  type : Z; typeFlags : Z
}.

Record WwdLayer : Type := mkLayer {
  l_name : list byte;
  l_flags : Z;
  fillTileId : Z;
  tilesWide : Z;
  tilesHigh : Z;
  tileWidth : Z;
  tileHeight : Z;
  moveXPercent : Z;
  moveYPercent : Z;
  tiles : list Z
}.

Record Header : Type := mkHeader {
  version : Z;
  flags : Z;
  name : list byte;
  author : list byte;
  birth : list byte;
  rezFile : list byte;
  imageDir : list byte;
  palRez : list byte;
  startX : Z;
  startY : Z;
  launchApp : list byte;
  imageSets : list (list byte);
  prefixes : list (list byte)
}.

Record WwdLevel : Type := mkLevel {
  header : Header;
  layers : list WwdLayer;
  objects : list WwdObject;
  collisionMap : TileCollisionMap.t
}.

(** [readString]: the bytes from [offset] up to the first zero byte, at
    most [maxLen] of them and none beyond the buffer. *)
Fixpoint untilNull (bs : list byte) : list byte :=
  match bs with
  | [] => []
  | b :: rest => if Byte.eqb b x00 then [] else b :: untilNull rest
  end.

Definition readString (raw : list byte) (offset : Z) (maxLen : nat) : list byte :=
  untilNull (take maxLen (drop (Z.to_nat offset) raw)).

(** [new Int32Array(buffer, byteOffset, length)] and its copy: a
    RangeError for an unaligned offset, a negative length or a range
    that leaves the buffer.  Elements are little-endian, as on the
    platforms the engine runs on. *)
Definition int32Array (buffer : list byte) (byteOffset length : Z) : result (list Z) :=
  if negb (byteOffset mod 4 =? 0) || (length <? 0)
     || (Z.of_nat (List.length buffer) <? byteOffset + 4 * length)
  then inl RangeError
  else collect (fun i => read (DataView.getInt32 buffer (byteOffset + 4 * Z.of_nat i) true))
               (seq 0 (Z.to_nat length)).

Definition parseLayerHeader (buffer : list byte) (base : Z) : result WwdLayer :=
  let u32 off := read (DataView.getUint32 buffer (base + off) true) in
  let i32 off := read (DataView.getInt32 buffer (base + off) true) in
  let* fl := u32 0x00 in
  let nm := readString buffer (base + 0x04) 32 in
  let* fill := i32 0x24 in
  let* wide := i32 0x28 in
  let* high := i32 0x2C in
  let* tw := i32 0x30 in
  let* th := i32 0x34 in
  let* mx := i32 0x38 in
  let* my := i32 0x3C in
  let* tilesOffset := u32 0x40 in
  let tileCount := wide * high in
  let* ts := int32Array buffer tilesOffset tileCount in
  inr (mkLayer nm fl fill wide high tw th mx my ts).

Definition parseObject (buffer : list byte) (base : Z) : result WwdObject :=
  let u32 off := read (DataView.getUint32 buffer (base + off) true) in
  let i32 off := read (DataView.getInt32 buffer (base + off) true) in
  let rs off len := readString buffer (base + off) len in
  let* v_id := i32 0x00 in
  let* v_x := i32 0xE4 in
  let* v_y := i32 0xE8 in
  let* v_z := i32 0xEC in
  let* v_width := i32 0xF0 in
  let* v_height := i32 0xF4 in
  let* v_speed := i32 0xF8 in
  let* v_points := i32 0xFC in
  let* v_health := i32 0x100 in
  let* v_damage := i32 0x104 in
  let* v_smarts := i32 0x108 in
  let* v_minX := i32 0x10C in
  let* v_maxX := i32 0x110 in
  let* v_minY := i32 0x114 in
  let* v_maxY := i32 0x118 in
  let* m_minX := i32 0x11C in
  let* m_maxX := i32 0x120 in
  let* m_minY := i32 0x124 in
  let* m_maxY := i32 0x128 in
  let* users := collect i32 [0x12C; 0x130; 0x134; 0x138; 0x13C; 0x140; 0x144; 0x148] in
  let* v_add := u32 0x14C in
  let* v_dynamic := u32 0x150 in
  let* v_draw := u32 0x154 in
  let* v_user := u32 0x158 in
  let* v_type := i32 0x15C in
  let* v_typeFlags := u32 0x160 in
  inr (mkObject v_id (rs 0x04 32%nat) (rs 0x24 32%nat) (rs 0x44 128%nat) (rs 0xC4 32%nat)
         v_x v_y v_z v_width v_height v_speed v_points v_health v_damage v_smarts
         v_minX v_maxX v_minY v_maxY (mkRect m_minX m_maxX m_minY m_maxY)
         users v_add v_dynamic v_draw v_user v_type v_typeFlags).

(** The object loop of lines 158-163, [remaining] iterations from
    index [i]; it stops at the first record that would leave the
    buffer. *)
Fixpoint parseObjects (remaining : nat) (buffer : list byte) (objectsOffset i : Z)
    : result (list WwdObject) :=
  match remaining with
  | O => inr []
  | S remaining' =>
      let objBase := objectsOffset + i * OBJECT_ENTRY_SIZE in
      if Z.of_nat (List.length buffer) <? objBase + OBJECT_ENTRY_SIZE then inr []
      else
        let* o := parseObject buffer objBase in
        let* os := parseObjects remaining' buffer objectsOffset (i + 1) in
        inr (o :: os)
  end.

(** [ToInt32] and the operator [&]. *)
Definition toInt32 (v : Z) : Z := DataView.toSigned 32 (v mod 2 ^ 32).
Definition bitAnd (a b : Z) : Z := toInt32 (Z.land (toInt32 a) (toInt32 b)).

(** The three tests on [layer.tiles[idx]] of lines 271-273.  An
    [undefined] element compares false, is 0 under [&] and is not
    [=== 0]. *)
Definition isNegative (tileId : option Z) : bool :=
  match tileId with Some t => t <? 0 | None => false end.

Definition isSolidTile (tileId : option Z) : bool :=
  match tileId with
  | Some t => negb (bitAnd t 0x80000000 =? 0) || (t =? 0)
  | None => false
  end.

(** The body of the inner loop. *)
Definition buildCell (layer : WwdLayer) (row : Z) (map : TileCollisionMap.t) (col : Z)
    : TileCollisionMap.t :=
  let idx := row * tilesWide layer + col in
  let tileId := tiles layer !! Z.to_nat idx in
  if isNegative tileId then map
  else TileCollisionMap.set map col row
         (if isSolidTile tileId then TileCollisionMap.Solid else TileCollisionMap.Empty).

(** The integers [0 <= i < n] in order: the values of a counting loop. *)
Definition upto (n : Z) : list Z := map Z.of_nat (seq 0 (Z.to_nat n)).

Definition buildRow (layer : WwdLayer) (map : TileCollisionMap.t) (row : Z)
    : TileCollisionMap.t :=
  fold_left (buildCell layer row) (upto (tilesWide layer)) map.

(** [buildCollisionMap(layer)]; the argument is [undefined] when the
    level has no layer. *)
Definition buildCollisionMap (layer : option WwdLayer) : result TileCollisionMap.t :=
  match layer with
  | None => inl TypeError
  | Some l =>
      match TileCollisionMap.create (tilesWide l) (tilesHigh l) (inject_Z (tileWidth l)) with
      | None => inl RangeError
      | Some map => inr (fold_left (buildRow l) (upto (tilesHigh l)) map)
      end
  end.

(** [layers[1] ?? layers[0]]. *)
Definition actionLayer (ls : list WwdLayer) : option WwdLayer :=
  match ls !! 1%nat with
  | Some l => Some l
  | None => ls !! 0%nat
  end.

(** The signature test of lines 111-118. *)
Definition checkMagic (buffer : list byte) : result unit :=
  let* magic := read (DataView.getUint32 buffer 0x00 false) in
  if magic =? WWD_MAGIC then inr tt
  else
    let magicStr := map (fun i => DataView.charCode (DataView.rawAt buffer i)) [0; 1; 2; 3] in
    if negb (DataView.bytes_eqb magicStr ["W"; "O"; "R"; "L"]%byte)
       && negb (DataView.bytes_eqb magicStr ["L"; "E"; "V"; "L"]%byte)
    then inl InvalidMagic
    else inr tt.

(** [parse(buffer)]. *)
Definition parse (buffer : list byte) : result WwdLevel :=
  let u32 off := read (DataView.getUint32 buffer off true) in
  let i32 off := read (DataView.getInt32 buffer off true) in
  let readStr off len := readString buffer off len in
  let* _ := checkMagic buffer in
  let* v_version := u32 0x04 in
  let* v_flags := u32 0x08 in
  let* v_startX := i32 0x2D0 in
  let* v_startY := i32 0x2D4 in
  let hd :=
    mkHeader v_version v_flags
      (readStr 0x10 64%nat) (readStr 0x50 64%nat) (readStr 0x90 64%nat)
      (readStr 0xD0 256%nat) (readStr 0x1D0 128%nat) (readStr 0x250 128%nat)
      v_startX v_startY (readStr 0x2D8 128%nat)
      [readStr 0x358 128%nat; readStr 0x3D8 128%nat; readStr 0x458 128%nat; readStr 0x4D8 128%nat]
      [readStr 0x558 32%nat; readStr 0x578 32%nat; readStr 0x598 32%nat; readStr 0x5B8 32%nat] in
  let* layerCount := u32 0x5D8 in
  let* numObjects := u32 0x5DC in
  let* layerOffset := u32 0x5E0 in
  let* objectsOffset := u32 0x5E4 in
  let* ls := collect (fun i => parseLayerHeader buffer (layerOffset + i * LAYER_HEADER_SIZE))
                     (upto (Z.min layerCount MAX_LAYERS)) in
  let* os := parseObjects (Z.to_nat numObjects) buffer objectsOffset 0 in
  let* cm := buildCollisionMap (actionLayer ls) in
  inr (mkLevel hd ls os cm).

(** The layer count a buffer's header declares. *)
Definition declaredLayerCount (buffer : list byte) : option Z :=
  DataView.getUint32 buffer 0x5D8 true.

(** What the inner loop writes at a cell: nothing for a negative
    tile, else Solid or Empty. *)
Definition cellWrite (layer : WwdLayer) (col row : Z) : option TileCollisionMap.TileAttribute :=
  let tileId := tiles layer !! Z.to_nat (row * tilesWide layer + col) in
  if isNegative tileId then None
  else Some (if isSolidTile tileId then TileCollisionMap.Solid else TileCollisionMap.Empty).

(** A signed 32-bit value. *)
Definition int32 (v : Z) : Prop := - 2 ^ 31 <= v < 2 ^ 31.

(** What [parseLayerHeader] guarantees of a layer: one signed 32-bit
    tile per cell. *)
Definition layerInvariant (layer : WwdLayer) : Prop :=
  Z.of_nat (length (tiles layer)) = tilesWide layer * tilesHigh layer /\
  Forall int32 (tiles layer).

(** The tile of a layer at a cell. *)
Definition tileAt (layer : WwdLayer) (col row : Z) : option Z :=
  tiles layer !! Z.to_nat (row * tilesWide layer + col).

(** A value has its sign bit (bit 31 of the 32-bit pattern) set. *)
Definition signBitSet (t : Z) : Prop := Z.testbit t 31 = true.

(** Sample buffers.  [le32 v] is the little-endian encoding of a
    32-bit value. *)
Definition le32 (v : Z) : list byte :=
  map (fun k => default x00 (Byte.of_N (Z.to_N ((v mod 2 ^ 32) / 2 ^ (8 * k) mod 256))))
      [0; 1; 2; 3].

(** A header with signature "WORL", [layerCount] layers whose table
    starts right after the header fields, and no objects. *)
Definition sampleHeader (layerCount : Z) : list byte :=
  ["W"; "O"; "R"; "L"]%byte ++ replicate (0x5D8 - 4)%nat x00
  ++ le32 layerCount ++ le32 0 ++ le32 0x5E8 ++ le32 0.

(** One 2 x 2 layer of 64-pixel tiles with the tiles -1, 0, 5, 12. *)
Definition sampleLevel : list byte :=
  sampleHeader 1
  ++ le32 0 ++ replicate 32%nat x00 ++ le32 0 ++ le32 2 ++ le32 2 ++ le32 64 ++ le32 64
  ++ le32 100 ++ le32 100 ++ le32 (0x5E8 + 68)
  ++ le32 (-1) ++ le32 0 ++ le32 5 ++ le32 12.

Definition emptyLevel : WwdLevel :=
  mkLevel (mkHeader 0 0 [] [] [] [] [] [] 0 0 [] [] []) [] []
          (TileCollisionMap.mk [] 0 0 0).

(** The level of a buffer that parses. *)
Definition parsed (buffer : list byte) : WwdLevel :=
  match parse buffer with
  | inr level => level
  | inl _ => emptyLevel
  end.

(** The four signature bytes, when the buffer has them. *)
Definition signature (buffer : list byte) : option (list byte) :=
  match buffer with
  | a :: b :: c :: d :: _ => Some [a; b; c; d]
  | _ => None
  end.

(** The object count and the offset of the object table a buffer's
    header declares. *)
Definition declaredObjectCount (buffer : list byte) : option Z :=
  DataView.getUint32 buffer 0x5DC true.

Definition declaredObjectsOffset (buffer : list byte) : option Z :=
  DataView.getUint32 buffer 0x5E4 true.

(** How many whole object records lie between an offset and the end of
    the buffer. *)
Definition fittingRecords (buffer : list byte) (objectsOffset : Z) : Z :=
  Z.max 0 ((Z.of_nat (length buffer) - objectsOffset) / OBJECT_ENTRY_SIZE).

End WwdLoader.

(** ** Archives: signature, header, directory traversal *)

Module RezLoader.

Definition REZ_VERSION : Z := 1.
Definition DIRECTORY_FLAG : Z := 1.
Definition FILE_FLAG : Z := 0.

(** [RezParseError] is the error the loader throws itself; a read
    outside the buffer is the runtime's RangeError. *)
Inductive Error : Type :=
| RezParseError
| RangeError.

(** How a call ends: it returns, it throws, or it is still running
    after the allowed number of steps. *)
Inductive Outcome (A : Type) : Type :=
| Returns (a : A)
| Throws (e : Error)
| Unfinished.
Arguments Returns {A} a.
Arguments Throws {A} e.
Arguments Unfinished {A}.

Record RezFileEntry : Type := mkFile {
  f_name : list byte;
  f_path : list byte;
  extension : list byte;
  offset : Z;
  size : Z;
  time : Z
}.

(** A directory with its two [Map]s in insertion order. *)
#[warnings="-register-all"]
Inductive RezDirectoryEntry : Type :=
| mkDir (name path : list byte)
        (files : list (list byte * RezFileEntry))
        (directories : list (list byte * RezDirectoryEntry)).

Definition dirPath (d : RezDirectoryEntry) : list byte :=
  match d with mkDir _ p _ _ => p end.

(** [Map.prototype.set]: an existing key keeps its place. *)
Fixpoint mapSet {V : Type} (m : list (list byte * V)) (k : list byte) (v : V)
    : list (list byte * V) :=
  match m with
  | [] => [(k, v)]
  | (k', v') :: rest =>
      if DataView.bytes_eqb k' k then (k, v) :: rest else (k', v') :: mapSet rest k v
  end.

Definition addFile (d : RezDirectoryEntry) (k : list byte) (f : RezFileEntry) : RezDirectoryEntry :=
  match d with mkDir n p fs ds => mkDir n p (mapSet fs k f) ds end.

Definition addDirectory (d : RezDirectoryEntry) (k : list byte) (c : RezDirectoryEntry)
    : RezDirectoryEntry :=
  match d with mkDir n p fs ds => mkDir n p fs (mapSet ds k c) end.

Record RezArchive : Type := mkArchive {
  buffer : list byte;
  fs : RezDirectoryEntry;
  version : Z;
  fileCount : Z;
  versionWarning : bool
}.

(** [readNullString]. *)
Definition readNullString (raw : list byte) (offset : Z) (maxLen : Z) : list byte :=
  WwdLoader.untilNull (take (Z.to_nat maxLen) (drop (Z.to_nat offset) raw)).

(** The three characters the signature test compares. *)
Definition magicStr (raw : list byte) : list byte :=
  map (fun i => DataView.charCode (DataView.rawAt raw i)) [0; 1; 2].

(** The signature test of line 119: is the error thrown? *)
Definition magicRejected (raw : list byte) : bool :=
  negb (DataView.bytes_eqb (magicStr raw) ["R"; "E"; "Z"]%byte)
  && negb (DataView.bytes_eqb (magicStr raw) ["r"; "e"; "z"]%byte).

Section Parse.

(** [String.prototype.toUpperCase] on the strings built from bytes. *)
Variable toUpperCase : list byte -> list byte.

(** [parseDirectory(dir, entryOffset)] with the file counter it
    increments.  [fuel] bounds the loop iterations and nested calls: a
    sibling or child offset may point back into the chain, and then the
    code never returns. *)
Fixpoint parseDirectory (fuel : nat) (buf : list byte) (dir : RezDirectoryEntry)
    (entryOffset : Z) (count : Z) : Outcome (RezDirectoryEntry * Z) :=
  let len := Z.of_nat (length buf) in
  if (entryOffset =? 0) || (len <=? entryOffset) then Returns (dir, count)
  else if len <? entryOffset + 0x14 then Returns (dir, count)
  else
    match fuel with
    | O => Unfinished
    | S fuel' =>
        match DataView.getUint32 buf (entryOffset + 0x00) true,
              DataView.getUint32 buf (entryOffset + 0x04) true,
              DataView.getUint32 buf (entryOffset + 0x08) true,
              DataView.getUint32 buf (entryOffset + 0x0C) true,
              DataView.rawAt buf (entryOffset + 0x10),
              DataView.rawAt buf (entryOffset + 0x11),
              DataView.rawAt buf (entryOffset + 0x12) with
        | Some nextOffset, Some dataOffset, Some dataSize, Some timestamp,
          Some fl, Some nl, Some el =>
            let nameLen := DataView.u8 nl in
            let extLen := DataView.u8 el in
            let nameStart := entryOffset + 0x14 in
            let name := readNullString buf nameStart nameLen in
            let ext :=
              if 0 <? extLen then readNullString buf (nameStart + nameLen) extLen else [] in
            let childPath :=
              if DataView.bytes_eqb (dirPath dir) ["/"]%byte
              then "/"%byte :: name
              else dirPath dir ++ "/"%byte :: name in
            if DataView.u8 fl =? DIRECTORY_FLAG then
              let childDir := mkDir name childPath [] [] in
              let child :=
                if dataOffset =? 0 then Returns (childDir, count)
                else parseDirectory fuel' buf childDir dataOffset count in
              match child with
              | Returns (childDir', count') =>
                  parseDirectory fuel' buf (addDirectory dir (toUpperCase name) childDir')
                                 nextOffset count'
              | Throws e => Throws e
              | Unfinished => Unfinished
              end
            else
              let fileEntry :=
                mkFile name childPath (toUpperCase ext) dataOffset dataSize timestamp in
              parseDirectory fuel' buf (addFile dir (toUpperCase name) fileEntry)
                             nextOffset (count + 1)
        | _, _, _, _, _, _, _ => Throws RangeError
        end
    end.

(** [parse(buffer)]. *)
Definition parse (fuel : nat) (buf : list byte) : Outcome RezArchive :=
  match DataView.getUint32 buf 0 false with
  | None => Throws RangeError
  | Some _ =>
      if magicRejected buf then Throws RezParseError
      else
        match DataView.getUint32 buf 0x04 true, DataView.getUint32 buf 0x08 true with
        | Some v, Some rootOffset =>
            let root := mkDir [] ["/"]%byte [] [] in
            match parseDirectory fuel buf root rootOffset 0 with
            | Returns (root', n) => Returns (mkArchive buf root' v n (negb (v =? REZ_VERSION)))
            | Throws e => Throws e
            | Unfinished => Unfinished
            end
        | _, _ => Throws RangeError
        end
  end.

End Parse.

(** Upper-casing of the ASCII letters, the case of every name the
    format stores. *)
Definition asciiUpper (s : list byte) : list byte :=
  map (fun b => let n := Byte.to_N b in
                if (97 <=? n)%N && (n <=? 122)%N
                then default b (Byte.of_N (n - 32)) else b) s.

(** A byte is one of the two case forms of a letter given in upper
    case. *)
Definition isLetterAnyCase (upper b : byte) : bool :=
  Byte.eqb b upper || (Byte.to_N b =? Byte.to_N upper + 32)%N.

(** The first three bytes spell "REZ" when case is ignored. *)
Definition spellsRezAnyCase (raw : list byte) : bool :=
  match raw with
  | a :: b :: c :: _ =>
      isLetterAnyCase "R"%byte a && isLetterAnyCase "E"%byte b && isLetterAnyCase "Z"%byte c
  | _ => false
  end.

(** *** The archive object: path resolution, reading, listing *)

Definition dirName (d : RezDirectoryEntry) : list byte :=
  match d with mkDir n _ _ _ => n end.

Definition dirFiles (d : RezDirectoryEntry) : list (list byte * RezFileEntry) :=
  match d with mkDir _ _ fs _ => fs end.

Definition dirDirectories (d : RezDirectoryEntry) : list (list byte * RezDirectoryEntry) :=
  match d with mkDir _ _ _ ds => ds end.

(** [Map.prototype.get]. *)
Fixpoint mapGet {V : Type} (m : list (list byte * V)) (k : list byte) : option V :=
  match m with
  | [] => None
  | (k', v) :: rest => if DataView.bytes_eqb k' k then Some v else mapGet rest k
  end.

(** [path.replace(/\\/g, '/')]: every backslash (byte 0x5c) becomes a
    slash. *)
Definition slashes (path : list byte) : list byte :=
  map (fun b => if Byte.eqb b x5c then "/"%byte else b) path.

(** [String.prototype.split] on a one-character separator. *)
Fixpoint split (sep : byte) (s : list byte) : list (list byte) :=
  match s with
  | [] => [[]]
  | b :: rest =>
      if Byte.eqb b sep then [] :: split sep rest
      else
        match split sep rest with
        | part :: parts => (b :: part) :: parts
        | [] => [[b]]
        end
  end.

(** [normalizePath]. *)
Definition normalizePath (path : list byte) : list (list byte) :=
  List.filter (fun p => (0 <? length p)%nat) (split "/"%byte (slashes path)).

(** What [readFile] throws: the loader's [RezFileNotFoundError], or the
    RangeError of a typed-array view that leaves the buffer. *)
Inductive ReadError : Type :=
| FileNotFound
| ViewOutOfRange.

(** [collectFiles]: the files of a directory, then those of its
    sub-directories, in insertion order. *)
Fixpoint collectFiles (d : RezDirectoryEntry) : list RezFileEntry :=
  match d with
  | mkDir _ _ fs ds =>
      map snd fs ++
      (fix each (l : list (list byte * RezDirectoryEntry)) : list RezFileEntry :=
         match l with
         | [] => []
         | (_, c) :: rest => collectFiles c ++ each rest
         end) ds
  end.

Section Archive.

Variable toUpperCase : list byte -> list byte.

(** [walkDir]. *)
Fixpoint walkDir (root : RezDirectoryEntry) (parts : list (list byte))
    : option RezDirectoryEntry :=
  match parts with
  | [] => Some root
  | part :: rest =>
      match mapGet (dirDirectories root) (toUpperCase part) with
      | None => None
      | Some child => walkDir child rest
      end
  end.

(** [resolveFile]. *)
Definition resolveFile (a : RezArchive) (path : list byte) : option RezFileEntry :=
  let parts := normalizePath path in
  match parts with
  | [] => None
  | _ :: _ =>
      let fileName := toUpperCase (List.last parts []) in
      let dirParts := removelast parts in
      match walkDir (fs a) dirParts with
      | None => None
      | Some dir => mapGet (dirFiles dir) fileName
      end
  end.

(** [resolveDir]. *)
Definition resolveDir (a : RezArchive) (path : list byte) : option RezDirectoryEntry :=
  walkDir (fs a) (normalizePath path).

(** [readFile]: [new Uint8Array(buffer, offset, size)] is a RangeError
    when the view leaves the buffer. *)
Definition readFile (a : RezArchive) (path : list byte) : ReadError + list byte :=
  match resolveFile a path with
  | None => inl FileNotFound
  | Some entry =>
      if (offset entry <? 0) || (size entry <? 0)
         || (Z.of_nat (length (buffer a)) <? offset entry + size entry)
      then inl ViewOutOfRange
      else inr (DataView.slice (buffer a) (Z.to_nat (offset entry))
                               (Z.to_nat (offset entry + size entry)))
  end.

(** [exists]. *)
Definition exists_ (a : RezArchive) (path : list byte) : bool :=
  match resolveFile a path with
  | Some _ => true
  | None => false
  end.

(** [listDir]. *)
Definition listDir (a : RezArchive) (dirPath : list byte) : list RezFileEntry :=
  match resolveDir a dirPath with
  | None => []
  | Some dir => collectFiles dir
  end.

End Archive.

(** A path component: not empty, and free of both separators. *)
Definition component (s : list byte) : Prop :=
  s <> [] /\ ~ In "/"%byte s /\ ~ In x5c s.

(** The path the parser gives an entry called [name] in a directory
    whose path is [parent] (lines 182-184). *)
Definition childPathOf (parent name : list byte) : list byte :=
  if DataView.bytes_eqb parent ["/"]%byte then "/"%byte :: name
  else parent ++ "/"%byte :: name.

(** A file of a directory tree, with the names that lead to it: the
    names of the directories entered, then the file's name. *)
Inductive fileAt : RezDirectoryEntry -> list (list byte) -> RezFileEntry -> Prop :=
| fileHere (d : RezDirectoryEntry) (k : list byte) (f : RezFileEntry) :
    In (k, f) (dirFiles d) -> fileAt d [f_name f] f
| fileBelow (d : RezDirectoryEntry) (k : list byte) (c : RezDirectoryEntry)
            (names : list (list byte)) (f : RezFileEntry) :
    In (k, c) (dirDirectories d) -> fileAt c names f -> fileAt d (dirName c :: names) f.

(** An archive of 32 bytes whose only entry, a file at offset 12, names
    itself as its next sibling. *)
Definition selfLinked : list byte :=
  ["R"; "E"; "Z"; x00; x01; x00; x00; x00; x0c; x00; x00; x00]%byte
  ++ [x0c; x00; x00; x00]%byte ++ replicate 16%nat x00.

(** The path of an entry reached from a directory whose path is
    [parent] through [names]. *)
Fixpoint joinUnder (parent : list byte) (names : list (list byte)) : list byte :=
  match names with
  | [] => parent
  | name :: rest => joinUnder (childPathOf parent name) rest
  end.

Definition distinctKeys {V : Type} (m : list (list byte * V)) : Prop :=
  NoDup (map fst m).

Section Keys.

Variable toUpperCase : list byte -> list byte.

(** What the parser keeps true of a file stored under a key in a
    directory whose path is [parent]. *)
Definition fileKeyed (parent : list byte) (kf : list byte * RezFileEntry) : Prop :=
  fst kf = toUpperCase (f_name (snd kf)) /\
  f_path (snd kf) = childPathOf parent (f_name (snd kf)) /\
  0 <= offset (snd kf) /\ 0 <= size (snd kf).

(** What the parser keeps true of a directory tree: each map has one
    entry per key, the key is the upper-cased name, and the path of an
    entry is its directory's path extended by its name. *)
#[warnings="-register-all"]
Inductive wellKeyed : RezDirectoryEntry -> Prop :=
| wellKeyed_dir (n p : list byte) (fs : list (list byte * RezFileEntry))
                (ds : list (list byte * RezDirectoryEntry)) :
    distinctKeys fs -> Forall (fileKeyed p) fs -> distinctKeys ds ->
    Forall (fun kc => fst kc = toUpperCase (dirName (snd kc)) /\
                      dirPath (snd kc) = childPathOf p (dirName (snd kc)) /\
                      wellKeyed (snd kc)) ds ->
    wellKeyed (mkDir n p fs ds).

Definition dirKeyed (parent : list byte) (kc : list byte * RezDirectoryEntry) : Prop :=
  fst kc = toUpperCase (dirName (snd kc)) /\
  dirPath (snd kc) = childPathOf parent (dirName (snd kc)) /\
  wellKeyed (snd kc).

End Keys.

(** An archive of 56 bytes with two file entries in the root, named
    "A" and "a". *)
Definition twoSameNames : list byte :=
  ["R"; "E"; "Z"; x00; x01; x00; x00; x00; x0c; x00; x00; x00]%byte
  ++ [x22; x00; x00; x00; x04; x00; x00; x00; x04; x00; x00; x00; x00; x00; x00; x00;
      x00; x02; x00; x00; "A"; x00]%byte
  ++ [x00; x00; x00; x00; x00; x00; x00; x00; x03; x00; x00; x00; x00; x00; x00; x00;
      x00; x02; x00; x00; "a"; x00]%byte.

(** The archive of a buffer that parses within the given number of
    steps. *)
Definition parsedArchive (fuel : nat) (buf : list byte) : RezArchive :=
  match parse asciiUpper fuel buf with
  | Returns a => a
  | _ => mkArchive [] (mkDir [] [] [] []) 0 0 false
  end.

(** The file its listing holds. *)
Definition sampleEntry : RezFileEntry :=
  mkFile ["a"]%byte ["/"; "a"]%byte [] 0 3 0.



End RezLoader.

(** ** Publish/subscribe *)

Module EventBus.

(** A handler is a function object, and the bus compares handlers by
    identity.  [Plain fn] is a function the caller passed to [on];
    [Once wrapper home fn] is the function [once] builds around the
    caller's [fn]: each call of [once] builds a new one, numbered
    [wrapper], which calls [fn] and then removes itself from the set
    [home] it was added to. *)
Inductive Handler : Type :=
| Plain (fn : nat)
| Once (wrapper home fn : nat).

Definition sameHandler (a b : Handler) : bool :=
  match a, b with
  | Plain f, Plain g => Nat.eqb f g
  | Once w _ _, Once v _ _ => Nat.eqb w v
  | _, _ => false
  end.

(** [Set.prototype.add] and [Set.prototype.delete], in insertion
    order. *)
Definition setAdd (h : Handler) (s : list Handler) : list Handler :=
  if existsb (sameHandler h) s then s else s ++ [h].

Definition setDelete (h : Handler) (s : list Handler) : list Handler :=
  List.filter (fun x => negb (sameHandler h x)) s.

(** The bus: the [Set] objects ever created, by address; the map
    [listeners] from event names to addresses; and the number of
    wrappers built so far.  A set that [off] or [clear] removed from
    the map stays reachable from the unsubscribe functions that captured
    it. *)
Record t : Type := mk {
  heap : list (list Handler);
  listeners : list (list byte * nat);
  wrappers : nat
}.

Definition create : t := mk [] [] 0.

(** The function [on] returns: it deletes the handler from the set it
    captured. *)
Record Unsubscribe : Type := mkUnsubscribe { target : nat; subscribed : Handler }.

(** [Map.prototype.delete]: no entry with the key is left. *)
Fixpoint mapDelete {V : Type} (m : list (list byte * V)) (k : list byte)
    : list (list byte * V) :=
  match m with
  | [] => []
  | (k', v) :: rest =>
      if DataView.bytes_eqb k' k then mapDelete rest k else (k', v) :: mapDelete rest k
  end.

(** [on(event, handler)]. *)
Definition on (b : t) (event : list byte) (h : Handler) : t * Unsubscribe :=
  match RezLoader.mapGet (listeners b) event with
  | Some a =>
      (mk (alter (setAdd h) a (heap b)) (listeners b) (wrappers b), mkUnsubscribe a h)
  | None =>
      let a := length (heap b) in
      (mk (heap b ++ [setAdd h []]) (RezLoader.mapSet (listeners b) event a) (wrappers b),
       mkUnsubscribe a h)
  end.

(** Calling the function [on] returned. *)
Definition unsubscribe (b : t) (u : Unsubscribe) : t :=
  mk (alter (setDelete (subscribed u)) (target u) (heap b)) (listeners b) (wrappers b).

(** [once(event, handler)]. *)
Definition once (b : t) (event : list byte) (fn : nat) : t :=
  let home :=
    match RezLoader.mapGet (listeners b) event with
    | Some a => a
    | None => length (heap b)
    end in
  fst (on (mk (heap b) (listeners b) (S (wrappers b))) event (Once (wrappers b) home fn)).

(** A call of one handler by [emit]: the caller's function is called
    with the payload; a wrapper then unsubscribes itself.  The
    functions the callers passed are taken not to call the bus
    themselves and not to throw. *)
Definition invoke {P : Type} (payload : P) (st : t * list (nat * P)) (h : Handler)
    : t * list (nat * P) :=
  match h with
  | Plain fn => (fst st, snd st ++ [(fn, payload)])
  | Once _ home fn =>
      (unsubscribe (fst st) (mkUnsubscribe home h), snd st ++ [(fn, payload)])
  end.

(** [emit(event, payload)], with the calls it makes.  The only change
    of the set during the iteration is a wrapper deleting itself, which
    leaves the handlers still to be visited in place. *)
Definition emit {P : Type} (b : t) (event : list byte) (payload : P) : t * list (nat * P) :=
  match RezLoader.mapGet (listeners b) event with
  | None => (b, [])
  | Some a => fold_left (invoke payload) (default [] (heap b !! a)) (b, [])
  end.

(** [off(event)] and [clear()]. *)
Definition off (b : t) (event : list byte) : t :=
  mk (heap b) (mapDelete (listeners b) event) (wrappers b).

Definition clear (b : t) : t := mk (heap b) [] (wrappers b).

(** The handlers an [emit] of the event would visit. *)
Definition subscribers (b : t) (event : list byte) : list Handler :=
  match RezLoader.mapGet (listeners b) event with
  | Some a => default [] (heap b !! a)
  | None => []
  end.

Definition isPlain (h : Handler) : bool :=
  match h with
  | Plain _ => true
  | Once _ _ _ => false
  end.

Definition calledFunction (h : Handler) : nat :=
  match h with
  | Plain fn => fn
  | Once _ _ fn => fn
  end.

(** What the operations keep true of a bus: the map holds addresses of
    sets that exist, and a wrapper sits only in its home set and was
    built by this bus. *)
Definition wellFormed (b : t) : Prop :=
  (forall (e : list byte) (a : nat),
     RezLoader.mapGet (listeners b) e = Some a -> (a < length (heap b))%nat) /\
  (forall (a : nat) (s : list Handler) (w home fn : nat),
     heap b !! a = Some s -> In (Once w home fn) s ->
     home = a /\ (w < wrappers b)%nat).

End EventBus.

(** * Properties *)

(** ** Numbers *)

Section NumberFacts.
Import Number.
Open Scope Q_scope.

Lemma pow2_pos (e : Z) : 0 < pow2 e.
Proof. unfold pow2. apply Qpower_0_lt. reflexivity. Qed.

Lemma pow2_add (a b : Z) : pow2 (a + b) == pow2 a * pow2 b.
Proof. unfold pow2. apply Qpower_plus. discriminate. Qed.

Lemma pow2_le (a b : Z) : (a <= b)%Z -> pow2 a <= pow2 b.
Proof. intros H. unfold pow2. apply Qpower_le_compat_l; [exact H | discriminate]. Qed.

Lemma pow2_lt (a b : Z) : (a < b)%Z -> pow2 a < pow2 b.
Proof. intros H. unfold pow2. apply Qpower_lt_compat_l; [exact H | reflexivity]. Qed.

Lemma pow2_lt_inv (a b : Z) : pow2 a < pow2 b -> (a < b)%Z.
Proof. intros H. unfold pow2 in H. apply Qpower_lt_compat_l_inv in H; [exact H | reflexivity]. Qed.

Lemma pow2_Z (e : Z) : (0 <= e)%Z -> pow2 e == inject_Z (2 ^ e).
Proof. intros H. unfold pow2. rewrite Zpower_Qpower by exact H. reflexivity. Qed.


Lemma pow2_sub (a b : Z) : pow2 (a - b) == pow2 a / pow2 b.
Proof. unfold pow2. apply Qpower_minus. discriminate. Qed.

(** A quotient of powers of two times an integer is an integer when the
    exponent does not decrease. *)
Lemma pow2_ratio (k e : Z) : (e <= k)%Z -> pow2 k / pow2 e == inject_Z (2 ^ (k - e)).
Proof.
  intros H. rewrite <- pow2_sub. apply pow2_Z. lia.
Qed.

Lemma Qabs_Qnum (q : Q) : Qabs q == inject_Z (Z.abs (Qnum q)) / inject_Z (Z.pos (Qden q)).
Proof.
  destruct q as [n d]. unfold Qabs. simpl Qnum. simpl Qden.
  unfold Qeq, Qdiv, Qmult, Qinv, inject_Z. simpl. lia.
Qed.

Lemma log2_bounds (n : Z) :
  (0 < n)%Z -> inject_Z (2 ^ Z.log2 n) <= inject_Z n /\ inject_Z n < inject_Z (2 ^ (Z.log2 n + 1)).
Proof.
  intros H. destruct (Z.log2_spec n H) as [H1 H2]. unfold Z.succ in H2.
  split; [rewrite <- Zle_Qle; exact H1 | rewrite <- Zlt_Qlt; exact H2].
Qed.

Lemma magnitude_spec (q : Q) :
  ~ q == 0 -> pow2 (magnitude q) <= Qabs q /\ Qabs q < pow2 (magnitude q + 1).
Proof.
  intros Hq. unfold magnitude.
  set (a := Z.abs (Qnum q)). set (b := Z.pos (Qden q)).
  assert (0 < a)%Z as Ha.
  { subst a. destruct q as [n d]. simpl. destruct n; [|lia|lia].
    exfalso. apply Hq. reflexivity. }
  assert (0 < b)%Z as Hb by (subst b; lia).
  destruct (log2_bounds a Ha) as [A1 A2]. destruct (log2_bounds b Hb) as [B1 B2].
  pose proof (Z.log2_nonneg a) as La. pose proof (Z.log2_nonneg b) as Lb.
  rewrite <- !pow2_Z in A1, A2, B1, B2 by lia.
  set (la := Z.log2 a) in *. set (lb := Z.log2 b) in *.
  assert (Qabs q == inject_Z a / inject_Z b) as E by apply Qabs_Qnum.
  assert (0 < inject_Z b) as Hb' by (change 0 with (inject_Z 0); rewrite <- Zlt_Qlt; exact Hb).
  assert (pow2 (la - lb - 1) < Qabs q) as L.
  { rewrite E. apply Qlt_shift_div_l; [exact Hb'|].
    assert (pow2 (la - lb - 1) * pow2 (lb + 1) == pow2 la) as P
      by (rewrite <- pow2_add; replace (la - lb - 1 + (lb + 1))%Z with la by lia; reflexivity).
    pose proof (pow2_pos (la - lb - 1)) as Hp.
    apply Qlt_le_trans with (pow2 (la - lb - 1) * pow2 (lb + 1)).
    - apply Qmult_lt_l; assumption.
    - rewrite P. exact A1. }
  assert (Qabs q < pow2 (la - lb + 1)) as U.
  { rewrite E. apply Qlt_shift_div_r; [exact Hb'|].
    assert (pow2 (la - lb + 1) * pow2 lb == pow2 (la + 1)) as P
      by (rewrite <- pow2_add; replace (la - lb + 1 + lb)%Z with (la + 1)%Z by lia; reflexivity).
    pose proof (pow2_pos (la - lb + 1)) as Hp.
    apply Qlt_le_trans with (pow2 (la - lb + 1) * pow2 lb).
    - rewrite P. exact A2.
    - apply Qmult_le_l; assumption. }
  destruct (Qle_bool (pow2 (la - lb)) (Qabs q)) eqn:C.
  - apply Qle_bool_iff in C. split; [exact C | exact U].
  - assert (~ pow2 (la - lb) <= Qabs q) as N by (rewrite <- Qle_bool_iff; congruence).
    split.
    + apply Qlt_le_weak. exact L.
    + replace (la - lb - 1 + 1)%Z with (la - lb)%Z by lia. apply Qnot_le_lt. exact N.
Qed.

End NumberFacts.

Section RoundingFacts.
Import Number.
Open Scope Q_scope.

Lemma nearestEven_comp (x y : Q) : x == y -> nearestEven x = nearestEven y.
Proof.
  intros E. unfold nearestEven. rewrite (Qfloor_comp _ _ E).
  assert (x - inject_Z (Qfloor y) == y - inject_Z (Qfloor y)) as E' by (rewrite E; reflexivity).
  rewrite (Qcompare_comp _ _ E' (1 # 2) (1 # 2) (Qeq_refl _)). reflexivity.
Qed.

Lemma nearestEven_Z (z : Z) : nearestEven (inject_Z z) = z.
Proof.
  unfold nearestEven. rewrite Qfloor_Z.
  assert (Qcompare (inject_Z z - inject_Z z) (1 # 2) = Lt) as ->; [|reflexivity].
  rewrite <- Qlt_alt. lra.
Qed.

Lemma nearestEven_cases (x : Q) :
  nearestEven x = Qfloor x \/
  (nearestEven x = (Qfloor x + 1)%Z /\ (1 # 2) <= x - inject_Z (Qfloor x)).
Proof.
  unfold nearestEven. destruct (Qcompare (x - inject_Z (Qfloor x)) (1 # 2)) eqn:C.
  - apply Qeq_alt in C. destruct (Z.even (Qfloor x)); [left; reflexivity|].
    right. split; [reflexivity | lra].
  - left. reflexivity.
  - apply Qgt_alt in C. right. split; [reflexivity | lra].
Qed.


Lemma nearestEven_ge (x : Q) (n : Z) : inject_Z n <= x -> (n <= nearestEven x)%Z.
Proof.
  intros H.
  assert (n <= Qfloor x)%Z as Fn.
  { rewrite <- (Qfloor_Z n). apply Qfloor_resp_le. exact H. }
  destruct (nearestEven_cases x) as [-> | [-> _]]; lia.
Qed.

Lemma Qred_idempotent (q : Q) : Qred (Qred q) = Qred q.
Proof. apply Qred_complete, Qred_correct. Qed.

Lemma round_comp (fmt : Format) (p q : Q) : p == q -> round fmt p = round fmt q.
Proof. intros E. unfold round. rewrite (Qred_complete _ _ E). reflexivity. Qed.


Lemma Qeq_bool_false (p q : Q) : ~ p == q -> Qeq_bool p q = false.
Proof.
  intros N. destruct (Qeq_bool p q) eqn:E; [|reflexivity].
  apply Qeq_bool_iff in E. contradiction.
Qed.

Lemma Qle_bool_false (p q : Q) : q < p -> Qle_bool p q = false.
Proof.
  intros N. destruct (Qle_bool p q) eqn:E; [|reflexivity].
  apply Qle_bool_iff in E. lra.
Qed.

Lemma negativeQ_false (q : Q) : 0 <= q -> negativeQ q = false.
Proof. intros H. unfold negativeQ. apply Qle_bool_iff in H. rewrite H. reflexivity. Qed.

Lemma negativeQ_true (q : Q) : q < 0 -> negativeQ q = true.
Proof. intros H. unfold negativeQ. rewrite Qle_bool_false by exact H. reflexivity. Qed.

(** The quantum at a multiple of [2 ^ k] with fewer than [precision]
    bits is at most [k]. *)
Lemma quantum_le (fmt : Format) (q : Q) (k : Z) :
  ~ q == 0 -> Qabs q < pow2 (precision fmt + k) -> (emin fmt <= k)%Z ->
  (quantum fmt q <= k)%Z.
Proof.
  intros Hq Hb Hk. unfold quantum.
  destruct (magnitude_spec q Hq) as [M _].
  assert (magnitude q < precision fmt + k)%Z.
  { apply pow2_lt_inv. lra. }
  lia.
Qed.

Lemma Qabs_mult_pow2 (m k : Z) :
  Qabs (inject_Z m * pow2 k) == inject_Z (Z.abs m) * pow2 k.
Proof.
  rewrite Qabs_Qmult. rewrite (Qabs_pos (pow2 k)) by (apply Qlt_le_weak, pow2_pos).
  assert (Qabs (inject_Z m) == inject_Z (Z.abs m)) as ->; [|reflexivity].
  unfold Qabs, inject_Z. simpl. reflexivity.
Qed.

(** A multiple of [2 ^ k] with fewer than [precision] bits is below
    [2 ^ (precision + k)]. *)
Lemma multiple_bound (fmt : Format) (m k : Z) :
  (Z.abs m < 2 ^ precision fmt)%Z -> (0 <= precision fmt)%Z ->
  Qabs (inject_Z m * pow2 k) < pow2 (precision fmt + k).
Proof.
  intros Hm Hp. rewrite Qabs_mult_pow2, pow2_add, (pow2_Z (precision fmt)) by exact Hp.
  apply Qmult_lt_compat_r; [apply pow2_pos|]. rewrite <- Zlt_Qlt. exact Hm.
Qed.

(** On a multiple of the quantum the nearest multiple is the number
    itself. *)
Lemma nearest_exact (fmt : Format) (q : Q) (m k : Z) :
  q == inject_Z m * pow2 k -> (quantum fmt q <= k)%Z -> nearest fmt q == q.
Proof.
  intros E Hk. unfold nearest. set (e := quantum fmt q) in *.
  assert (q / pow2 e == inject_Z (m * 2 ^ (k - e))) as Ei.
  { rewrite inject_Z_mult, <- pow2_ratio by exact Hk. rewrite E.
    field. pose proof (pow2_pos e). lra. }
  rewrite (nearestEven_comp _ _ Ei), nearestEven_Z, <- Ei.
  field. pose proof (pow2_pos e). lra.
Qed.

(** The exactness of rounding: a representable number rounds to itself. *)
Lemma round_exact (fmt : Format) (q : Q) :
  (0 <= precision fmt)%Z -> representable fmt q -> round fmt q = Finite (Qred q).
Proof.
  intros Hp (m & k & E & Hm & Hk & Hmax). unfold round.
  destruct (Qeq_bool (Qred q) 0) eqn:Z0.
  - apply Qeq_bool_iff in Z0. pose proof (Qred_complete _ _ Z0) as H.
    rewrite Qred_idempotent in H. rewrite H. reflexivity.
  - assert (~ Qred q == 0) as Hq by (rewrite <- Qeq_bool_iff; congruence).
    assert (Qred q == inject_Z m * pow2 k) as E' by (rewrite Qred_correct; exact E).
    assert (nearest fmt (Qred q) == Qred q) as N.
    { apply (nearest_exact fmt (Qred q) m k E').
      apply quantum_le; [exact Hq | | exact Hk].
      rewrite E'. apply multiple_bound; assumption. }
    rewrite (Qred_complete _ _ N), Qred_idempotent, Z0.
    rewrite Qle_bool_false; [reflexivity|].
    rewrite Qred_correct. exact Hmax.
Qed.


(** Rounding keeps the sign: a number that is not negative does not
    round to a negative one. *)
Lemma round_nonneg (fmt : Format) (q : Q) :
  0 <= q ->
  round fmt q = Infinity false \/ exists a, round fmt q = Finite a /\ 0 <= a.
Proof.
  intros Hq. unfold round.
  assert (Qred q == q) as Rq by apply Qred_correct.
  set (q' := Qred q) in *.
  destruct (Qeq_bool q' 0) eqn:Z0.
  - right. exists 0. split; [reflexivity | lra].
  - rewrite negativeQ_false by lra.
    assert (0 <= nearest fmt q') as L.
    { unfold nearest. pose proof (pow2_pos (quantum fmt q')) as Pe.
      apply Qmult_le_0_compat; [|lra].
      change 0 with (inject_Z 0). rewrite <- Zle_Qle. apply nearestEven_ge.
      apply Qle_shift_div_l; [exact Pe|]. change (inject_Z 0) with 0. lra. }
    assert (Qred (nearest fmt q') == nearest fmt q') as Rn by apply Qred_correct.
    destruct (Qeq_bool (Qred (nearest fmt q')) 0).
    + right. exists 0. split; [reflexivity | lra].
    + destruct (Qle_bool _ _); [left; reflexivity|].
      right. eexists. split; [reflexivity|]. lra.
Qed.

End RoundingFacts.

Section ExactArithmetic.
Import Number.
Open Scope Q_scope.

Lemma Qeq_representable (p q : Q) :
  p == q -> (representable binary64 p <-> representable binary64 q).
Proof.
  intros E. split; intros (m & k & H & Hm & Hk & Hb); exists m, k.
  - rewrite <- E. auto.
  - rewrite E. auto.
Qed.

Lemma multiple_comp (k : Z) (p q : Q) : p == q -> multiple k p -> multiple k q.
Proof. intros E [m H]. exists m. rewrite <- E. exact H. Qed.

Lemma multiple_add (k : Z) (p q : Q) : multiple k p -> multiple k q -> multiple k (p + q).
Proof.
  intros [m H] [n H']. exists (m + n)%Z. rewrite inject_Z_plus, H, H'. ring.
Qed.

Lemma multiple_opp (k : Z) (p : Q) : multiple k p -> multiple k (- p).
Proof. intros [m H]. exists (- m)%Z. rewrite inject_Z_opp, H. ring. Qed.

Lemma multiple_sub (k : Z) (p q : Q) : multiple k p -> multiple k q -> multiple k (p - q).
Proof. intros Hp Hq. apply multiple_add; [exact Hp | apply multiple_opp; exact Hq]. Qed.


Lemma multiple_weaken (k k' : Z) (p : Q) : (k' <= k)%Z -> multiple k p -> multiple k' p.
Proof.
  intros Hk [m H]. exists (m * 2 ^ (k - k'))%Z.
  rewrite inject_Z_mult, <- pow2_Z by lia. rewrite H.
  rewrite <- Qmult_assoc, <- pow2_add. replace (k - k' + k')%Z with k by lia. reflexivity.
Qed.

Lemma multiple_Z (k : Z) (n : Z) : (k <= 0)%Z -> multiple k (inject_Z n).
Proof.
  intros Hk. apply (multiple_weaken 0 k); [exact Hk|].
  exists n. change (pow2 0) with 1. ring.
Qed.

(** A multiple of [2 ^ k] below [2 ^ (53 + k)] is a double. *)
Lemma multiple_representable (k : Z) (q : Q) :
  multiple k q -> Qabs q < pow2 (53 + k) -> (-1074 <= k)%Z -> (53 + k <= 1024)%Z ->
  representable binary64 q.
Proof.
  intros [m E] Hb Hk Hk'. exists m, k. split; [exact E|]. split; [|split].
  - change (precision binary64) with 53%Z.
    rewrite E, Qabs_mult_pow2, pow2_add, (pow2_Z 53) in Hb by lia.
    pose proof (pow2_pos k) as P.
    rewrite Zlt_Qlt. 
    apply Qmult_lt_r with (pow2 k); [exact P | exact Hb].
  - exact Hk.
  - apply Qlt_le_trans with (pow2 (53 + k)); [exact Hb|]. apply pow2_le. exact Hk'.
Qed.

(** What a number denotes: a finite number and its rational value. *)
Lemma round64_exact (q : Q) : representable binary64 q -> round binary64 q = Finite (Qred q).
Proof. apply round_exact. discriminate. Qed.

Lemma add_exact (a b : Q) :
  representable binary64 (a + b) -> add (Finite a) (Finite b) = Finite (Qred (a + b)).
Proof. intros H. simpl. apply round64_exact. exact H. Qed.

Lemma sub_exact (a b : Q) :
  representable binary64 (a - b) -> sub (Finite a) (Finite b) = Finite (Qred (a - b)).
Proof.
  intros H. unfold sub, opp. destruct (Qeq_bool b 0) eqn:E.
  - apply Qeq_bool_iff in E. simpl.
    rewrite (round_comp binary64 (a + 0) (a - b)) by (rewrite E; ring).
    apply round64_exact. exact H.
  - simpl. apply round64_exact. exact H.
Qed.

Lemma ge_Finite (a b : Q) : ge (Finite a) (Finite b) = true <-> b <= a.
Proof.
  unfold ge, compare, value. destruct (Qcompare a b) eqn:C.
  - apply Qeq_alt in C. split; [intros _; lra | reflexivity].
  - apply Qlt_alt in C. split; [discriminate | intros H; lra].
  - apply Qgt_alt in C. split; [intros _; lra | reflexivity].
Qed.

Lemma ge_Finite_false (a b : Q) : ge (Finite a) (Finite b) = false <-> a < b.
Proof.
  rewrite <- not_true_iff_false, ge_Finite. split; [apply Qnot_le_lt | apply Qlt_not_le].
Qed.

Lemma gt_Finite (a b : Q) : gt (Finite a) (Finite b) = true <-> b < a.
Proof.
  unfold gt, compare, value. destruct (Qcompare a b) eqn:C.
  - apply Qeq_alt in C. split; [discriminate | intros H; lra].
  - apply Qlt_alt in C. split; [discriminate | intros H; lra].
  - apply Qgt_alt in C. split; [intros _; lra | reflexivity].
Qed.


Lemma lt_Finite (a b : Q) : lt (Finite a) (Finite b) = true <-> a < b.
Proof.
  unfold lt, compare, value. destruct (Qcompare a b) eqn:C.
  - apply Qeq_alt in C. split; [discriminate | intros H; lra].
  - apply Qlt_alt in C. split; [intros _; lra | reflexivity].
  - apply Qgt_alt in C. split; [discriminate | intros H; lra].
Qed.

Lemma lt_Finite_false (a b : Q) : lt (Finite a) (Finite b) = false <-> b <= a.
Proof.
  rewrite <- not_true_iff_false, lt_Finite. split; [apply Qnot_lt_le | apply Qle_not_lt].
Qed.



End ExactArithmetic.

Section OperationFacts.
Import Number.
Open Scope Q_scope.

Lemma add_NaN_r (x : t) : add x NaN = NaN.
Proof. destruct x; reflexivity. Qed.

Lemma sub_NaN_r (x : t) : sub x NaN = NaN.
Proof. unfold sub. apply add_NaN_r. Qed.

Lemma mul_exact (a b : Q) :
  0 < b -> representable binary64 (a * b) ->
  mul (Finite a) (Finite b) = Finite (Qred (a * b)).
Proof.
  intros Hb H. unfold mul, isZero.
  rewrite (Qeq_bool_false b 0) by lra. rewrite orb_false_r.
  destruct (Qeq_bool a 0) eqn:E.
  - apply Qeq_bool_iff in E. simpl isNegative.
    rewrite !negativeQ_false by lra. simpl.
    assert (a * b == 0) as Z0 by (rewrite E; ring).
    rewrite (Qred_complete _ _ Z0). reflexivity.
  - simpl value. apply round64_exact. exact H.
Qed.

Lemma div_exact (a b : Q) :
  0 < b -> representable binary64 (a / b) ->
  div (Finite a) (Finite b) = Finite (Qred (a / b)).
Proof.
  intros Hb H. unfold div, isZero.
  rewrite (Qeq_bool_false b 0) by lra.
  destruct (Qeq_bool a 0) eqn:E.
  - apply Qeq_bool_iff in E. simpl isNegative.
    rewrite !negativeQ_false by lra. simpl.
    assert (a / b == 0) as Z0 by (rewrite E; field; lra).
    rewrite (Qred_complete _ _ Z0). reflexivity.
  - simpl value. apply round64_exact. exact H.
Qed.

Lemma multiple_div_pow2 (k j : Z) (q : Q) :
  multiple k q -> multiple (k - j) (q / pow2 j).
Proof.
  intros [m E]. exists m. rewrite E, pow2_sub. field.
  pose proof (pow2_pos j). lra.
Qed.

Lemma sign_positive (x : t) : gt x (Finite 0) = true -> sign x = Finite 1.
Proof.
  destruct x as [|[|]| |q]; try discriminate; try reflexivity.
  intros H. apply gt_Finite in H. unfold sign.
  destruct (Qcompare q 0) eqn:C; [apply Qeq_alt in C; lra | apply Qlt_alt in C; lra | reflexivity].
Qed.

Lemma sign_negative (x : t) : lt x (Finite 0) = true -> sign x = Finite (-1).
Proof.
  destruct x as [|[|]| |q]; try discriminate; try reflexivity.
  intros H. apply lt_Finite in H. unfold sign.
  destruct (Qcompare q 0) eqn:C; [apply Qeq_alt in C; lra | reflexivity | apply Qgt_alt in C; lra].
Qed.

Lemma sign_zero (x : t) : isZero x = true -> isZero (sign x) = true.
Proof.
  destruct x as [|[|]| |q]; try discriminate; try reflexivity.
  simpl. intros H. apply Qeq_bool_iff in H.
  destruct (Qcompare q 0) eqn:C; [reflexivity | apply Qlt_alt in C; lra | apply Qgt_alt in C; lra].
Qed.

End OperationFacts.

Section LatticeFacts.
Import Number.
Open Scope Q_scope.

Lemma ofZ_0 : ofZ 0 = Finite 0.
Proof. vm_compute. reflexivity. Qed.

Lemma ofZ_1 : ofZ 1 = Finite 1.
Proof. vm_compute. reflexivity. Qed.

Lemma ofZ_2 : ofZ 2 = Finite 2.
Proof. vm_compute. reflexivity. Qed.

Lemma ofZ_64 : ofZ 64 = Finite 64.
Proof. vm_compute. reflexivity. Qed.

(** Multiples of [2 ^ -35] below [2 ^ 18] in magnitude are doubles. *)
Lemma within_representable (b q : Q) :
  within (-35) b q -> b < 262144 -> representable binary64 q.
Proof.
  intros (M & L & U) Hb. apply (multiple_representable (-35)); [exact M | | lia | lia].
  assert (pow2 (53 + -35) == 262144) as -> by (vm_compute; reflexivity).
  apply Qabs_Qlt_condition. split; lra.
Qed.

Lemma within_comp (k : Z) (b p q : Q) : p == q -> within k b p -> within k b q.
Proof.
  intros E (M & L & U). split; [apply (multiple_comp k p q E M)|]. rewrite <- E. split; assumption.
Qed.

Lemma within_weaken (k : Z) (b b' q : Q) : b <= b' -> within k b q -> within k b' q.
Proof. intros Hb (M & L & U). split; [exact M|]. split; lra. Qed.

Lemma within_Qred (k : Z) (b q : Q) : within k b q -> within k b (Qred q).
Proof. apply within_comp. symmetry. apply Qred_correct. Qed.

Lemma add_within (b1 b2 p q : Q) :
  within (-35) b1 p -> within (-35) b2 q -> b1 + b2 < 262144 ->
  add (Finite p) (Finite q) = Finite (Qred (p + q)) /\ within (-35) (b1 + b2) (Qred (p + q)).
Proof.
  intros (M1 & L1 & U1) (M2 & L2 & U2) Hb.
  assert (within (-35) (b1 + b2) (p + q)) as W.
  { split; [apply multiple_add; assumption|]. split; lra. }
  split; [|apply within_Qred; exact W].
  apply add_exact. apply (within_representable _ _ W Hb).
Qed.

Lemma sub_within (b1 b2 p q : Q) :
  within (-35) b1 p -> within (-35) b2 q -> b1 + b2 < 262144 ->
  sub (Finite p) (Finite q) = Finite (Qred (p - q)) /\ within (-35) (b1 + b2) (Qred (p - q)).
Proof.
  intros (M1 & L1 & U1) (M2 & L2 & U2) Hb.
  assert (within (-35) (b1 + b2) (p - q)) as W.
  { split; [apply multiple_sub; assumption|]. split; lra. }
  split; [|apply within_Qred; exact W].
  apply sub_exact. apply (within_representable _ _ W Hb).
Qed.

(** An integer as a lattice point. *)
Lemma within_Z (z bound : Z) :
  (- bound <= z <= bound)%Z -> within (-35) (inject_Z bound) (inject_Z z).
Proof.
  intros H. split; [apply multiple_Z; lia|].
  rewrite <- inject_Z_opp, <- !Zle_Qle. lia.
Qed.

(** Halving a size. *)
Lemma half_within (w : Q) :
  within (-34) 65536 w ->
  div (Finite w) (ofZ 2) = Finite (Qred (w / 2)) /\ within (-35) 32768 (Qred (w / 2)).
Proof.
  intros (M & L & U).
  assert (within (-35) 32768 (w / 2)) as W.
  { split.
    - apply (multiple_div_pow2 (-34) 1 w M).
    - unfold Qdiv. change (/ 2) with (1 # 2). split; lra. }
  split; [|apply within_Qred; exact W].
  rewrite ofZ_2. apply div_exact; [reflexivity|].
  apply (within_representable 32768 _ W). reflexivity.
Qed.

(** The tile of an edge coordinate. *)
Lemma tile_within (e : Q) :
  within (-35) 98304 e ->
  floor (div (Finite e) (ofZ 64)) = Finite (inject_Z (Qfloor (e / 64))) /\
  (-1536 <= Qfloor (e / 64) <= 1536)%Z.
Proof.
  intros (M & L & U).
  assert (e / 64 == e * (1 # 64)) as Eq by (unfold Qdiv; reflexivity).
  assert (representable binary64 (e / 64)) as R.
  { apply (multiple_representable (-41)); [| | lia | lia].
    - apply (multiple_div_pow2 (-35) 6 e M).
    - assert (pow2 (53 + -41) == 4096) as -> by (vm_compute; reflexivity).
      apply Qabs_Qlt_condition. rewrite Eq. split; lra. }
  split.
  - rewrite ofZ_64, (div_exact e 64) by (try reflexivity; exact R).
    unfold floor. rewrite (Qfloor_comp _ _ (Qred_correct (e / 64))). reflexivity.
  - split.
    + change (-1536)%Z with (Qfloor (inject_Z (-1536))). apply Qfloor_resp_le.
      rewrite Eq. change (inject_Z (-1536)) with (-1536). lra.
    + change (1536)%Z with (Qfloor (inject_Z 1536)). apply Qfloor_resp_le.
      rewrite Eq. change (inject_Z 1536) with 1536. lra.
Qed.

(** The boundary of a tile. *)
Lemma boundary_within (p : Q) (T : Z) :
  p == inject_Z T -> (-1537 <= T <= 1537)%Z ->
  mul (Finite p) (ofZ 64) = Finite (Qred (p * 64)) /\
  within (-35) 98368 (Qred (p * 64)).
Proof.
  intros Ep H.
  assert (within (-35) 98368 (p * 64)) as W.
  { apply (within_comp (-35) _ (inject_Z (T * 64))).
    - rewrite inject_Z_mult, Ep. reflexivity.
    - apply (within_Z (T * 64) 98368). lia. }
  split; [|apply within_Qred; exact W].
  rewrite ofZ_64. apply mul_exact; [reflexivity|].
  apply (within_representable 98368 _ W). reflexivity.
Qed.

Lemma next_tile (T : Z) :
  (-1536 <= T <= 1536)%Z ->
  add (Finite (inject_Z T)) (ofZ 1) = Finite (Qred (inject_Z T + 1)) /\
  Qred (inject_Z T + 1) == inject_Z (T + 1).
Proof.
  intros H. rewrite ofZ_1.
  destruct (add_within 1536 1 (inject_Z T) 1) as [E _].
  - apply (within_Z T 1536). lia.
  - apply (within_Z 1 1). lia.
  - reflexivity.
  - split; [exact E|]. rewrite Qred_correct, inject_Z_plus. reflexivity.
Qed.

End LatticeFacts.

Section RoundingError.
Import Number.
Open Scope Q_scope.






End RoundingError.

Section SubtractionFacts.
Import Number.
Open Scope Q_scope.







End SubtractionFacts.

(** ** Collision grid: bounds-safe lookup *)

Section GridFacts.
Import TileCollisionMap.

Lemma out_of_bounds_false (m : t) (col row : Z) :
  out_of_bounds m col row = false <-> in_grid m col row.
Proof.
  unfold out_of_bounds, in_grid.
  rewrite !orb_false_iff, !Z.ltb_ge, !Z.leb_gt. lia.
Qed.

Lemma out_of_bounds_true (m : t) (col row : Z) :
  out_of_bounds m col row = true <-> ~ in_grid m col row.
Proof.
  rewrite <- out_of_bounds_false. destruct (out_of_bounds m col row); intuition congruence.
Qed.

Lemma cell_index_lt (m : t) (col row : Z) :
  in_grid m col row -> (cell_index m col row < Z.to_nat (cols m * rows m))%nat.
Proof.
  intros [Hc Hr]. unfold cell_index. apply Z2Nat.inj_lt; nia.
Qed.

Lemma cell_index_inj (m : t) (c1 r1 c2 r2 : Z) :
  in_grid m c1 r1 -> in_grid m c2 r2 ->
  cell_index m c1 r1 = cell_index m c2 r2 -> c1 = c2 /\ r1 = r2.
Proof.
  intros [Hc1 Hr1] [Hc2 Hr2] E. unfold cell_index in E.
  apply Z2Nat.inj in E; [| nia | nia].
  assert (r1 = r2) by nia. subst. lia.
Qed.

Lemma set_shape (m : t) (col row : Z) (a : TileAttribute) :
  cols (set m col row a) = cols m /\ rows (set m col row a) = rows m /\
  tileSize (set m col row a) = tileSize m /\
  length (data (set m col row a)) = length (data m).
Proof.
  unfold set. destruct (out_of_bounds m col row); simpl; auto.
  rewrite length_insert. auto.
Qed.

Lemma set_well_sized (m : t) (col row : Z) (a : TileAttribute) :
  well_sized m -> well_sized (set m col row a).
Proof.
  unfold well_sized. destruct (set_shape m col row a) as (-> & -> & _ & ->). auto.
Qed.

Lemma create_well_sized (c r : Z) (ts : Q) (m : t) :
  create c r ts = Some m -> well_sized m /\ cols m = c /\ rows m = r.
Proof.
  unfold create. destruct (c * r <? 0); [discriminate|].
  intros [= <-]. unfold well_sized. simpl. rewrite length_replicate. auto.
Qed.

Lemma get_create (c r : Z) (ts : Q) (m : t) (col row : Z) :
  create c r ts = Some m -> in_grid m col row -> get m col row = Some 0.
Proof.
  intros Hm Hin. pose proof (cell_index_lt _ _ _ Hin) as Hlt.
  unfold get. apply out_of_bounds_false in Hin as ->.
  revert Hm Hlt. unfold create. destruct (c * r <? 0); [discriminate|].
  intros [= <-]. unfold cell_index. simpl. intros Hlt.
  apply lookup_replicate_2. exact Hlt.
Qed.

(** Reading after one write. *)
Lemma get_set_same (m : t) (col row : Z) (a : TileAttribute) :
  well_sized m -> in_grid m col row ->
  get (set m col row a) col row = Some (attr_code a).
Proof.
  intros Hs Hin. pose proof (cell_index_lt _ _ _ Hin) as Hlt.
  pose proof (proj2 (out_of_bounds_false m col row) Hin) as Hb.
  unfold get, set, out_of_bounds in *. rewrite Hb. simpl. rewrite Hb.
  unfold cell_index. simpl. apply list_lookup_insert_eq.
  unfold cell_index in Hlt. rewrite Hs. exact Hlt.
Qed.

Lemma get_set_other (m : t) (c r : Z) (a : TileAttribute) (col row : Z) :
  (c, r) <> (col, row) ->
  get (set m c r a) col row = get m col row.
Proof.
  intros Hne. unfold set.
  destruct (out_of_bounds m c r) eqn:Hb; [reflexivity|].
  unfold get, out_of_bounds. simpl. fold (out_of_bounds m col row).
  destruct (out_of_bounds m col row) eqn:Hb'; [reflexivity|].
  apply out_of_bounds_false in Hb, Hb'. unfold cell_index at 1 3. simpl.
  fold (cell_index m col row). fold (cell_index m c r).
  apply list_lookup_insert_ne. intros E.
  apply cell_index_inj in E; auto. destruct E; congruence.
Qed.

Lemma in_grid_set (m : t) (c r : Z) (a : TileAttribute) (col row : Z) :
  in_grid (set m c r a) col row <-> in_grid m col row.
Proof.
  unfold in_grid. destruct (set_shape m c r a) as (-> & -> & _). reflexivity.
Qed.

Lemma get_run_sets (ops : list SetOp) (m : t) (col row : Z) (acc : TileAttribute) :
  well_sized m -> in_grid m col row ->
  get m col row = Some (attr_code acc) ->
  get (run_sets m ops) col row = Some (attr_code (last_set ops col row acc)).
Proof.
  revert m acc. induction ops as [|o ops IH]; intros m acc Hs Hin Hget; [exact Hget|].
  cbn [last_set].
  change (run_sets m (o :: ops)) with (run_sets (set m (op_col o) (op_row o) (op_attr o)) ops).
  destruct ((op_col o =? col) && (op_row o =? row)) eqn:E.
  - apply andb_true_iff in E as [->%Z.eqb_eq ->%Z.eqb_eq].
    apply IH; [apply set_well_sized, Hs | apply in_grid_set, Hin | apply get_set_same; auto].
  - apply IH; [apply set_well_sized, Hs | apply in_grid_set, Hin |].
    rewrite get_set_other; [exact Hget|].
    intros [= E1 E2]. rewrite E1, E2, !Z.eqb_refl in E. discriminate.
Qed.

Lemma run_sets_shape (ops : list SetOp) (m : t) :
  cols (run_sets m ops) = cols m /\ rows (run_sets m ops) = rows m.
Proof.
  revert m. induction ops as [|o ops IH]; intros m; [simpl; auto|].
  change (run_sets m (o :: ops)) with (run_sets (set m (op_col o) (op_row o) (op_attr o)) ops).
  destruct (IH (set m (op_col o) (op_row o) (op_attr o))) as [-> ->].
  destruct (set_shape m (op_col o) (op_row o) (op_attr o)) as (-> & -> & _). auto.
Qed.

(** C6.  On a grid built by the constructor and then written by any
    sequence of [set] calls, [get] answers Solid (code 1) for every cell
    outside [0,cols) x [0,rows), and for every cell inside it the code of
    the attribute written last at that cell, Empty (code 0) if the cell
    was never written. *)
Theorem get_fail_safe_and_last_set
    (c r : Z) (ts : Q) (m0 : t) (ops : list SetOp) (col row : Z) :
  create c r ts = Some m0 ->
  (~ (0 <= col < c /\ 0 <= row < r) ->
     get (run_sets m0 ops) col row = Some (attr_code Solid)) /\
  (0 <= col < c /\ 0 <= row < r ->
     get (run_sets m0 ops) col row = Some (attr_code (last_set ops col row Empty))).
Proof.
  intros Hm. destruct (create_well_sized _ _ _ _ Hm) as (Hs & Hc & Hr).
  destruct (run_sets_shape ops m0) as [Ec Er]. split; intros H.
  - unfold get. replace (out_of_bounds (run_sets m0 ops) col row) with true; [reflexivity|].
    symmetry. apply out_of_bounds_true. unfold in_grid. rewrite Ec, Er, Hc, Hr. exact H.
  - assert (in_grid m0 col row) as Hin by (unfold in_grid; rewrite Hc, Hr; exact H).
    apply get_run_sets; auto. eapply get_create; eauto.
Qed.

(** A 3 x 2 grid written three times, twice at the same cell. *)
Lemma get_fail_safe_and_last_set_witness :
  get (run_sets (mk (replicate 6%nat 0) 3 2 64%Q)
         [mkSet 1 1 Ladder; mkSet 9 9 Solid; mkSet 1 1 OneWayPlatform]) 1 1 = Some 2 /\
  get (run_sets (mk (replicate 6%nat 0) 3 2 64%Q)
         [mkSet 1 1 Ladder; mkSet 9 9 Solid; mkSet 1 1 OneWayPlatform]) 3 0 = Some 1.
Proof.
  split.
  - apply (get_fail_safe_and_last_set 3 2 64%Q _
             [mkSet 1 1 Ladder; mkSet 9 9 Solid; mkSet 1 1 OneWayPlatform] 1 1 eq_refl).
    lia.
  - apply (get_fail_safe_and_last_set 3 2 64%Q _
             [mkSet 1 1 Ladder; mkSet 9 9 Solid; mkSet 1 1 OneWayPlatform] 3 0 eq_refl).
    lia.
Defined.

End GridFacts.

(** ** Archive signature *)

Section RezFacts.
Import RezLoader.

Variable toUpperCase : list byte -> list byte.

Lemma bytes_eqb_eq (a b : list byte) : DataView.bytes_eqb a b = true <-> a = b.
Proof.
  revert b. induction a as [|x a IH]; intros [|y b]; simpl; try (split; congruence).
  rewrite andb_true_iff, IH. split.
  - intros [E ->]. apply Byte.byte_dec_bl in E. congruence.
  - intros [= -> ->]. split; [apply Byte.byte_dec_lb|]; reflexivity.
Qed.

Lemma magicRejected_iff (raw : list byte) :
  magicRejected raw = true <->
  magicStr raw <> ["R"; "E"; "Z"]%byte /\ magicStr raw <> ["r"; "e"; "z"]%byte.
Proof.
  unfold magicRejected. rewrite andb_true_iff, !negb_true_iff.
  rewrite <- !not_true_iff_false, !bytes_eqb_eq. reflexivity.
Qed.

(** The traversal throws no parse error: the only [throw] is the
    signature test. *)
Lemma parseDirectory_no_parse_error (fuel : nat) (buf : list byte)
    (dir : RezDirectoryEntry) (off count : Z) :
  parseDirectory toUpperCase fuel buf dir off count <> Throws RezParseError.
Proof.
  revert dir off count. induction fuel as [|fuel IH]; intros dir off count; simpl.
  - repeat (case_match; try discriminate).
  - repeat (case_match; try discriminate); subst; try apply IH.
    all: match goal with
         | H : parseDirectory _ _ _ _ _ _ = Throws ?e |- Throws ?e <> _ =>
             intros [= ->]; exact (IH _ _ _ H)
         | _ => idtac
         end.
Qed.

Lemma getUint32_some (buf : list byte) (off : Z) (le : bool) :
  is_Some (DataView.getUint32 buf off le) <-> 0 <= off /\ off + 4 <= Z.of_nat (length buf).
Proof.
  unfold DataView.getUint32, DataView.unsignedAt, DataView.bytesAt.
  destruct (off <? 0) eqn:E1; destruct (Z.of_nat (length buf) <? off + Z.of_nat 4) eqn:E2;
    simpl; rewrite ?Z.ltb_lt, ?Z.ltb_ge in *.
  all: split; [intros [? ?]; try discriminate; lia | intros ?; try lia; eauto].
Qed.

(** C7 (as amended).  Loading throws the loader's parse error exactly
    when the buffer holds at least the four bytes the first header read
    needs and its first three bytes are neither "REZ" nor "rez". *)
Theorem parse_invalid_magic_iff (fuel : nat) (buf : list byte) :
  parse toUpperCase fuel buf = Throws RezParseError <->
  (4 <= length buf)%nat /\
  magicStr buf <> ["R"; "E"; "Z"]%byte /\ magicStr buf <> ["r"; "e"; "z"]%byte.
Proof.
  unfold parse.
  destruct (DataView.getUint32 buf 0 false) as [m|] eqn:Hm.
  - assert (4 <= length buf)%nat as Hlen.
    { destruct (proj1 (getUint32_some buf 0 false)) as [_ H]; [rewrite Hm; eauto | lia]. }
    destruct (magicRejected buf) eqn:Hr.
    + apply magicRejected_iff in Hr. tauto.
    + split.
      * intros H. exfalso.
        destruct (DataView.getUint32 buf 4 true); [|discriminate].
        destruct (DataView.getUint32 buf 8 true) as [rootOffset|]; [|discriminate].
        destruct (parseDirectory toUpperCase fuel buf (mkDir [] ["/"%byte] [] []) rootOffset 0)
          as [[root' n]|e|] eqn:Hd; try discriminate.
        injection H as ->. exact (parseDirectory_no_parse_error _ _ _ _ _ Hd).
      * intros (_ & H). apply magicRejected_iff in H. congruence.
  - split; [discriminate|]. intros (Hlen & _). exfalso.
    destruct (proj2 (getUint32_some buf 0 false)) as [x Hx]; [lia | congruence].
Qed.

End RezFacts.

(** The signature "Rez" spells the name in mixed case, and is rejected. *)
Lemma mixed_case_signature_rejected :
  RezLoader.spellsRezAnyCase
    ["R"; "e"; "z"; x00; x01; x00; x00; x00; x00; x00; x00; x00]%byte = true /\
  RezLoader.parse RezLoader.asciiUpper 0
    ["R"; "e"; "z"; x00; x01; x00; x00; x00; x00; x00; x00; x00]%byte
  = RezLoader.Throws RezLoader.RezParseError.
Proof. split; reflexivity. Qed.

(** ** Physics step *)

Section PhysicsFacts.
Import Number PhysicsSystem.
Open Scope Q_scope.

Lemma TILE_SIZE_value : TILE_SIZE = Finite 64.
Proof. vm_compute. reflexivity. Qed.

Lemma PIXEL_STUCK_THRESHOLD_value : PIXEL_STUCK_THRESHOLD = Finite 2.
Proof. vm_compute. reflexivity. Qed.

(** The resolver in terms of its local constants. *)
Lemma resolve_horizontal (cm : TileCollisionMap.t) (x y vx vy w h : Number.t) :
  resolveAxisCollision (Some cm) x y vx vy w h horizontal =
  if TileCollisionMap.OnNumbers.isSolid cm (leadingEdge x vx w) (innerLow y h)
     || TileCollisionMap.OnNumbers.isSolid cm (leadingEdge x vx w) (innerHigh y h)
  then
    if lt (abs (sub (snappedX x vx w) x)) PIXEL_STUCK_THRESHOLD
    then mkResolved (sub x (sign vx)) true
    else mkResolved (snappedX x vx w) true
  else mkResolved x false.
Proof. reflexivity. Qed.

Lemma resolve_vertical (cm : TileCollisionMap.t) (x y vx vy w h : Number.t) :
  resolveAxisCollision (Some cm) x y vx vy w h vertical =
  if TileCollisionMap.OnNumbers.isSolid cm (innerLow x w) (leadingEdge y vy h)
     || TileCollisionMap.OnNumbers.isSolid cm (innerHigh x w) (leadingEdge y vy h)
  then mkResolved (snappedY y vy h) true
  else mkResolved y false.
Proof. reflexivity. Qed.

(** On a grid of 64-px tiles a solid probe is a cell, solid or outside
    the grid, at the column and row the snap arithmetic computes. *)
Lemma isSolid_tileOf (cm : TileCollisionMap.t) (px py : Number.t) :
  TileCollisionMap.tileSize cm == 64 ->
  TileCollisionMap.OnNumbers.isSolid cm px py = true <->
  TileCollisionMap.OnNumbers.get cm (tileOf px) (tileOf py) = Some 1%Z.
Proof.
  intros Hts.
  unfold TileCollisionMap.OnNumbers.isSolid, TileCollisionMap.OnNumbers.getAtPixel, tileOf.
  assert (ofQ (TileCollisionMap.tileSize cm) = TILE_SIZE) as ->.
  { unfold ofQ, TILE_SIZE, ofZ, ofQ. apply round_comp. exact Hts. }
  destruct (TileCollisionMap.OnNumbers.get _ _ _) as [v|]; simpl.
  - rewrite Z.eqb_eq. split; congruence.
  - split; discriminate.
Qed.

(** The snap positions on pixel values. *)
Lemma leadingEdge_exact (p extent : Q) (v : Number.t) :
  pixelValue p -> pixelValue extent ->
  exists e,
    leadingEdge (Finite p) v (Finite extent) = Finite e /\ within (-35) 98304 e /\
    (gt v (ofZ 0) = true -> e == p + extent / 2) /\
    (gt v (ofZ 0) = false -> e == p - extent / 2).
Proof.
  intros Hp He. destruct (half_within extent He) as [Eh Wh].
  assert (within (-35) 65536 p) as Wp.
  { destruct Hp as (M & L & U). split; [|split; assumption].
    apply (multiple_weaken (-34)); [lia | exact M]. }
  unfold leadingEdge, half. rewrite Eh. destruct (gt v (ofZ 0)).
  - destruct (add_within 65536 32768 p (Qred (extent / 2)) Wp Wh) as [E W]; [reflexivity|].
    eexists. split; [exact E|]. split; [exact W|]. split; [|discriminate].
    intros _. rewrite !Qred_correct. reflexivity.
  - destruct (sub_within 65536 32768 p (Qred (extent / 2)) Wp Wh) as [E W]; [reflexivity|].
    eexists. split; [exact E|]. split; [exact W|]. split; [discriminate|].
    intros _. rewrite !Qred_correct. reflexivity.
Qed.


Lemma pixelValue_within (p : Q) : pixelValue p -> within (-35) 65536 p.
Proof.
  intros (M & L & U). split; [|split; assumption].
  apply (multiple_weaken (-34)); [lia | exact M].
Qed.

Lemma tileOf_exact (e : Q) :
  within (-35) 98304 e ->
  tileOf (Finite e) = Finite (inject_Z (Qfloor (e / 64))) /\
  (-1536 <= Qfloor (e / 64) <= 1536)%Z.
Proof. intros W. unfold tileOf, TILE_SIZE. apply tile_within. exact W. Qed.

Lemma snappedX_exact (x w : Q) (vx : Number.t) :
  pixelValue x -> pixelValue w ->
  exists s,
    snappedX (Finite x) vx (Finite w) = Finite s /\ within (-35) 131137 s /\
    (gt vx (ofZ 0) = true ->
       s == inject_Z (Qfloor ((x + w / 2) / 64)) * 64 - w / 2 - 1) /\
    (gt vx (ofZ 0) = false ->
       s == inject_Z (Qfloor ((x - w / 2) / 64) + 1) * 64 + w / 2 + 1).
Proof.
  intros Hx Hw. destruct (half_within w Hw) as [Eh Wh].
  destruct (leadingEdge_exact x w vx Hx Hw) as (e & Ee & We & E1 & E0).
  destruct (tileOf_exact e We) as [Et HT].
  unfold snappedX. rewrite Ee, Et. unfold half. rewrite Eh. unfold TILE_SIZE.
  set (T := Qfloor (e / 64)) in *.
  destruct (gt vx (ofZ 0)) eqn:G.
  - destruct (boundary_within (inject_Z T) T) as [Em Wm]; [reflexivity | lia |].
    rewrite Em.
    destruct (sub_within 98368 32768 _ _ Wm Wh) as [Es Ws]; [reflexivity|].
    rewrite Es, ofZ_1.
    destruct (sub_within (98368 + 32768) 1 _ 1 Ws) as [Es' Ws'];
      [apply (within_Z 1 1); lia | reflexivity|].
    eexists. split; [exact Es'|]. split; [exact Ws'|]. split; [|discriminate].
    intros _. rewrite !Qred_correct. unfold T.
    rewrite (Qfloor_comp (e / 64) ((x + w / 2) / 64)) by (rewrite (E1 eq_refl); reflexivity).
    reflexivity.
  - destruct (next_tile T) as [En EnQ]; [lia|]. rewrite En.
    destruct (boundary_within (Qred (inject_Z T + 1)) (T + 1)) as [Em Wm]; [exact EnQ | lia |].
    rewrite Em.
    destruct (add_within 98368 32768 _ _ Wm Wh) as [Es Ws]; [reflexivity|].
    rewrite Es, ofZ_1.
    destruct (add_within (98368 + 32768) 1 _ 1 Ws) as [Es' Ws'];
      [apply (within_Z 1 1); lia | reflexivity|].
    eexists. split; [exact Es'|]. split; [exact Ws'|]. split; [discriminate|].
    intros _. rewrite !Qred_correct. unfold T.
    rewrite (Qfloor_comp (e / 64) ((x - w / 2) / 64)) by (rewrite (E0 eq_refl); reflexivity).
    rewrite inject_Z_plus. reflexivity.
Qed.

Lemma snappedY_exact (y h : Q) (vy : Number.t) :
  pixelValue y -> pixelValue h ->
  exists s,
    snappedY (Finite y) vy (Finite h) = Finite s /\
    (gt vy (ofZ 0) = true ->
       s == inject_Z (Qfloor ((y + h / 2) / 64)) * 64 - h / 2) /\
    (gt vy (ofZ 0) = false ->
       s == inject_Z (Qfloor ((y - h / 2) / 64) + 1) * 64 + h / 2).
Proof.
  intros Hy Hh. destruct (half_within h Hh) as [Eh Wh].
  destruct (leadingEdge_exact y h vy Hy Hh) as (e & Ee & We & E1 & E0).
  destruct (tileOf_exact e We) as [Et HT].
  unfold snappedY. rewrite Ee, Et. unfold half. rewrite Eh. unfold TILE_SIZE.
  set (T := Qfloor (e / 64)) in *.
  destruct (gt vy (ofZ 0)) eqn:G.
  - destruct (boundary_within (inject_Z T) T) as [Em Wm]; [reflexivity | lia |].
    rewrite Em.
    destruct (sub_within 98368 32768 _ _ Wm Wh) as [Es Ws]; [reflexivity|].
    eexists. split; [exact Es|]. split; [|discriminate].
    intros _. rewrite !Qred_correct. unfold T.
    rewrite (Qfloor_comp (e / 64) ((y + h / 2) / 64)) by (rewrite (E1 eq_refl); reflexivity).
    reflexivity.
  - destruct (next_tile T) as [En EnQ]; [lia|]. rewrite En.
    destruct (boundary_within (Qred (inject_Z T + 1)) (T + 1)) as [Em Wm]; [exact EnQ | lia |].
    rewrite Em.
    destruct (add_within 98368 32768 _ _ Wm Wh) as [Es Ws]; [reflexivity|].
    eexists. split; [exact Es|]. split; [discriminate|].
    intros _. rewrite !Qred_correct. unfold T.
    rewrite (Qfloor_comp (e / 64) ((y - h / 2) / 64)) by (rewrite (E0 eq_refl); reflexivity).
    rewrite inject_Z_plus. reflexivity.
Qed.

(** The distance the pixel-stuck test measures, and the nudges. *)
Lemma distance_exact (s x : Q) :
  within (-35) 131137 s -> pixelValue x ->
  lt (abs (sub (Finite s) (Finite x))) PIXEL_STUCK_THRESHOLD = true <-> Qabs (s - x) < 2.
Proof.
  intros Ws Hx. pose proof (pixelValue_within x Hx) as Wx.
  destruct (sub_within 131137 65536 s x Ws Wx) as [Es _]; [reflexivity|].
  rewrite Es, PIXEL_STUCK_THRESHOLD_value. unfold abs. rewrite lt_Finite.
  rewrite (Qabs_wd _ _ (Qred_correct (s - x))). reflexivity.
Qed.

Lemma nudge_exact (x : Q) (vx : Number.t) :
  pixelValue x ->
  (gt vx (ofZ 0) = true -> exists r, sub (Finite x) (sign vx) = Finite r /\ r == x - 1) /\
  (lt vx (ofZ 0) = true -> exists r, sub (Finite x) (sign vx) = Finite r /\ r == x + 1) /\
  (isZero vx = true -> exists r, sub (Finite x) (sign vx) = Finite r /\ r == x).
Proof.
  intros Hx. pose proof (pixelValue_within x Hx) as Wx. rewrite ofZ_0.
  split; [|split]; intros H.
  - rewrite (sign_positive vx H).
    destruct (sub_within 65536 1 x 1 Wx) as [E _]; [apply (within_Z 1 1); lia | reflexivity|].
    eexists. split; [exact E|]. apply Qred_correct.
  - rewrite (sign_negative vx H).
    destruct (sub_within 65536 1 x (-1) Wx) as [E _];
      [apply (within_Z (-1) 1); lia | reflexivity|].
    eexists. split; [exact E|]. rewrite Qred_correct. ring.
  - assert (representable binary64 (x - 0)) as R.
    { apply (within_representable 65536); [|reflexivity].
      apply (within_comp (-35) _ x); [ring | exact Wx]. }
    destruct vx as [|[|]| |q]; try discriminate.
    + exists (Qred (x + 0)). split; [|rewrite Qred_correct; ring].
      change (sub (Finite x) (sign NegZero)) with (round binary64 (x + 0)).
      apply round64_exact. apply (within_representable 65536); [|reflexivity].
      apply (within_comp (-35) _ x); [ring | exact Wx].
    + simpl in H. apply Qeq_bool_iff in H.
      assert (sign (Finite q) = Finite 0) as ->.
      { unfold sign. destruct (Qcompare q 0) eqn:C;
          [reflexivity | apply Qlt_alt in C; lra | apply Qgt_alt in C; lra]. }
      exists (Qred (x - 0)). split; [apply sub_exact; exact R|].
      rewrite Qred_correct. ring.
Qed.


(** The stores of the two stages: the resolved coordinate goes into the
    [Float32Array] cell, and a blocked axis gets the number 0 as the
    property of its velocity component that the step reads. *)
Lemma horizontalStage_stores (cm : option TileCollisionMap.t) (newX : Number.t) (b : Body) :
  posX (horizontalStage cm newX b) = fround (pos (horizontalResult cm newX b)) /\
  (blocked (horizontalResult cm newX b) = true ->
   own (velX (horizontalStage cm newX b)) = JS.Num (Finite 0)).
Proof.
  unfold horizontalStage. destruct (blocked (horizontalResult cm newX b)).
  - split; [reflexivity|]. intros _. reflexivity.
  - split; [reflexivity | discriminate].
Qed.

Lemma verticalStage_stores (cm : option TileCollisionMap.t) (eid : nat) (newY : Number.t)
    (b : Body) :
  posY (fst (verticalStage cm eid newY b)) = fround (pos (verticalResult cm newY b)) /\
  (blocked (verticalResult cm newY b) = true ->
   own (velY (fst (verticalStage cm eid newY b))) = JS.Num (Finite 0)).
Proof.
  unfold verticalStage. destruct (blocked (verticalResult cm newY b)).
  - destruct (gt _ _); split; try reflexivity; intros _; reflexivity.
  - split; [reflexivity | discriminate].
Qed.

(** C1 (as amended).  On a grid of 64-px tiles.  Horizontal axis,
    blocked: a probe of the leading edge lies in a cell, solid or
    outside the grid, of the tile column the snap is computed from; the
    resolved x is that column's boundary (left when velocity.x > 0,
    right otherwise) offset by half the width plus 1 px, in double
    arithmetic, unless this is strictly less than 2 px from the
    integrated x: then it is the integrated x minus the sign of
    velocity.x.  Vertical axis, blocked: the resolved y is the row's
    boundary offset by half the height, with no clearance and no nudge.
    On pixel values the arithmetic is exact and the offsets and nudges
    are the rational ones.  The stages store the resolved coordinate in
    single precision and write 0 to the velocity property they read. *)
Theorem blocked_axis_snap
    (cm : TileCollisionMap.t) (x y vx vy w h : Number.t) (b : Body) (eid : nat) :
  TileCollisionMap.tileSize cm == 64 ->
  (blocked (resolveAxisCollision (Some cm) x y vx vy w h horizontal) = true ->
     (TileCollisionMap.OnNumbers.get cm (tileOf (leadingEdge x vx w)) (tileOf (innerLow y h))
      = Some 1%Z \/
      TileCollisionMap.OnNumbers.get cm (tileOf (leadingEdge x vx w)) (tileOf (innerHigh y h))
      = Some 1%Z) /\
     (lt (abs (sub (snappedX x vx w) x)) PIXEL_STUCK_THRESHOLD = false ->
        pos (resolveAxisCollision (Some cm) x y vx vy w h horizontal) = snappedX x vx w) /\
     (lt (abs (sub (snappedX x vx w) x)) PIXEL_STUCK_THRESHOLD = true ->
        pos (resolveAxisCollision (Some cm) x y vx vy w h horizontal) = sub x (sign vx)) /\
     (forall qx qw : Q,
        x = Finite qx -> w = Finite qw -> pixelValue qx -> pixelValue qw ->
        (gt vx (ofZ 0) = true ->
           exists r,
             pos (resolveAxisCollision (Some cm) x y vx vy w h horizontal) = Finite r /\
             (2 <= Qabs (inject_Z (Qfloor ((qx + qw / 2) / 64)) * 64 - qw / 2 - 1 - qx) ->
                r + qw / 2 + 1 == inject_Z (Qfloor ((qx + qw / 2) / 64)) * 64) /\
             (Qabs (inject_Z (Qfloor ((qx + qw / 2) / 64)) * 64 - qw / 2 - 1 - qx) < 2 ->
                r == qx - 1)) /\
        (gt vx (ofZ 0) = false ->
           (2 <= Qabs (inject_Z (Qfloor ((qx - qw / 2) / 64) + 1) * 64 + qw / 2 + 1 - qx) ->
              exists r,
                pos (resolveAxisCollision (Some cm) x y vx vy w h horizontal) = Finite r /\
                r - qw / 2 - 1 == inject_Z (Qfloor ((qx - qw / 2) / 64) + 1) * 64) /\
           (Qabs (inject_Z (Qfloor ((qx - qw / 2) / 64) + 1) * 64 + qw / 2 + 1 - qx) < 2 ->
              (lt vx (ofZ 0) = true ->
                 exists r,
                   pos (resolveAxisCollision (Some cm) x y vx vy w h horizontal) = Finite r /\
                   r == qx + 1) /\
              (isZero vx = true ->
                 exists r,
                   pos (resolveAxisCollision (Some cm) x y vx vy w h horizontal) = Finite r /\
                   r == qx))))) /\
  (blocked (resolveAxisCollision (Some cm) x y vx vy w h vertical) = true ->
     (TileCollisionMap.OnNumbers.get cm (tileOf (innerLow x w)) (tileOf (leadingEdge y vy h))
      = Some 1%Z \/
      TileCollisionMap.OnNumbers.get cm (tileOf (innerHigh x w)) (tileOf (leadingEdge y vy h))
      = Some 1%Z) /\
     pos (resolveAxisCollision (Some cm) x y vx vy w h vertical) = snappedY y vy h /\
     (forall qy qh : Q,
        y = Finite qy -> h = Finite qh -> pixelValue qy -> pixelValue qh ->
        exists r,
          pos (resolveAxisCollision (Some cm) x y vx vy w h vertical) = Finite r /\
          (gt vy (ofZ 0) = true ->
             r + qh / 2 == inject_Z (Qfloor ((qy + qh / 2) / 64)) * 64) /\
          (gt vy (ofZ 0) = false ->
             r - qh / 2 == inject_Z (Qfloor ((qy - qh / 2) / 64) + 1) * 64))) /\
  (forall newX : Number.t,
     posX (horizontalStage (Some cm) newX b) = fround (pos (horizontalResult (Some cm) newX b)) /\
     (blocked (horizontalResult (Some cm) newX b) = true ->
      own (velX (horizontalStage (Some cm) newX b)) = JS.Num (Finite 0))) /\
  (forall newY : Number.t,
     posY (fst (verticalStage (Some cm) eid newY b))
     = fround (pos (verticalResult (Some cm) newY b)) /\
     (blocked (verticalResult (Some cm) newY b) = true ->
      own (velY (fst (verticalStage (Some cm) eid newY b))) = JS.Num (Finite 0))).
Proof.
  intros Hts. split; [|split; [|split]].
  - rewrite resolve_horizontal.
    destruct (_ || _) eqn:S; [intros _ | discriminate].
    split; [|split; [|split]].
    + apply orb_true_iff in S. destruct S as [S|S]; [left | right];
        apply (isSolid_tileOf cm _ _ Hts); exact S.
    + intros ->. reflexivity.
    + intros ->. reflexivity.
    + intros qx qw -> -> Hx Hw.
      destruct (snappedX_exact qx qw vx Hx Hw) as (s & Es & Ws & S1 & S0).
      pose proof (distance_exact s qx Ws Hx) as D. rewrite Es.
      destruct (nudge_exact qx vx Hx) as (N1 & N2 & N3).
      split.
      * intros G. specialize (S1 G).
        destruct (lt (abs (sub (Finite s) (Finite qx))) PIXEL_STUCK_THRESHOLD) eqn:L.
        -- destruct (N1 G) as (r & Er & Hr). exists r. cbn [pos]. split; [exact Er|].
           assert (Qabs (s - qx) < 2) as L' by (apply D; reflexivity).
           rewrite S1 in L'. split; [intros F; lra | intros _; exact Hr].
        -- exists s. cbn [pos]. split; [reflexivity|].
           assert (~ Qabs (s - qx) < 2) as L' by (intros F; apply D in F; discriminate).
           rewrite S1 in L'. split; [intros _; rewrite S1; ring | intros F; contradiction].
      * intros G. specialize (S0 G).
        destruct (lt (abs (sub (Finite s) (Finite qx))) PIXEL_STUCK_THRESHOLD) eqn:L.
        -- assert (Qabs (s - qx) < 2) as L' by (apply D; reflexivity).
           rewrite S0 in L'. split; [intros F; lra|]. intros _. cbn [pos].
           split; [exact N2 | exact N3].
        -- assert (~ Qabs (s - qx) < 2) as L' by (intros F; apply D in F; discriminate).
           rewrite S0 in L'. split; [|intros F; contradiction].
           intros _. exists s. cbn [pos]. split; [reflexivity|]. rewrite S0. ring.
  - rewrite resolve_vertical.
    destruct (_ || _) eqn:S; [intros _ | discriminate].
    split; [|split].
    + apply orb_true_iff in S. destruct S as [S|S]; [left | right];
        apply (isSolid_tileOf cm _ _ Hts); exact S.
    + reflexivity.
    + intros qy qh -> -> Hy Hh.
      destruct (snappedY_exact qy qh vy Hy Hh) as (s & Es & S1 & S0).
      exists s. cbn [pos]. split; [exact Es|]. split; intros G.
      * rewrite (S1 G). ring.
      * rewrite (S0 G). ring.
  - intros newX. apply horizontalStage_stores.
  - intros newY. apply verticalStage_stores.
Qed.

End PhysicsFacts.

(** A body moving right into the wall at x = 64 is put one pixel short
    of it: its right edge ends at 63. *)
Lemma blocked_axis_snap_witness :
  exists r,
    PhysicsSystem.pos
      (PhysicsSystem.resolveAxisCollision (Some PhysicsSystem.openCell)
         (Number.Finite 60) (Number.Finite 32) (Number.Finite 5) (Number.Finite 0)
         (Number.Finite 32) (Number.Finite 32) PhysicsSystem.horizontal)
    = Number.Finite r /\
    (r + 32 / 2 + 1 == 64)%Q.
Proof.
  destruct (blocked_axis_snap PhysicsSystem.openCell
              (Number.Finite 60) (Number.Finite 32) (Number.Finite 5) (Number.Finite 0)
              (Number.Finite 32) (Number.Finite 32)
              (PhysicsSystem.writtenBody (Number.Finite 0) (Number.Finite 0) (Number.Finite 0)
                 (Number.Finite 0) (Number.Finite 0) (Number.Finite 0) (Number.Finite 0)
                 (Number.Finite 0)) 0%nat)
    as (Hh & _).
  - reflexivity.
  - destruct Hh as (_ & _ & _ & He); [vm_compute; reflexivity|].
    destruct (He 60%Q 32%Q eq_refl eq_refl) as ((r & Er & Hfar & _) & _).
    + split; [exists (60 * 2 ^ 34)%Z; vm_compute; reflexivity|]. split; discriminate.
    + split; [exists (32 * 2 ^ 34)%Z; vm_compute; reflexivity|]. split; discriminate.
    + vm_compute. reflexivity.
    + exists r. split; [exact Er|].
      rewrite Hfar; [vm_compute; reflexivity | vm_compute; discriminate].
Defined.

(** Falling onto the floor at y = 64: the body's bottom edge ends on the
    boundary itself (y = 48 for a height of 32), not one pixel above it,
    whether the integrated position is far from the boundary (y = 60) or
    half a pixel from it (y = 48.5, where a nudge would give 47.5). *)
Lemma vertical_snap_without_clearance :
  PhysicsSystem.resolveAxisCollision (Some PhysicsSystem.openCell)
    (Number.Finite 32) (Number.Finite 60) (Number.Finite 0) (Number.Finite 10)
    (Number.Finite 32) (Number.Finite 32) PhysicsSystem.vertical
  = PhysicsSystem.mkResolved (Number.Finite 48) true /\
  ~ (48 == 1 * 64 - 32 / 2 - 1)%Q /\
  PhysicsSystem.resolveAxisCollision (Some PhysicsSystem.openCell)
    (Number.Finite 32) (Number.Finite (97 # 2)) (Number.Finite 0) (Number.Finite 10)
    (Number.Finite 32) (Number.Finite 32) PhysicsSystem.vertical
  = PhysicsSystem.mkResolved (Number.Finite 48) true /\
  ~ (48 == (97 # 2) - 1)%Q.
Proof.
  split; [vm_compute; reflexivity|]. split; [vm_compute; discriminate|].
  split; [vm_compute; reflexivity|]. vm_compute; discriminate.
Qed.

(** ** Simulation clock *)

Section ClockFacts.
Import Number GameLoop.
Open Scope Q_scope.












End ClockFacts.



(** A stall of one second is clamped to 200 ms: twelve steps at 60 Hz,
    not sixty. *)
Example one_second_stall_runs_twelve_steps :
  option_map (fun r => length (GameLoop.logicTicks (snd r)))
    (GameLoop.tick 100 (fst (GameLoop.start (GameLoop.create (Number.ofZ 60)) (Number.ofZ 0)))
                   (Number.ofZ 1000)) = Some 12%nat.
Proof. vm_compute. reflexivity. Qed.

(** At 60 Hz a frame of 50 ms runs two steps: three of the held steps
    are a little more than 50 ms. *)
Example fifty_milliseconds_run_two_steps :
  option_map (fun r => length (GameLoop.logicTicks (snd r)))
    (GameLoop.tick 100 (fst (GameLoop.start (GameLoop.create (Number.ofZ 60)) (Number.ofZ 0)))
                   (Number.ofZ 50)) = Some 2%nat.
Proof. vm_compute. reflexivity. Qed.

(** ** Run-length decoding *)

Section RleFacts.
Import PidLoader.

(** *** The expansion *)

Lemma expand_cons (f : nat) (c : byte) (rest : list byte) :
  expand (S f) (c :: rest) =
  if (Byte.to_nat c <=? 127)%nat then
    match rest with
    | v :: rest' => replicate (Byte.to_nat c + 1) v ++ expand f rest'
    | [] => []
    end
  else take (Byte.to_nat c - 128 + 1) rest ++ expand f (drop (Byte.to_nat c - 128 + 1) rest).
Proof. reflexivity. Qed.

Lemma expand_fuel_any (f1 f2 : nat) (s : list byte) :
  (length s <= f1)%nat -> (length s <= f2)%nat -> expand f1 s = expand f2 s.
Proof.
  revert f2 s. induction f1 as [|f1 IH]; intros f2 s H1 H2.
  - destruct s; [destruct f2; reflexivity | simpl in H1; lia].
  - destruct s as [|c rest]; [destruct f2; reflexivity|].
    destruct f2 as [|f2]; [simpl in H2; lia|]. simpl in H1, H2.
    rewrite !expand_cons.
    destruct (Byte.to_nat c <=? 127)%nat.
    + destruct rest as [|v rest']; [reflexivity|]. simpl in H1, H2.
      rewrite (IH f2 rest') by lia. reflexivity.
    + set (k := (Byte.to_nat c - 128 + 1)%nat).
      assert (length (drop k rest) <= length rest)%nat by (rewrite length_drop; lia).
      rewrite (IH f2 (drop k rest)) by lia. reflexivity.
Qed.

Lemma expand_fuel (f : nat) (s : list byte) :
  (length s <= f)%nat -> expand f s = expandAll s.
Proof. intros H. apply expand_fuel_any; [exact H | lia]. Qed.

Lemma expandAll_nil : expandAll [] = [].
Proof. reflexivity. Qed.

(** A run: the next byte, [C + 1] times. *)
Lemma expandAll_run (c v : byte) (rest : list byte) :
  (Byte.to_nat c <= 127)%nat ->
  expandAll (c :: v :: rest) = replicate (Byte.to_nat c + 1) v ++ expandAll rest.
Proof.
  intros Hc. unfold expandAll at 1.
  change (length (c :: v :: rest)) with (S (S (length rest))). rewrite expand_cons.
  apply Nat.leb_le in Hc. rewrite Hc. rewrite expand_fuel by lia. reflexivity.
Qed.

Lemma expandAll_run_end (c : byte) :
  (Byte.to_nat c <= 127)%nat -> expandAll [c] = [].
Proof.
  intros Hc. unfold expandAll. change (length [c]) with 1%nat. rewrite expand_cons.
  apply Nat.leb_le in Hc. rewrite Hc. reflexivity.
Qed.

(** A literal: the next [C - 0x80 + 1] bytes as they are. *)
Lemma expandAll_literal (c : byte) (rest : list byte) :
  (128 <= Byte.to_nat c)%nat ->
  expandAll (c :: rest) =
  take (Byte.to_nat c - 128 + 1) rest ++ expandAll (drop (Byte.to_nat c - 128 + 1) rest).
Proof.
  intros Hc. unfold expandAll at 1.
  change (length (c :: rest)) with (S (length rest)). rewrite expand_cons.
  assert ((Byte.to_nat c <=? 127)%nat = false) as -> by (apply Nat.leb_gt; lia).
  rewrite expand_fuel by (rewrite length_drop; lia). reflexivity.
Qed.

(** *** Zero padding *)

Lemma zeroPad_length (n : nat) (l : list byte) : length (zeroPad n l) = n.
Proof.
  unfold zeroPad. rewrite length_app, length_replicate, length_take. lia.
Qed.

Lemma zeroPad_full (n : nat) (w x : list byte) :
  length w = n -> zeroPad n (w ++ x) = w.
Proof.
  intros Hw. unfold zeroPad. rewrite take_app_length' by auto.
  rewrite Hw, Nat.sub_diag. simpl. apply app_nil_r.
Qed.

Lemma zeroPad_short (n : nat) (w : list byte) :
  (length w <= n)%nat -> zeroPad n w = w ++ replicate (n - length w) x00.
Proof. intros Hw. unfold zeroPad. rewrite take_ge by lia. reflexivity. Qed.

Lemma zeroPad_zeros (n k : nat) (w : list byte) :
  (length w + k <= n)%nat -> zeroPad n (w ++ replicate k x00) = zeroPad n w.
Proof.
  intros Hk. rewrite !zeroPad_short by (rewrite ?length_app, ?length_replicate; lia).
  rewrite length_app, length_replicate, <- app_assoc, <- replicate_add.
  do 2 f_equal. lia.
Qed.

(** Cutting at [n] does not see what follows the [n]-th element. *)
Lemma zeroPad_cut (n : nat) (w x y : list byte) :
  x = [] \/ length w = n -> zeroPad n (w ++ x ++ y) = zeroPad n (w ++ y).
Proof.
  intros [-> | Hw]; [reflexivity|].
  rewrite !zeroPad_full by exact Hw. reflexivity.
Qed.

(** *** The decoder's state *)

Lemma emit_written (n : nat) (w : list byte) (st : Rle) (v : byte) :
  written n w st -> (length w < n)%nat -> written n (w ++ [v]) (emit st v).
Proof.
  intros (Ho & Hd & Hn) Hlt. unfold written, emit. simpl.
  rewrite Ho, Hd, length_app. simpl. repeat split; [|lia|lia].
  replace (length w) with (length w + 0)%nat at 1 by lia.
  rewrite insert_app_r.
  replace (n - length w)%nat with (S (n - (length w + 1))) by lia.
  simpl. rewrite <- app_assoc. reflexivity.
Qed.

Lemma runLoop_written (count : nat) (v : byte) (n : nat) (w : list byte) (st : Rle) :
  written n w st ->
  written n (w ++ replicate (min count (n - length w)) v) (runLoop count v n st) /\
  srcPos (runLoop count v n st) = srcPos st.
Proof.
  revert w st. induction count as [|count IH]; intros w st Hw; cbn [runLoop].
  - rewrite Nat.min_0_l. cbn [replicate]. rewrite app_nil_r. auto.
  - destruct Hw as (Ho & Hd & Hn). rewrite Hd.
    destruct (length w <? n)%nat eqn:E.
    + apply Nat.ltb_lt in E.
      destruct (IH (w ++ [v]) (emit st v)) as [H1 H2];
        [apply emit_written; [repeat split; auto | exact E]|].
      rewrite H2. split; [|reflexivity].
      rewrite length_app in H1. cbn [length] in H1.
      replace (min (S count) (n - length w)) with (S (min count (n - (length w + 1)))) by lia.
      cbn [replicate]. rewrite <- app_assoc in H1. exact H1.
    + apply Nat.ltb_ge in E.
      replace (n - length w)%nat with 0%nat by lia. rewrite Nat.min_0_r. cbn [replicate].
      rewrite app_nil_r. repeat split; auto.
Qed.

Lemma literalLoop_written (count : nat) (src : list byte) (n : nat) (w : list byte) (st : Rle) :
  written n w st ->
  written n (w ++ take (min count (n - length w)) (drop (srcPos st) src))
          (literalLoop count src n st) /\
  srcPos (literalLoop count src n st)
  = (srcPos st + min count (min (n - length w) (length src - srcPos st)))%nat.
Proof.
  revert w st. induction count as [|count IH]; intros w st Hw; cbn [literalLoop].
  - rewrite !Nat.min_0_l, take_0, app_nil_r. split; [auto | lia].
  - destruct Hw as (Ho & Hd & Hn). rewrite Hd.
    destruct (length w <? n)%nat eqn:E; cbn [andb].
    + apply Nat.ltb_lt in E. destruct (srcPos st <? length src)%nat eqn:E2.
      * apply Nat.ltb_lt in E2.
        destruct (lookup_lt_is_Some_2 src (srcPos st) E2) as [b Hb]. rewrite Hb.
        change (stored (Some b)) with b.
        destruct (IH (w ++ [b]) (mkRle (out (emit st b)) (S (srcPos (emit st b))) (dstPos (emit st b))))
          as [H1 H2].
        { destruct (emit_written n w st b) as (A & B & C); [repeat split; auto | exact E |].
          repeat split; auto. }
        cbn [srcPos emit] in H1, H2 |- *. rewrite length_app in H1, H2. cbn [length] in H1, H2.
        split.
        -- replace (min (S count) (n - length w)) with (S (min count (n - (length w + 1)))) by lia.
           rewrite (drop_S _ _ _ Hb). cbn [take]. rewrite <- app_assoc in H1. exact H1.
        -- rewrite H2. lia.
      * apply Nat.ltb_ge in E2. rewrite drop_ge by exact E2. rewrite take_nil, app_nil_r.
        split; [repeat split; auto | lia].
    + apply Nat.ltb_ge in E.
      replace (n - length w)%nat with 0%nat by lia. rewrite Nat.min_0_r, take_0.
      rewrite app_nil_r. split; [repeat split; auto | lia].
Qed.

(** One iteration consumes source bytes and keeps the padded
    expansion. *)
Lemma rleStep_written (src : list byte) (n : nat) (w : list byte) (st : Rle) :
  written n w st -> (length w < n)%nat -> (srcPos st < length src)%nat ->
  exists w',
    written n w' (rleStep src n st) /\
    (srcPos st < srcPos (rleStep src n st))%nat /\
    zeroPad n (w' ++ expandAll (drop (srcPos (rleStep src n st)) src))
    = zeroPad n (w ++ expandAll (drop (srcPos st) src)).
Proof.
  intros Hw Hlt Hp. set (p := srcPos st) in *.
  destruct (lookup_lt_is_Some_2 src p Hp) as [c Hc].
  unfold rleStep. fold p. rewrite Hc. cbn [srcPos out dstPos].
  rewrite (drop_S _ _ _ Hc).
  assert (forall q, written n w (mkRle (out st) q (dstPos st))) as Hw'
    by (intros q; destruct Hw as (A & B & C); repeat split; auto).
  destruct (Byte.to_nat c <=? 127)%nat eqn:E.
  - apply Nat.leb_le in E.
    set (v := stored (src !! S p)).
    destruct (runLoop_written (Byte.to_nat c + 1) v n w _ (Hw' (S (S p)))) as [H1 H2].
    cbn [srcPos] in H2. rewrite H2.
    set (k := min (Byte.to_nat c + 1) (n - length w)) in *.
    exists (w ++ replicate k v). split; [exact H1|]. split; [lia|].
    destruct (src !! S p) as [v'|] eqn:Hv.
    + rewrite (drop_S _ _ _ Hv), expandAll_run by exact E.
      change (stored (Some v')) with v' in v. subst v.
      assert (replicate (Byte.to_nat c + 1) v' = replicate k v' ++ replicate (Byte.to_nat c + 1 - k) v')
        as -> by (rewrite <- replicate_add; f_equal; lia).
      symmetry. etransitivity;
        [| apply (zeroPad_cut n (w ++ replicate k v')
                    (replicate (Byte.to_nat c + 1 - k) v') (expandAll (drop (S (S p)) src)))].
      * f_equal. rewrite <- !app_assoc. reflexivity.
      * destruct (decide (k = Byte.to_nat c + 1)%nat) as [Hk | Hk].
        -- left. rewrite Hk, Nat.sub_diag. reflexivity.
        -- right. rewrite length_app, length_replicate. lia.
    + apply lookup_ge_None in Hv.
      rewrite (drop_ge src (S p)) by lia. rewrite (drop_ge src (S (S p))) by lia.
      rewrite expandAll_run_end by exact E. rewrite expandAll_nil, !app_nil_r.
      apply zeroPad_zeros. lia.
  - apply Nat.leb_gt in E.
    set (count := (Byte.to_nat c - 128 + 1)%nat).
    destruct (literalLoop_written count src n w _ (Hw' (S p))) as [H1 H2].
    cbn [srcPos] in H1, H2. rewrite H2.
    set (R := drop (S p) src) in *.
    assert (length R = length src - S p)%nat as HR by (unfold R; apply length_drop).
    set (k1 := min count (n - length w)) in *.
    exists (w ++ take k1 R). split; [exact H1|]. split; [lia|].
    rewrite expandAll_literal by lia. fold count.
    replace (drop (S p + min count (min (n - length w) (length src - S p))) src)
      with (drop (min k1 (length R)) R)
      by (subst k1 R; rewrite drop_drop, length_drop; f_equal; lia).
    destruct (decide (length R <= k1)%nat) as [HA | HA].
    + rewrite (take_ge R k1) by lia. rewrite (take_ge R count) by lia.
      rewrite (drop_ge R (min k1 (length R))) by lia. rewrite (drop_ge R count) by lia.
      rewrite <- app_assoc. reflexivity.
    + destruct (decide (k1 = count)) as [HB | HB].
      * rewrite HB. replace (min count (length R)) with count by lia.
        rewrite <- app_assoc. reflexivity.
      * rewrite zeroPad_full by (rewrite length_app, length_take; lia).
        replace count with (k1 + (count - k1))%nat at 1 by lia.
        rewrite <- take_take_drop, <- app_assoc, app_assoc.
        rewrite zeroPad_full by (rewrite length_app, length_take; lia). reflexivity.
Qed.

(** The loop ends within [length src - srcPos] iterations, with the
    padded expansion as output. *)
Lemma rleLoop_written (src : list byte) (n : nat) (fuel : nat) (w : list byte) (st : Rle) :
  written n w st -> (length src - srcPos st <= fuel)%nat ->
  exists st',
    rleLoop fuel src n st = Some st' /\
    out st' = zeroPad n (w ++ expandAll (drop (srcPos st) src)).
Proof.
  revert w st. induction fuel as [|fuel IH]; intros w st Hw Hf.
  - assert (rleLoop 0 src n st = Some st /\ (dstPos st <? n)%nat && (srcPos st <? length src)%nat = false)
      as [-> Hc].
    { cbn [rleLoop]. destruct (srcPos st <? length src)%nat eqn:E.
      - apply Nat.ltb_lt in E. lia.
      - rewrite andb_false_r. auto. }
    exists st. split; [reflexivity|].
    destruct Hw as (Ho & Hd & Hn). rewrite Ho.
    rewrite drop_ge by lia. rewrite expandAll_nil, app_nil_r.
    symmetry. apply zeroPad_short. exact Hn.
  - cbn [rleLoop]. destruct ((dstPos st <? n)%nat && (srcPos st <? length src)%nat) eqn:Hc.
    + apply andb_true_iff in Hc as [Hd Hp]. apply Nat.ltb_lt in Hd, Hp.
      assert (length w < n)%nat as Hlt by (destruct Hw as (_ & <- & _); exact Hd).
      destruct (rleStep_written src n w st Hw Hlt Hp) as (w' & Hw' & Hadv & Heq).
      destruct (IH w' (rleStep src n st) Hw') as (st' & Hl & Ho); [lia|].
      exists st'. split; [exact Hl|]. rewrite Ho. exact Heq.
    + exists st. split; [reflexivity|].
      destruct Hw as (Ho & Hd & Hn). rewrite Ho.
      apply andb_false_iff in Hc as [Hc | Hc]; apply Nat.ltb_ge in Hc.
      * assert (length w = n) as Hfull by lia.
        rewrite zeroPad_full by exact Hfull.
        rewrite Hfull, Nat.sub_diag. cbn [replicate]. apply app_nil_r.
      * rewrite drop_ge by lia. rewrite expandAll_nil, app_nil_r.
        symmetry. apply zeroPad_short. exact Hn.
Qed.

(** C3.  For every source, offset and expected count the decoder
    returns (it neither throws nor runs on), and its output is the run /
    literal expansion of the stream cut at the expected count and padded
    with zeros: exactly the expected length, zero wherever the stream did
    not reach.  The stream 02 09 81 07 08 decodes to 9 9 9 7 8. *)
Theorem decompressRLE_total_and_exact (src : list byte) (srcOffset expectedPixels : nat) :
  (exists warned,
     decompressRLE src srcOffset expectedPixels
     = Some (expectedOutput src srcOffset expectedPixels, warned)) /\
  length (expectedOutput src srcOffset expectedPixels) = expectedPixels /\
  (forall i : nat,
     (length (expandAll (drop srcOffset src)) <= i < expectedPixels)%nat ->
     expectedOutput src srcOffset expectedPixels !! i = Some x00) /\
  (forall i : nat,
     (i < length (expandAll (drop srcOffset src)))%nat -> (i < expectedPixels)%nat ->
     expectedOutput src srcOffset expectedPixels !! i = expandAll (drop srcOffset src) !! i) /\
  decompressRLE [x02; x09; x81; x07; x08] 0 5 = Some ([x09; x09; x09; x07; x08], false).
Proof.
  split; [|split; [|split; [|split]]].
  - unfold decompressRLE.
    destruct (rleLoop_written src expectedPixels (length src) []
                (mkRle (replicate expectedPixels x00) srcOffset 0)) as (st' & Hl & Ho).
    + repeat split; cbn [length out dstPos]; [rewrite Nat.sub_0_r; reflexivity | lia].
    + cbn [srcPos]. lia.
    + rewrite Hl. cbn [srcPos app] in Ho. rewrite Ho. eexists. reflexivity.
  - apply zeroPad_length.
  - intros i [Hlo Hhi]. unfold expectedOutput, zeroPad.
    set (e := expandAll (drop srcOffset src)) in *.
    rewrite lookup_app_r by (rewrite length_take; lia).
    apply lookup_replicate_2. rewrite length_take. lia.
  - intros i Hlo Hhi. unfold expectedOutput, zeroPad.
    set (e := expandAll (drop srcOffset src)) in *.
    rewrite lookup_app_l by (rewrite length_take; lia).
    apply lookup_take_lt. exact Hhi.
  - reflexivity.
Qed.

End RleFacts.

(** ** Palette conversion *)

Section PixelFacts.
Import PidLoader.

Lemma convertPixel_length (ck : bool) (palette indices pixels : list byte) (i : nat) :
  length (convertPixel ck palette indices pixels i) = length pixels.
Proof.
  unfold convertPixel. destruct (_ && _); rewrite !length_insert; reflexivity.
Qed.

Lemma convertPixel_write (pixels : list byte) (i : nat) (v0 v1 v2 v3 : byte) :
  (i * 4 + 3 < length pixels)%nat ->
  pixelAt (<[(i * 4 + 3)%nat := v3]> (<[(i * 4 + 2)%nat := v2]>
            (<[(i * 4 + 1)%nat := v1]> (<[(i * 4 + 0)%nat := v0]> pixels)))) i
  = Some (v0, v1, v2, v3).
Proof.
  intros Hlen. unfold pixelAt.
  rewrite (list_lookup_insert_ne _ (i * 4 + 3) (i * 4 + 0)) by lia.
  rewrite (list_lookup_insert_ne _ (i * 4 + 2) (i * 4 + 0)) by lia.
  rewrite (list_lookup_insert_ne _ (i * 4 + 1) (i * 4 + 0)) by lia.
  rewrite (list_lookup_insert_eq _ (i * 4 + 0)) by lia.
  rewrite (list_lookup_insert_ne _ (i * 4 + 3) (i * 4 + 1)) by lia.
  rewrite (list_lookup_insert_ne _ (i * 4 + 2) (i * 4 + 1)) by lia.
  rewrite (list_lookup_insert_eq _ (i * 4 + 1)) by (rewrite !length_insert; lia).
  rewrite (list_lookup_insert_ne _ (i * 4 + 3) (i * 4 + 2)) by lia.
  rewrite (list_lookup_insert_eq _ (i * 4 + 2)) by (rewrite !length_insert; lia).
  rewrite (list_lookup_insert_eq _ (i * 4 + 3)) by (rewrite !length_insert; lia).
  reflexivity.
Qed.

Lemma convertPixel_same (ck : bool) (palette indices pixels : list byte) (i : nat) :
  (i * 4 + 3 < length pixels)%nat ->
  pixelAt (convertPixel ck palette indices pixels i) i
  = Some (specPixel ck palette (indices !! i)).
Proof.
  intros Hlen. unfold convertPixel, specPixel, paletteEntry.
  destruct (indices !! i) as [ix|].
  - destruct (ck && Byte.eqb ix x00); apply convertPixel_write; exact Hlen.
  - rewrite andb_false_r. apply convertPixel_write; exact Hlen.
Qed.

Lemma convertPixel_other (ck : bool) (palette indices pixels : list byte) (i j : nat) :
  i <> j ->
  pixelAt (convertPixel ck palette indices pixels i) j = pixelAt pixels j.
Proof.
  intros Hne. unfold pixelAt, convertPixel.
  destruct (_ && _); rewrite !list_lookup_insert_ne by lia; reflexivity.
Qed.

(** After the first [m] passes the first [m] pixels are converted. *)
Lemma convert_prefix (ck : bool) (palette indices init : list byte) (m : nat) :
  (m * 4 <= length init)%nat ->
  length (fold_left (convertPixel ck palette indices) (seq 0 m) init) = length init /\
  forall i : nat, (i < m)%nat ->
    pixelAt (fold_left (convertPixel ck palette indices) (seq 0 m) init) i
    = Some (specPixel ck palette (indices !! i)).
Proof.
  induction m as [|m IH]; intros Hm.
  - split; [reflexivity | intros i Hi; lia].
  - rewrite seq_S, fold_left_app. cbn [fold_left Nat.add].
    destruct IH as [IHl IHp]; [lia|]. split.
    + rewrite convertPixel_length. exact IHl.
    + intros i Hi. destruct (decide (i = m)) as [-> | Hne].
      * apply convertPixel_same. rewrite IHl. lia.
      * rewrite convertPixel_other by auto. apply IHp. lia.
Qed.

Lemma convert_pixels (ck : bool) (palette indices : list byte) (pixelCount : nat) :
  length (convert ck palette indices pixelCount) = (pixelCount * 4)%nat /\
  forall i : nat, (i < pixelCount)%nat ->
    pixelAt (convert ck palette indices pixelCount) i
    = Some (specPixel ck palette (indices !! i)).
Proof.
  unfold convert.
  destruct (convert_prefix ck palette indices (replicate (pixelCount * 4) x00) pixelCount)
    as [Hl Hp]; [rewrite length_replicate; lia|].
  rewrite length_replicate in Hl. auto.
Qed.

Lemma le_value_nonneg (bs : list byte) : 0 <= DataView.le_value bs.
Proof.
  induction bs as [|b bs IH]; simpl; [lia|].
  unfold DataView.u8. lia.
Qed.

Lemma unsignedAt_nonneg (buf : list byte) (off : Z) (n : nat) (le : bool) (v : Z) :
  DataView.unsignedAt buf off n le = Some v -> 0 <= v.
Proof.
  unfold DataView.unsignedAt. destruct (DataView.bytesAt buf off n); [|discriminate].
  intros [= <-]. apply le_value_nonneg.
Qed.

(** A palette of 768 bytes has every entry. *)
Lemma paletteEntry_full (palette : list byte) (ix : byte) :
  length palette = 768%nat ->
  exists r g b,
    paletteEntry palette ix = (r, g, b) /\
    palette !! (Byte.to_nat ix * 3 + 0)%nat = Some r /\
    palette !! (Byte.to_nat ix * 3 + 1)%nat = Some g /\
    palette !! (Byte.to_nat ix * 3 + 2)%nat = Some b.
Proof.
  intros Hlen. pose proof (Byte.to_nat_bounded ix) as Hb. unfold paletteEntry.
  destruct (lookup_lt_is_Some_2 palette (Byte.to_nat ix * 3 + 0)) as [r Hr]; [lia|].
  destruct (lookup_lt_is_Some_2 palette (Byte.to_nat ix * 3 + 1)) as [g Hg]; [lia|].
  destruct (lookup_lt_is_Some_2 palette (Byte.to_nat ix * 3 + 2)) as [b Hb']; [lia|].
  exists r, g, b. rewrite Hr, Hg, Hb'. auto.
Qed.

(** The decoder's result is the padded expansion. *)
Lemma decompressRLE_output (src : list byte) (srcOffset n : nat) :
  exists warned, decompressRLE src srcOffset n = Some (expectedOutput src srcOffset n, warned).
Proof.
  unfold decompressRLE.
  destruct (rleLoop_written src n (length src) []
              (mkRle (replicate n x00) srcOffset 0)) as (st' & Hl & Ho).
  - repeat split; cbn [length out dstPos]; [rewrite Nat.sub_0_r; reflexivity | lia].
  - cbn [srcPos]. lia.
  - rewrite Hl. cbn [srcPos app] in Ho. rewrite Ho. eexists. reflexivity.
Qed.

(** The bytes a little-endian read is made of. *)
Lemma getUint16_bytes (buf : list byte) (off : nat) (v : Z) :
  DataView.getUint16 buf (Z.of_nat off) true = Some v ->
  exists a b : byte,
    buf !! off = Some a /\ buf !! (off + 1)%nat = Some b /\
    v = DataView.u8 a + 256 * DataView.u8 b.
Proof.
  unfold DataView.getUint16, DataView.unsignedAt, DataView.bytesAt.
  destruct (_ || _) eqn:E; [discriminate|]. intros [= <-].
  apply orb_false_iff in E as [_ E]. apply Z.ltb_ge in E.
  rewrite Nat2Z.id.
  assert (2 <= length (drop off buf))%nat as Hl by (rewrite length_drop; lia).
  pose proof (lookup_drop buf off 0) as L0. pose proof (lookup_drop buf off 1) as L1.
  destruct (drop off buf) as [|a [|b rest]]; cbn in Hl; try lia.
  exists a, b. rewrite Nat.add_0_r in L0. rewrite <- L0, <- L1.
  split; [reflexivity|]. split; [reflexivity|].
  cbn -[Z.mul Z.add DataView.u8]. rewrite take_0. cbn [DataView.le_value]. lia.
Qed.

Lemma getUint32_bytes (buf : list byte) (off : nat) (v : Z) :
  DataView.getUint32 buf (Z.of_nat off) true = Some v ->
  exists a b c d : byte,
    buf !! off = Some a /\ buf !! (off + 1)%nat = Some b /\
    buf !! (off + 2)%nat = Some c /\ buf !! (off + 3)%nat = Some d /\
    v = DataView.u8 a + 256 * DataView.u8 b + 65536 * DataView.u8 c
        + 16777216 * DataView.u8 d.
Proof.
  unfold DataView.getUint32, DataView.unsignedAt, DataView.bytesAt.
  destruct (_ || _) eqn:E; [discriminate|]. intros [= <-].
  apply orb_false_iff in E as [_ E]. apply Z.ltb_ge in E.
  rewrite Nat2Z.id.
  assert (4 <= length (drop off buf))%nat as Hl by (rewrite length_drop; lia).
  pose proof (lookup_drop buf off 0) as L0. pose proof (lookup_drop buf off 1) as L1.
  pose proof (lookup_drop buf off 2) as L2. pose proof (lookup_drop buf off 3) as L3.
  destruct (drop off buf) as [|a [|b [|c [|d rest]]]]; cbn in Hl; try lia.
  exists a, b, c, d. rewrite Nat.add_0_r in L0. rewrite <- L0, <- L1, <- L2, <- L3.
  repeat (split; [reflexivity|]). cbn -[Z.mul Z.add DataView.u8]. rewrite take_0. cbn [DataView.le_value]. lia.
Qed.

(** C8.  For every frame [parse] returns.  Its width, height and flag
    word are the little-endian values of bytes 4-5, 6-7 and 12-15 of the
    buffer, and the pixel buffer has width * height * 4 bytes.  The
    active palette is the 768 bytes that follow the 16-byte header when
    the flag word has the flag 0x04 (embedded palette), and the palette
    the loader was given otherwise; the pixel data start after the header
    and the embedded palette, if any, and hold one palette index per
    pixel, run-length encoded when the flag word has the flag 0x02.  A
    pixel whose index is 0 under the colour-key flag 0x01 is (0,0,0,0);
    every other pixel that has an index has alpha 255 and the three
    bytes of the active palette at three times the index, a byte the
    palette does not have being 0; a pixel the payload is too short for
    is (0,0,0,255). *)
Theorem parse_pixels (loaderPalette buffer : list byte) (frame : PidFrame) :
  parse loaderPalette buffer = inr frame ->
  (exists b4 b5 b6 b7 b12 b13 b14 b15 : byte,
     buffer !! 4%nat = Some b4 /\ buffer !! 5%nat = Some b5 /\
     buffer !! 6%nat = Some b6 /\ buffer !! 7%nat = Some b7 /\
     buffer !! 12%nat = Some b12 /\ buffer !! 13%nat = Some b13 /\
     buffer !! 14%nat = Some b14 /\ buffer !! 15%nat = Some b15 /\
     width frame = DataView.u8 b4 + 256 * DataView.u8 b5 /\
     height frame = DataView.u8 b6 + 256 * DataView.u8 b7 /\
     flags frame = DataView.u8 b12 + 256 * DataView.u8 b13 + 65536 * DataView.u8 b14
                   + 16777216 * DataView.u8 b15) /\
  Z.of_nat (length (pixels frame)) = width frame * height frame * 4 /\
  forall i : nat, (i < Z.to_nat (width frame * height frame))%nat ->
    let palette :=
      if Z.land (flags frame) 4 =? 0 then loaderPalette else take 768 (drop 16 buffer) in
    let cursor := if Z.land (flags frame) 4 =? 0 then 16%nat else 784%nat in
    let indices :=
      if Z.land (flags frame) 2 =? 0
      then take (Z.to_nat (width frame * height frame)) (drop cursor buffer)
      else expectedOutput buffer cursor (Z.to_nat (width frame * height frame)) in
    (forall ix : byte, indices !! i = Some ix ->
       (Z.land (flags frame) 1 <> 0 -> ix = x00 ->
          pixelAt (pixels frame) i = Some (x00, x00, x00, x00)) /\
       (~ (Z.land (flags frame) 1 <> 0 /\ ix = x00) ->
          pixelAt (pixels frame) i
          = Some (default x00 (palette !! (Byte.to_nat ix * 3 + 0)%nat),
                  default x00 (palette !! (Byte.to_nat ix * 3 + 1)%nat),
                  default x00 (palette !! (Byte.to_nat ix * 3 + 2)%nat),
                  xff))) /\
    (indices !! i = None -> pixelAt (pixels frame) i = Some (x00, x00, x00, xff)).
Proof.
  unfold parse. destruct (negb _); [discriminate|].
  destruct (DataView.getUint16 buffer 4 true) as [w|] eqn:Hw; [|discriminate].
  destruct (DataView.getUint16 buffer 6 true) as [h|] eqn:Hh; [|discriminate].
  destruct (DataView.getInt16 buffer 8 true) as [ox|]; [|discriminate].
  destruct (DataView.getInt16 buffer 10 true) as [oy|]; [|discriminate].
  destruct (DataView.getUint32 buffer 12 true) as [fl|] eqn:Hfl; [|discriminate].
  destruct (activePalette loaderPalette buffer (flagSet fl PID_FLAG_HAS_PALETTE))
    as [palette cursor] eqn:Hpal.
  destruct (frameIndices buffer cursor (Z.to_nat (w * h)) (flagSet fl PID_FLAG_COMPRESSED))
    as [indices|] eqn:Hidx; [|discriminate].
  intros [= <-]. cbn [width height flags pixels].
  destruct (getUint16_bytes buffer 4 w Hw) as (b4 & b5 & L4 & L5 & Ew).
  destruct (getUint16_bytes buffer 6 h Hh) as (b6 & b7 & L6 & L7 & Eh).
  destruct (getUint32_bytes buffer 12 fl Hfl) as (b12 & b13 & b14 & b15 & L12 & L13 & L14 & L15 & Ef).
  split; [exists b4, b5, b6, b7, b12, b13, b14, b15; tauto|].
  apply unsignedAt_nonneg in Hw, Hh.
  destruct (convert_pixels (flagSet fl PID_FLAG_COLOR_KEY) palette indices (Z.to_nat (w * h)))
    as [Hlen Hpix].
  split; [rewrite Hlen; nia|].
  intros i Hi. specialize (Hpix i Hi).
  (* the palette and the indices, spelled out *)
  unfold activePalette, flagSet, PID_FLAG_HAS_PALETTE in Hpal.
  unfold frameIndices, flagSet, PID_FLAG_COMPRESSED in Hidx.
  assert (palette = (if Z.land fl 4 =? 0 then loaderPalette else take 768 (drop 16 buffer)) /\
          cursor = (if Z.land fl 4 =? 0 then 16%nat else 784%nat)) as [-> ->].
  { destruct (Z.land fl 4 =? 0); cbn [negb] in Hpal; injection Hpal as <- <-;
      split; reflexivity. }
  assert (indices =
          (if Z.land fl 2 =? 0
           then take (Z.to_nat (w * h))
                  (drop (if Z.land fl 4 =? 0 then 16%nat else 784%nat) buffer)
           else expectedOutput buffer (if Z.land fl 4 =? 0 then 16%nat else 784%nat)
                  (Z.to_nat (w * h)))) as ->.
  { destruct (Z.land fl 2 =? 0); cbn [negb] in Hidx.
    - injection Hidx as <-. unfold DataView.slice.
      replace (_ + Z.to_nat (w * h) - _)%nat with (Z.to_nat (w * h)) by lia. reflexivity.
    - destruct (decompressRLE_output buffer (if Z.land fl 4 =? 0 then 16%nat else 784%nat)
                  (Z.to_nat (w * h))) as [warned E].
      rewrite E in Hidx. injection Hidx as <-. reflexivity. }
  unfold flagSet, PID_FLAG_COLOR_KEY in Hpix |- *.
  cbv zeta. split.
  - intros ix Hix. rewrite Hix in Hpix. cbn [specPixel] in Hpix. split.
    + intros Hck ->. rewrite Hpix.
      destruct (Z.land fl 1 =? 0) eqn:E; [apply Z.eqb_eq in E; contradiction|]. reflexivity.
    + intros Hn. rewrite Hpix.
      destruct (negb (Z.land fl 1 =? 0) && Byte.eqb ix x00) eqn:E; [|reflexivity].
      exfalso. apply Hn. apply andb_true_iff in E as [E1 E2].
      split; [|apply Byte.byte_dec_bl; exact E2].
      apply negb_true_iff, Z.eqb_neq in E1. exact E1.
  - intros Hnone. rewrite Hnone in Hpix. exact Hpix.
Qed.

Lemma activePalette_cases (loaderPalette raw : list byte) :
  activePalette loaderPalette raw true = (DataView.slice raw 16 784, 784%nat) /\
  activePalette loaderPalette raw false = (loaderPalette, 16%nat).
Proof. split; reflexivity. Qed.

End PixelFacts.

(** The frame of the scenario: the first pixel has index 0 under the
    colour key and is transparent; the second has index 5 and the colour
    (10,20,30) of the loader's palette. *)
Lemma parse_pixels_witness :
  PidLoader.pixelAt
    (PidLoader.pixels
       (PidLoader.mkFrame 2 1 0 0 1 [x00; x00; x00; x00; x0a; x14; x1e; xff])) 0
  = Some (x00, x00, x00, x00) /\
  PidLoader.pixelAt
    (PidLoader.pixels
       (PidLoader.mkFrame 2 1 0 0 1 [x00; x00; x00; x00; x0a; x14; x1e; xff])) 1
  = Some (x0a, x14, x1e, xff).
Proof.
  pose proof (parse_pixels PidLoader.scenarioPalette PidLoader.scenarioFrame
                (PidLoader.mkFrame 2 1 0 0 1 [x00; x00; x00; x00; x0a; x14; x1e; xff])
                eq_refl) as (_ & _ & Hp).
  split.
  - destruct (Hp 0%nat ltac:(vm_compute; lia)) as [H _].
    apply (proj1 (H x00 eq_refl)); [discriminate | reflexivity].
  - destruct (Hp 1%nat ltac:(vm_compute; lia)) as [H _].
    apply (proj2 (H x05 eq_refl)). intros [_ E]. discriminate E.
Defined.

Example scenario_frame_decodes :
  PidLoader.parse PidLoader.scenarioPalette PidLoader.scenarioFrame
  = inr (PidLoader.mkFrame 2 1 0 0 1 [x00; x00; x00; x00; x0a; x14; x1e; xff]).
Proof. reflexivity. Qed.

(** A frame with the embedded-palette flag: the colour of index 1 is
    read from the 768 bytes after the header, not from the loader. *)
Example embedded_palette_is_used :
  PidLoader.parse PidLoader.scenarioPalette
    (["P"; "I"; "D"; x00; x01; x00; x01; x00; x00; x00; x00; x00; x04; x00; x00; x00]%byte
     ++ [x00; x00; x00; x07; x08; x09] ++ replicate 762%nat x00 ++ [x01])
  = inr (PidLoader.mkFrame 1 1 0 0 4 [x07; x08; x09; xff]).
Proof. reflexivity. Qed.

(** ** Level maps *)

Section LevelFacts.
Import WwdLoader.
Import Thrown.

(** *** Counting loops *)

Lemma upto_succ (n : nat) : upto (Z.of_nat (S n)) = upto (Z.of_nat n) ++ [Z.of_nat n].
Proof. unfold upto. rewrite !Nat2Z.id, seq_S, map_app. reflexivity. Qed.

Lemma upto_to_nat (n : Z) : upto n = upto (Z.of_nat (Z.to_nat n)).
Proof. unfold upto. rewrite Nat2Z.id. reflexivity. Qed.

(** *** The derived grid *)

Lemma buildCell_cellWrite (l : WwdLayer) (row : Z) (m : TileCollisionMap.t) (col : Z) :
  buildCell l row m col =
  match cellWrite l col row with
  | None => m
  | Some a => TileCollisionMap.set m col row a
  end.
Proof. unfold buildCell, cellWrite. destruct (isNegative _); reflexivity. Qed.

(** The value of a cell once the loops have passed it: what was
    written, or what the grid held when nothing was. *)
Lemma buildCell_get (l : WwdLayer) (row col : Z) (m : TileCollisionMap.t) (c r : Z) :
  TileCollisionMap.well_sized m -> TileCollisionMap.in_grid m c r ->
  TileCollisionMap.get (buildCell l row m col) c r =
  if (r =? row) && (c =? col)
  then match cellWrite l c r with
       | Some a => Some (TileCollisionMap.attr_code a)
       | None => TileCollisionMap.get m c r
       end
  else TileCollisionMap.get m c r.
Proof.
  intros Hs Hin. rewrite buildCell_cellWrite.
  destruct ((r =? row) && (c =? col)) eqn:E.
  - apply andb_true_iff in E as [->%Z.eqb_eq ->%Z.eqb_eq].
    destruct (cellWrite l col row); [|reflexivity]. apply get_set_same; auto.
  - destruct (cellWrite l col row); [|reflexivity]. apply get_set_other.
    intros [= -> ->]. rewrite !Z.eqb_refl in E. discriminate.
Qed.

Lemma buildCell_shape (l : WwdLayer) (row col : Z) (m : TileCollisionMap.t) :
  TileCollisionMap.well_sized m ->
  TileCollisionMap.well_sized (buildCell l row m col) /\
  TileCollisionMap.cols (buildCell l row m col) = TileCollisionMap.cols m /\
  TileCollisionMap.rows (buildCell l row m col) = TileCollisionMap.rows m.
Proof.
  intros Hs. rewrite buildCell_cellWrite. destruct (cellWrite l col row) as [a|]; [|auto].
  destruct (set_shape m col row a) as (E1 & E2 & _). split; [|auto].
  apply set_well_sized. exact Hs.
Qed.

Lemma buildRow_prefix (l : WwdLayer) (row : Z) (k : nat) (m : TileCollisionMap.t) :
  TileCollisionMap.well_sized m ->
  TileCollisionMap.well_sized (fold_left (buildCell l row) (upto (Z.of_nat k)) m) /\
  TileCollisionMap.cols (fold_left (buildCell l row) (upto (Z.of_nat k)) m)
    = TileCollisionMap.cols m /\
  TileCollisionMap.rows (fold_left (buildCell l row) (upto (Z.of_nat k)) m)
    = TileCollisionMap.rows m /\
  forall c r, TileCollisionMap.in_grid m c r ->
    TileCollisionMap.get (fold_left (buildCell l row) (upto (Z.of_nat k)) m) c r =
    if (r =? row) && (c <? Z.of_nat k)
    then match cellWrite l c r with
         | Some a => Some (TileCollisionMap.attr_code a)
         | None => TileCollisionMap.get m c r
         end
    else TileCollisionMap.get m c r.
Proof.
  intros Hs. induction k as [|k (IHs & IHc & IHr & IHg)].
  - repeat split; auto. intros c r [Hc _].
    replace (c <? Z.of_nat 0) with false by (symmetry; apply Z.ltb_ge; lia).
    rewrite andb_false_r. reflexivity.
  - rewrite upto_succ, fold_left_app. cbn [fold_left].
    set (mk := fold_left (buildCell l row) (upto (Z.of_nat k)) m) in *.
    destruct (buildCell_shape l row (Z.of_nat k) mk IHs) as (Hs' & Hc' & Hr').
    split; [exact Hs'|]. split; [congruence|]. split; [congruence|].
    intros c r Hin.
    assert (TileCollisionMap.in_grid mk c r) as Hin'
      by (unfold TileCollisionMap.in_grid in *; rewrite IHc, IHr; exact Hin).
    rewrite buildCell_get by auto. rewrite (IHg c r Hin).
    destruct (r =? row) eqn:Er; cbn [andb]; [|reflexivity].
    destruct (c =? Z.of_nat k) eqn:Ek.
    + apply Z.eqb_eq in Ek.
      replace (c <? Z.of_nat (S k)) with true by (symmetry; apply Z.ltb_lt; lia).
      replace (c <? Z.of_nat k) with false by (symmetry; apply Z.ltb_ge; lia).
      reflexivity.
    + apply Z.eqb_neq in Ek.
      replace (c <? Z.of_nat (S k)) with (c <? Z.of_nat k); [reflexivity|].
      destruct (c <? Z.of_nat k) eqn:E; symmetry;
        [apply Z.ltb_lt; apply Z.ltb_lt in E | apply Z.ltb_ge; apply Z.ltb_ge in E]; lia.
Qed.

Lemma buildRow_get (l : WwdLayer) (row : Z) (m : TileCollisionMap.t) :
  TileCollisionMap.well_sized m -> TileCollisionMap.cols m = tilesWide l ->
  TileCollisionMap.well_sized (buildRow l m row) /\
  TileCollisionMap.cols (buildRow l m row) = TileCollisionMap.cols m /\
  TileCollisionMap.rows (buildRow l m row) = TileCollisionMap.rows m /\
  forall c r, TileCollisionMap.in_grid m c r ->
    TileCollisionMap.get (buildRow l m row) c r =
    if r =? row
    then match cellWrite l c r with
         | Some a => Some (TileCollisionMap.attr_code a)
         | None => TileCollisionMap.get m c r
         end
    else TileCollisionMap.get m c r.
Proof.
  intros Hs Hc. unfold buildRow. rewrite upto_to_nat.
  destruct (buildRow_prefix l row (Z.to_nat (tilesWide l)) m Hs) as (A & B & C & D).
  repeat split; auto. intros c r Hin. rewrite (D c r Hin).
  replace (c <? Z.of_nat (Z.to_nat (tilesWide l))) with true; [rewrite andb_true_r; reflexivity|].
  symmetry. apply Z.ltb_lt. destruct Hin as [Hin _]. rewrite Hc in Hin. lia.
Qed.

Lemma buildRows_prefix (l : WwdLayer) (j : nat) (m : TileCollisionMap.t) :
  TileCollisionMap.well_sized m -> TileCollisionMap.cols m = tilesWide l ->
  TileCollisionMap.well_sized (fold_left (buildRow l) (upto (Z.of_nat j)) m) /\
  TileCollisionMap.cols (fold_left (buildRow l) (upto (Z.of_nat j)) m)
    = TileCollisionMap.cols m /\
  TileCollisionMap.rows (fold_left (buildRow l) (upto (Z.of_nat j)) m)
    = TileCollisionMap.rows m /\
  forall c r, TileCollisionMap.in_grid m c r ->
    TileCollisionMap.get (fold_left (buildRow l) (upto (Z.of_nat j)) m) c r =
    if r <? Z.of_nat j
    then match cellWrite l c r with
         | Some a => Some (TileCollisionMap.attr_code a)
         | None => TileCollisionMap.get m c r
         end
    else TileCollisionMap.get m c r.
Proof.
  intros Hs Hc. induction j as [|j (IHs & IHc & IHr & IHg)].
  - repeat split; auto. intros c r [_ Hr].
    replace (r <? Z.of_nat 0) with false by (symmetry; apply Z.ltb_ge; lia). reflexivity.
  - rewrite upto_succ, fold_left_app. cbn [fold_left].
    set (mj := fold_left (buildRow l) (upto (Z.of_nat j)) m) in *.
    destruct (buildRow_get l (Z.of_nat j) mj IHs) as (Hs' & Hc' & Hr' & Hg'); [congruence|].
    split; [exact Hs'|]. split; [congruence|]. split; [congruence|].
    intros c r Hin.
    assert (TileCollisionMap.in_grid mj c r) as Hin'
      by (unfold TileCollisionMap.in_grid in *; rewrite IHc, IHr; exact Hin).
    rewrite (Hg' c r Hin'), (IHg c r Hin).
    destruct (r =? Z.of_nat j) eqn:Ej.
    + apply Z.eqb_eq in Ej.
      replace (r <? Z.of_nat (S j)) with true by (symmetry; apply Z.ltb_lt; lia).
      replace (r <? Z.of_nat j) with false by (symmetry; apply Z.ltb_ge; lia).
      reflexivity.
    + apply Z.eqb_neq in Ej.
      replace (r <? Z.of_nat (S j)) with (r <? Z.of_nat j); [reflexivity|].
      destruct (r <? Z.of_nat j) eqn:E; symmetry;
        [apply Z.ltb_lt; apply Z.ltb_lt in E | apply Z.ltb_ge; apply Z.ltb_ge in E]; lia.
Qed.

(** Every cell of the grid that [buildCollisionMap] returns holds what
    the loop wrote for its tile, or 0 when it wrote nothing. *)
Lemma buildCollisionMap_get (l : WwdLayer) (m : TileCollisionMap.t) (col row : Z) :
  buildCollisionMap (Some l) = inr m ->
  0 <= col < tilesWide l -> 0 <= row < tilesHigh l ->
  TileCollisionMap.get m col row =
  match cellWrite l col row with
  | Some a => Some (TileCollisionMap.attr_code a)
  | None => Some 0
  end.
Proof.
  unfold buildCollisionMap.
  destruct (TileCollisionMap.create _ _ _) as [m0|] eqn:Hm0; [|discriminate].
  intros [= <-] Hc Hr.
  destruct (create_well_sized _ _ _ _ Hm0) as (Hs & Ec & Er).
  rewrite upto_to_nat.
  destruct (buildRows_prefix l (Z.to_nat (tilesHigh l)) m0 Hs Ec) as (_ & _ & _ & Hg).
  assert (TileCollisionMap.in_grid m0 col row) as Hin
    by (unfold TileCollisionMap.in_grid; rewrite Ec, Er; auto).
  rewrite (Hg col row Hin).
  replace (row <? Z.of_nat (Z.to_nat (tilesHigh l))) with true
    by (symmetry; apply Z.ltb_lt; lia).
  rewrite (get_create _ _ _ _ _ _ Hm0 Hin). reflexivity.
Qed.

(** *** Tiles are signed 32-bit values *)

Lemma le_value_bound (bs : list byte) : 0 <= DataView.le_value bs < 256 ^ Z.of_nat (length bs).
Proof.
  induction bs as [|b bs IH]; [simpl; lia|].
  cbn [DataView.le_value length]. rewrite Nat2Z.inj_succ, Z.pow_succ_r by lia.
  assert (0 <= DataView.u8 b < 256).
  { unfold DataView.u8. pose proof (Byte.to_N_bounded b). lia. }
  lia.
Qed.

Lemma bytesAt_length (buf : list byte) (off : Z) (n : nat) (bs : list byte) :
  DataView.bytesAt buf off n = Some bs -> length bs = n.
Proof.
  unfold DataView.bytesAt.
  destruct (off <? 0) eqn:E1; [discriminate|].
  destruct (Z.of_nat (length buf) <? off + Z.of_nat n) eqn:E2; [discriminate|].
  intros [= <-]. apply Z.ltb_ge in E1, E2.
  rewrite length_take, length_drop. lia.
Qed.

Lemma bytesAt_some (buf : list byte) (off : Z) (n : nat) :
  0 <= off -> off + Z.of_nat n <= Z.of_nat (length buf) ->
  is_Some (DataView.bytesAt buf off n).
Proof.
  intros H0 H1. unfold DataView.bytesAt.
  replace (off <? 0) with false by (symmetry; apply Z.ltb_ge; lia).
  replace (Z.of_nat (length buf) <? off + Z.of_nat n) with false
    by (symmetry; apply Z.ltb_ge; lia).
  eauto.
Qed.

Lemma getInt32_int32 (buf : list byte) (off : Z) (le : bool) (v : Z) :
  DataView.getInt32 buf off le = Some v -> int32 v.
Proof.
  unfold DataView.getInt32, DataView.unsignedAt.
  destruct (DataView.bytesAt buf off 4) as [bs|] eqn:Hb; [|discriminate].
  apply bytesAt_length in Hb. intros [= <-].
  pose proof (le_value_bound (if le then bs else rev bs)) as Hv.
  replace (length (if le then bs else rev bs)) with 4%nat in Hv
    by (destruct le; rewrite ?length_rev; auto).
  unfold DataView.toSigned, int32.
  change (256 ^ Z.of_nat 4) with 4294967296 in Hv.
  change (2 ^ (32 - 1)) with 2147483648. change (2 ^ 32) with 4294967296.
  change (2 ^ 31) with 2147483648.
  destruct (_ <? _) eqn:E; [apply Z.ltb_lt in E | apply Z.ltb_ge in E]; lia.
Qed.

Lemma getInt32_some (buf : list byte) (off : Z) (le : bool) :
  0 <= off -> off + 4 <= Z.of_nat (length buf) ->
  is_Some (DataView.getInt32 buf off le).
Proof.
  intros H0 H1. unfold DataView.getInt32, DataView.unsignedAt.
  destruct (bytesAt_some buf off 4 H0) as [bs ->]; [lia|]. simpl. eauto.
Qed.

Lemma getUint32_nonneg (buf : list byte) (off : Z) (le : bool) (v : Z) :
  DataView.getUint32 buf off le = Some v -> 0 <= v.
Proof. apply unsignedAt_nonneg. Qed.

(** A non-negative signed 32-bit value has no sign bit, and [&] with
    0x80000000 gives 0. *)
Lemma nonneg_int32_no_sign (t : Z) :
  0 <= t < 2 ^ 31 -> Z.testbit t 31 = false /\ bitAnd t 0x80000000 = 0.
Proof.
  intros [H0 H1].
  assert (forall n, 31 <= n -> Z.testbit t n = false) as Hhigh.
  { intros n Hn. destruct (Z.eq_dec t 0) as [-> | Hne]; [apply Z.bits_0|].
    apply Z.bits_above_log2; [lia|].
    assert (Z.log2 t < 31) by (apply Z.log2_lt_pow2; lia). lia. }
  split; [apply Hhigh; lia|].
  unfold bitAnd, toInt32, DataView.toSigned.
  change (2 ^ 32) with 4294967296. change (2 ^ (32 - 1)) with 2147483648.
  change (2 ^ 31) with 2147483648 in H1.
  rewrite (Z.mod_small t) by lia.
  change (2147483648 mod 4294967296) with 2147483648.
  replace (t <? 2147483648) with true by (symmetry; apply Z.ltb_lt; lia).
  change (2147483648 <? 2147483648) with false. cbn iota.
  change (2147483648 - 4294967296) with (Z.lnot (Z.ones 31)).
  assert (Z.land t (Z.lnot (Z.ones 31)) = 0) as ->.
  { apply Z.bits_inj'. intros n Hn. rewrite Z.land_spec, Z.lnot_spec, Z.bits_0 by lia.
    destruct (Z_lt_le_dec n 31) as [Hlt | Hge].
    - rewrite Z.ones_spec_low by lia. apply andb_false_r.
    - rewrite Hhigh by lia. reflexivity. }
  reflexivity.
Qed.

(** The three cases of the derivation rule, for a signed 32-bit tile. *)
Lemma cellWrite_cases (l : WwdLayer) (col row t : Z) :
  tileAt l col row = Some t -> int32 t ->
  (t < 0 -> cellWrite l col row = None) /\
  (0 <= t -> signBitSet t \/ t = 0 -> cellWrite l col row = Some TileCollisionMap.Solid) /\
  (0 <= t -> ~ (signBitSet t \/ t = 0) -> cellWrite l col row = Some TileCollisionMap.Empty).
Proof.
  unfold tileAt, cellWrite. intros -> Hr. unfold isNegative, isSolidTile, signBitSet.
  split; [|split].
  - intros Hneg. replace (t <? 0) with true by (symmetry; apply Z.ltb_lt; lia). reflexivity.
  - intros Hpos Hs. replace (t <? 0) with false by (symmetry; apply Z.ltb_ge; lia).
    destruct (nonneg_int32_no_sign t) as [Hb Ha]; [unfold int32 in Hr; lia|].
    destruct Hs as [Hs | ->]; [congruence|]. reflexivity.
  - intros Hpos Hs. replace (t <? 0) with false by (symmetry; apply Z.ltb_ge; lia).
    destruct (nonneg_int32_no_sign t) as [Hb Ha]; [unfold int32 in Hr; lia|].
    rewrite Ha. replace (t =? 0) with false; [reflexivity|].
    symmetry. apply Z.eqb_neq. intros ->. apply Hs. right. reflexivity.
Qed.

(** *** Inverting the parser *)

Lemma collect_inr {A B : Type} (f : A -> result B) (l : list A) (bs : list B) :
  collect f l = inr bs -> Forall2 (fun a b => f a = inr b) l bs.
Proof.
  revert bs. induction l as [|a l IH]; intros bs; cbn [collect].
  - intros [= <-]. constructor.
  - destruct (f a) as [e|b] eqn:Ea; [discriminate|]. cbn [bind].
    destruct (collect f l) as [e|bs'] eqn:El; [discriminate|]. cbn [bind].
    intros [= <-]. constructor; auto.
Qed.

Lemma collect_Forall {A B : Type} (f : A -> result B) (P : B -> Prop) (l : list A) (bs : list B) :
  (forall a b, f a = inr b -> P b) -> collect f l = inr bs -> Forall P bs.
Proof.
  intros Hf Hc. apply collect_inr in Hc.
  induction Hc; constructor; eauto.
Qed.

Lemma collect_length {A B : Type} (f : A -> result B) (l : list A) (bs : list B) :
  collect f l = inr bs -> length bs = length l.
Proof. intros Hc. apply collect_inr in Hc. symmetry. eapply Forall2_length; eauto. Qed.

Lemma read_inr {A : Type} (o : option A) (a : A) : read o = inr a -> o = Some a.
Proof. destruct o; [intros [= ->]; reflexivity | discriminate]. Qed.

Lemma int32Array_inr (buffer : list byte) (byteOffset len : Z) (ts : list Z) :
  int32Array buffer byteOffset len = inr ts ->
  Z.of_nat (length ts) = len /\ Forall int32 ts.
Proof.
  unfold int32Array. destruct (_ || _) eqn:E; [discriminate|].
  apply orb_false_iff in E as [E _]. apply orb_false_iff in E as [_ E].
  apply Z.ltb_ge in E. intros Hc. split.
  - apply collect_length in Hc. rewrite Hc, length_seq. lia.
  - eapply collect_Forall; [|exact Hc]. intros i v Hv. cbv beta in Hv.
    apply read_inr in Hv. eapply getInt32_int32; eauto.
Qed.

(** Peels the successful reads off a parser call that returned. *)
Ltac bind_inv H :=
  repeat match type of H with
         | bind ?e _ = inr _ =>
             let E := fresh "E" in
             destruct e eqn:E; [discriminate H|]; cbn [bind] in H
         end.

Lemma parseLayerHeader_invariant (buffer : list byte) (base : Z) (l : WwdLayer) :
  parseLayerHeader buffer base = inr l -> layerInvariant l.
Proof.
  unfold parseLayerHeader. intros H. cbv beta zeta in H. bind_inv H.
  injection H as <-. unfold layerInvariant. cbn [tiles tilesWide tilesHigh].
  eapply int32Array_inr; eauto.
Qed.

(** What a returned level was built from. *)
Lemma parse_inr (buffer : list byte) (level : WwdLevel) :
  parse buffer = inr level ->
  exists layerCount layerOffset,
    declaredLayerCount buffer = Some layerCount /\
    collect (fun i => parseLayerHeader buffer (layerOffset + i * LAYER_HEADER_SIZE))
            (upto (Z.min layerCount MAX_LAYERS)) = inr (layers level) /\
    buildCollisionMap (actionLayer (layers level)) = inr (collisionMap level).
Proof.
  unfold parse. intros H. cbv beta zeta in H. bind_inv H.
  injection H as <-. cbn [layers collisionMap].
  match goal with
  | Hc : collect _ (upto (Z.min ?lc _)) = inr _ |- _ =>
      match type of Hc with
      | context [?lo + _ * LAYER_HEADER_SIZE] => exists lc, lo
      end
  end.
  unfold declaredLayerCount. repeat split; auto.
  match goal with
  | Hr : read (DataView.getUint32 buffer 1496 true) = inr _ |- _ =>
      apply read_inr in Hr; exact Hr
  end.
Qed.

Lemma actionLayer_some (ls : list WwdLayer) (l : WwdLayer) :
  actionLayer ls = Some l ->
  (ls !! 1%nat = Some l \/ (ls !! 1%nat = None /\ ls !! 0%nat = Some l)) /\ In l ls.
Proof.
  unfold actionLayer. destruct (ls !! 1%nat) as [l1|] eqn:E1.
  - intros [= ->]. split; [auto|]. apply list_elem_of_In. eapply list_elem_of_lookup_2; eauto.
  - intros E0. split; [auto|]. apply list_elem_of_In. eapply list_elem_of_lookup_2; eauto.
Qed.

(** C2.  In every level [parse] returns, the collision grid is built
    from the layer at index 1, or from the layer at index 0 when there
    is no layer at index 1; and for every cell of that layer, with tile
    index t: the grid cell is Empty (0) when t is negative, Solid (1)
    when t is non-negative and has its sign bit set or is 0, and Empty
    (0) for every other non-negative t. *)
Theorem collision_grid_of_parsed_level (buffer : list byte) (level : WwdLevel) :
  parse buffer = inr level ->
  exists layer : WwdLayer,
    (layers level !! 1%nat = Some layer \/
     (layers level !! 1%nat = None /\ layers level !! 0%nat = Some layer)) /\
    buildCollisionMap (Some layer) = inr (collisionMap level) /\
    forall col row : Z,
      0 <= col < tilesWide layer -> 0 <= row < tilesHigh layer ->
      exists t : Z,
        tileAt layer col row = Some t /\
        (t < 0 ->
           TileCollisionMap.get (collisionMap level) col row
           = Some (TileCollisionMap.attr_code TileCollisionMap.Empty)) /\
        (0 <= t -> signBitSet t \/ t = 0 ->
           TileCollisionMap.get (collisionMap level) col row
           = Some (TileCollisionMap.attr_code TileCollisionMap.Solid)) /\
        (0 <= t -> ~ (signBitSet t \/ t = 0) ->
           TileCollisionMap.get (collisionMap level) col row
           = Some (TileCollisionMap.attr_code TileCollisionMap.Empty)).
Proof.
  intros Hp. destruct (parse_inr buffer level Hp) as (lc & lo & _ & Hls & Hcm).
  destruct (actionLayer (layers level)) as [layer|] eqn:Ha; [|discriminate].
  destruct (actionLayer_some _ _ Ha) as [Hwhich Hin].
  exists layer. split; [exact Hwhich|]. split; [exact Hcm|].
  assert (layerInvariant layer) as [Hlen Hrange].
  { eapply collect_Forall in Hls; [|intros i b Hb; eapply parseLayerHeader_invariant; exact Hb].
    rewrite Forall_forall in Hls. apply Hls. apply list_elem_of_In. exact Hin. }
  intros col row Hc Hr.
  assert (Z.to_nat (row * tilesWide layer + col) < length (tiles layer))%nat as Hidx by nia.
  destruct (lookup_lt_is_Some_2 _ _ Hidx) as [t Ht].
  exists t. split; [exact Ht|].
  assert (int32 t) as Hint.
  { rewrite Forall_forall in Hrange. apply Hrange.
    eapply list_elem_of_lookup_2; eauto. }
  pose proof (buildCollisionMap_get layer (collisionMap level) col row Hcm Hc Hr) as Hg.
  destruct (cellWrite_cases layer col row t Ht Hint) as (C1 & C2 & C3).
  split; [|split].
  - intros Hneg. rewrite Hg, (C1 Hneg). reflexivity.
  - intros H0 Hs. rewrite Hg, (C2 H0 Hs). reflexivity.
  - intros H0 Hs. rewrite Hg, (C3 H0 Hs). reflexivity.
Qed.

(** *** A header without layers *)

Lemma read_i32_ok (buffer : list byte) (off : Z) :
  0 <= off -> off + 4 <= Z.of_nat (length buffer) ->
  exists v, read (DataView.getInt32 buffer off true) = inr v.
Proof.
  intros H0 H1. destruct (getInt32_some buffer off true H0 H1) as [v ->]. eauto.
Qed.

Lemma read_u32_ok (buffer : list byte) (off : Z) :
  0 <= off -> off + 4 <= Z.of_nat (length buffer) ->
  exists v, read (DataView.getUint32 buffer off true) = inr v.
Proof.
  intros H0 H1. destruct (proj2 (getUint32_some buffer off true)) as [v ->]; [lia|]. eauto.
Qed.

(** Rewrites the next read of a record whose bytes are in the buffer. *)
Ltac read_next :=
  match goal with
  | |- context [read (DataView.getInt32 ?b ?o true)] =>
      let v := fresh "v" in
      let E := fresh "E" in
      destruct (read_i32_ok b o) as [v E]; [lia | lia | rewrite E; cbn [bind]]
  | |- context [read (DataView.getUint32 ?b ?o true)] =>
      let v := fresh "v" in
      let E := fresh "E" in
      destruct (read_u32_ok b o) as [v E]; [lia | lia | rewrite E; cbn [bind]]
  end.

(** A record that lies in the buffer is read without a throw. *)
Lemma parseObject_ok (buffer : list byte) (base : Z) :
  0 <= base -> base + OBJECT_ENTRY_SIZE <= Z.of_nat (length buffer) ->
  exists o, parseObject buffer base = inr o.
Proof.
  unfold OBJECT_ENTRY_SIZE. intros H0 H1. unfold parseObject. cbv beta zeta.
  cbn [collect]. repeat read_next. eauto.
Qed.

Lemma parseObjects_ok (n : nat) (buffer : list byte) (objectsOffset i : Z) :
  0 <= objectsOffset -> 0 <= i ->
  exists os, parseObjects n buffer objectsOffset i = inr os.
Proof.
  intros Ho. revert i. induction n as [|n IH]; intros i Hi; cbn [parseObjects]; [eauto|].
  destruct (_ <? _) eqn:E; [eauto|]. apply Z.ltb_ge in E.
  destruct (parseObject_ok buffer (objectsOffset + i * OBJECT_ENTRY_SIZE)) as [o ->];
    [unfold OBJECT_ENTRY_SIZE; lia | exact E |].
  destruct (IH (i + 1)) as [os ->]; [lia|]. cbn [bind]. eauto.
Qed.

(** C10.  A returned level has at least one layer, and its header does
    not declare zero layers.  For a buffer that holds the header fields,
    passes the signature test and declares zero layers, [parse] ends in
    the TypeError of reading a field of the missing layer: no level, and
    not the parser's own signature error. *)
Theorem parse_without_layers (buffer : list byte) :
  (forall level : WwdLevel,
     parse buffer = inr level ->
     layers level <> [] /\ declaredLayerCount buffer <> Some 0) /\
  (declaredLayerCount buffer = Some 0 ->
   checkMagic buffer = inr tt ->
   0x5E8 <= Z.of_nat (length buffer) ->
   parse buffer = inl TypeError /\ buildCollisionMap (actionLayer []) = inl TypeError).
Proof.
  split.
  - intros level Hp. destruct (parse_inr buffer level Hp) as (lc & lo & Hlc & Hls & Hcm).
    split.
    + intros Hnil. rewrite Hnil in Hcm. discriminate.
    + intros H0. rewrite H0 in Hlc. injection Hlc as <-.
      cbn in Hls. injection Hls as Hnil. rewrite <- Hnil in Hcm. discriminate.
  - intros Hlc Hm Hlen. split; [|reflexivity].
    unfold declaredLayerCount in Hlc. unfold parse. cbv beta zeta.
    rewrite Hm. cbn [bind].
    do 4 read_next. rewrite Hlc. cbn [read bind]. do 3 read_next.
    change (upto (Z.min 0 MAX_LAYERS)) with (@nil Z). cbn [collect bind].
    match goal with
    | |- context [parseObjects ?n buffer ?o 0] =>
        destruct (parseObjects_ok n buffer o 0) as [os ->]; [|lia|]
    end.
    + eapply getUint32_nonneg. apply read_inr. eassumption.
    + reflexivity.
Qed.

End LevelFacts.

(** The sample level: its only layer, at index 0, is the collision
    source. *)
Lemma collision_grid_of_parsed_level_witness :
  exists layer : WwdLoader.WwdLayer,
    (WwdLoader.layers (WwdLoader.parsed WwdLoader.sampleLevel) !! 1%nat = Some layer \/
     (WwdLoader.layers (WwdLoader.parsed WwdLoader.sampleLevel) !! 1%nat = None /\
      WwdLoader.layers (WwdLoader.parsed WwdLoader.sampleLevel) !! 0%nat = Some layer)) /\
    WwdLoader.buildCollisionMap (Some layer)
    = inr (WwdLoader.collisionMap (WwdLoader.parsed WwdLoader.sampleLevel)).
Proof.
  destruct (collision_grid_of_parsed_level WwdLoader.sampleLevel
              (WwdLoader.parsed WwdLoader.sampleLevel)) as (layer & H1 & H2 & _).
  - vm_compute. reflexivity.
  - exists layer. split; [exact H1 | exact H2].
Defined.

(** Its tiles -1, 0, 5, 12 give the cells Empty, Solid, Empty, Empty. *)
Example sample_level_cells :
  map (fun '(col, row) =>
         TileCollisionMap.get (WwdLoader.collisionMap (WwdLoader.parsed WwdLoader.sampleLevel))
                              col row)
      [(0, 0); (1, 0); (0, 1); (1, 1); (2, 0)]
  = [Some 0; Some 1; Some 0; Some 0; Some 1].
Proof. vm_compute. reflexivity. Qed.

(** A well-formed header that declares no layer. *)
Lemma parse_without_layers_witness :
  WwdLoader.parse (WwdLoader.sampleHeader 0) = inl Thrown.TypeError /\
  WwdLoader.buildCollisionMap (WwdLoader.actionLayer []) = inl Thrown.TypeError.
Proof.
  apply (proj2 (parse_without_layers (WwdLoader.sampleHeader 0))).
  - reflexivity.
  - reflexivity.
  - vm_compute. discriminate.
Defined.


(** ** Pixel lookups *)

Section PixelLookupFacts.
Import TileCollisionMap.
Open Scope Q_scope.









End PixelLookupFacts.


(** ** The physics step as a whole *)

Section StepFacts.
Import Number PhysicsSystem.

(** The gravity term touches nothing but the property of the vertical
    velocity component. *)
Lemma applyGravity_frame (b : Body) :
  posX (applyGravity b) = posX b /\ posY (applyGravity b) = posY b /\
  velX (applyGravity b) = velX b /\ onGround (applyGravity b) = onGround b /\
  onLadder (applyGravity b) = onLadder b /\
  width (applyGravity b) = width b /\ height (applyGravity b) = height b /\
  stored (velY (applyGravity b)) = stored (velY b).
Proof.
  unfold applyGravity. destruct (negb _); [|tauto].
  destruct (gt _ _); cbn; tauto.
Qed.

Lemma updateEntity_frame (cm : option TileCollisionMap.t) (eid : nat) (b : Body) :
  prevX (fst (updateEntity cm eid b)) = posX b /\
  prevY (fst (updateEntity cm eid b)) = posY b /\
  width (fst (updateEntity cm eid b)) = width b /\
  height (fst (updateEntity cm eid b)) = height b /\
  onLadder (fst (updateEntity cm eid b)) = onLadder b.
Proof.
  unfold updateEntity, verticalStage, horizontalStage.
  destruct (applyGravity_frame b) as (E1 & E2 & E3 & E4 & E5 & E6 & E7 & E8).
  destruct (blocked (verticalResult _ _ _)); destruct (blocked (horizontalResult _ _ _));
    try destruct (gt _ _); cbn; auto.
Qed.

(** X3.  A physics step keeps the entities, their order, their sizes
    and their ladder flags, and records for each the position it had
    before the step as its previous position. *)
Theorem update_keeps_identity_and_baseline
    (cm : option TileCollisionMap.t) (dt : Number.t) (entities : list (nat * Body)) :
  Forall2 (fun old new =>
             fst new = fst old /\
             width (snd new) = width (snd old) /\
             height (snd new) = height (snd old) /\
             onLadder (snd new) = onLadder (snd old) /\
             (cm <> None ->
              prevX (snd new) = posX (snd old) /\ prevY (snd new) = posY (snd old)))
          entities (fst (update cm dt entities)).
Proof.
  unfold update. destruct cm as [m|].
  - induction entities as [|[eid b] rest IH]; cbn [updateAll]; [constructor|].
    destruct (updateEntity (Some m) eid b) as [b' evs] eqn:E.
    destruct (updateAll (Some m) rest) as [rest' evs'].
    cbn [fst] in *. constructor; [|exact IH].
    pose proof (updateEntity_frame (Some m) eid b) as F. rewrite E in F. cbn [fst snd] in *.
    tauto.
  - cbn [fst]. induction entities as [|[eid b] rest IH]; constructor; auto.
    split; [reflexivity|]. split; [reflexivity|]. split; [reflexivity|].
    split; [reflexivity|]. intros Hn. exfalso. apply Hn. reflexivity.
Qed.

(** C9 (a defect of the code).  The body of [driftingHeld 0] is held by
    the entity store, off any ladder, with velocity.y = 5.  The gravity
    term looks for the ladder flag and the velocity on the component
    objects, finds neither, and leaves velocity.y at 5 where the store
    keeps it, for the whole step; the sum [undefined + 0.35] becomes a
    property [NaN] of the velocity component.  On a ladder the flag in
    the store is not seen either, and the same happens.  With the values
    written on the component objects the term does what is claimed of
    it: 5 becomes 5.35, 15.9 becomes 16, and a body on a ladder keeps
    its 5. *)
Theorem gravity_misses_the_stored_velocity :
  stored (velY (applyGravity (driftingHeld 0))) = Finite 5 /\
  own (velY (applyGravity (driftingHeld 0))) = JS.Num NaN /\
  stored (velY (fst (updateEntity (Some openCell) 0 (driftingHeld 0)))) = Finite 5 /\
  own (velY (applyGravity (driftingHeld 1))) = JS.Num NaN /\
  own (velY (applyGravity (driftingWritten 0))) = JS.Num (add (Finite 5) GRAVITY) /\
  own (velY (applyGravity
               (writtenBody (ofZ 100) (ofZ 100) (ofZ 0) (ofQ (159 # 10)) (ofZ 32) (ofZ 32)
                            (ofZ 0) (ofZ 0))))
  = JS.Num (Finite 16) /\
  own (velY (applyGravity (driftingWritten 1))) = JS.Num (Finite 5).
Proof. vm_compute. repeat split. Qed.

(** C5 (a defect of the code).  The body of [fallingHeld] is held by the
    entity store and falls at 10 px per tick towards the solid cell
    below it.  The step reads its velocity and size on the component
    objects, where they are undefined: the probes are [NaN], the
    vertical axis is not blocked, the position becomes [NaN], no event is
    emitted and the on-ground flag in the store is left alone.  A held
    body that rises with the flag 1 in the store keeps that 1 as well.
    With the values written on the component objects the falling body
    lands: it is put on the boundary, the flag property is set and the
    landing event carries the speed 10.35. *)
Theorem held_body_never_lands :
  updateEntity (Some floorCell) 7 fallingHeld
  = (mkBody NaN NaN (Finite 32) (Finite 40)
       (held (Finite 0)) (mkComponent (Finite 10) (JS.Num NaN))
       (mkComponent (Finite 0) (JS.Num (Finite 0))) (held (Finite 0))
       (held (Finite 32)) (held (Finite 32)),
     []) /\
  stored (onGround (fst (updateEntity (Some floorCell) 7
                           (heldBody (ofZ 32) (ofZ 20) (ofZ 0) (ofZ (-3)) (ofZ 32) (ofZ 32)
                                     (ofZ 1) (ofZ 0)))))
  = Finite 1 /\
  updateEntity (Some floorCell) 7 fallingWritten
  = (mkBody (Finite 32) (Finite 48) (Finite 32) (Finite 40)
       (written (Finite 0)) (mkComponent (Finite 10) (JS.Num (Finite 0)))
       (mkComponent (Finite 0) (JS.Num (Finite 1))) (written (Finite 0))
       (written (Finite 32)) (written (Finite 32)),
     [EntityLanded 7 (JS.Num (add (Finite 10) GRAVITY))]).
Proof. vm_compute. repeat split. Qed.


Lemma updateEntity_store (cm : option TileCollisionMap.t) (eid : nat) (b : Body) :
  stored (velX (fst (updateEntity cm eid b))) = stored (velX b) /\
  stored (velY (fst (updateEntity cm eid b))) = stored (velY b) /\
  stored (onGround (fst (updateEntity cm eid b))) = stored (onGround b).
Proof.
  unfold updateEntity, verticalStage, horizontalStage.
  destruct (applyGravity_frame b) as (E1 & E2 & E3 & E4 & E5 & E6 & E7 & E8).
  destruct (blocked (verticalResult _ _ _)); destruct (blocked (horizontalResult _ _ _));
    try destruct (gt _ _); cbn; rewrite ?E3, ?E4, ?E8; auto.
Qed.

(** X28.  A physics step never writes the typed arrays of the velocity
    and on-ground components: what the entity store holds for the
    velocity and the on-ground flag of an entity is after the step what
    it was before, whether or not the entity was blocked. *)
Theorem update_leaves_the_store_alone
    (cm : option TileCollisionMap.t) (dt : Number.t) (entities : list (nat * Body)) :
  Forall2 (fun old new =>
             stored (velX (snd new)) = stored (velX (snd old)) /\
             stored (velY (snd new)) = stored (velY (snd old)) /\
             stored (onGround (snd new)) = stored (onGround (snd old)))
          entities (fst (update cm dt entities)).
Proof.
  unfold update. destruct cm as [m|].
  - induction entities as [|[eid b] rest IH]; cbn [updateAll]; [constructor|].
    destruct (updateEntity (Some m) eid b) as [b' evs] eqn:E.
    destruct (updateAll (Some m) rest) as [rest' evs'].
    cbn [fst] in *. constructor; [|exact IH].
    pose proof (updateEntity_store (Some m) eid b) as F. rewrite E in F. exact F.
  - cbn [fst]. induction entities as [|[eid b] rest IH]; constructor; auto.
Qed.

(** Probes computed from an undefined size are [NaN], and no cell is
    solid there. *)
Lemma isSolid_NaN (cm : TileCollisionMap.t) :
  TileCollisionMap.OnNumbers.isSolid cm NaN NaN = false.
Proof. reflexivity. Qed.

Lemma leadingEdge_NaN (p v : Number.t) : leadingEdge p v NaN = NaN.
Proof.
  unfold leadingEdge. change (half NaN) with NaN.
  destruct (gt v (ofZ 0)); [apply add_NaN_r | apply sub_NaN_r].
Qed.

Lemma innerLow_NaN (p : Number.t) : innerLow p NaN = NaN.
Proof. unfold innerLow. change (half NaN) with NaN. rewrite sub_NaN_r. reflexivity. Qed.

Lemma innerHigh_NaN (p : Number.t) : innerHigh p NaN = NaN.
Proof. unfold innerHigh. change (half NaN) with NaN. rewrite add_NaN_r. reflexivity. Qed.

Lemma resolve_without_size (cm : TileCollisionMap.t) (x y vx vy : Number.t) :
  resolveAxisCollision (Some cm) x y vx vy NaN NaN horizontal = mkResolved x false /\
  resolveAxisCollision (Some cm) x y vx vy NaN NaN vertical = mkResolved y false.
Proof.
  rewrite resolve_horizontal, resolve_vertical.
  rewrite !leadingEdge_NaN, !innerLow_NaN, !innerHigh_NaN, !isSolid_NaN.
  split; reflexivity.
Qed.

(** X29.  A body whose size is not a property of the component objects,
    as is every body the entity store holds, is never blocked: whatever
    the grid, the step emits nothing for it, leaves it the velocity
    properties the gravity term gave it, writes 0 as the on-ground
    property, and moves it to the integrated position, which is [NaN]
    on an axis whose velocity property is undefined. *)
Theorem body_without_size_is_never_blocked
    (cm : TileCollisionMap.t) (eid : nat) (b : Body) :
  own (width b) = JS.Undefined -> own (height b) = JS.Undefined ->
  snd (updateEntity (Some cm) eid b) = [] /\
  own (onGround (fst (updateEntity (Some cm) eid b))) = JS.Num (Finite 0) /\
  velX (fst (updateEntity (Some cm) eid b)) = velX b /\
  velY (fst (updateEntity (Some cm) eid b)) = velY (applyGravity b) /\
  posX (fst (updateEntity (Some cm) eid b))
  = fround (add (posX b) (JS.toNumber (own (velX b)))) /\
  posY (fst (updateEntity (Some cm) eid b))
  = fround (add (posY b) (JS.toNumber (own (velY (applyGravity b))))) /\
  (own (velX b) = JS.Undefined -> posX (fst (updateEntity (Some cm) eid b)) = NaN) /\
  (own (velY b) = JS.Undefined -> posY (fst (updateEntity (Some cm) eid b)) = NaN).
Proof.
  intros Hw Hh.
  destruct (applyGravity_frame b) as (E1 & E2 & E3 & E4 & E5 & E6 & E7 & E8).
  assert (forall newX,
            horizontalStage (Some cm) newX (savePreviousPosition (applyGravity b))
            = set_posX (savePreviousPosition (applyGravity b)) newX) as HH.
  { intros newX. unfold horizontalStage, horizontalResult. cbn [width height posY velX
      savePreviousPosition]. rewrite E6, E7, Hw, Hh. cbn [JS.toNumber].
    rewrite (proj1 (resolve_without_size cm _ _ _ _)). reflexivity. }
  assert (forall newY b1,
            own (width b1) = JS.Undefined -> own (height b1) = JS.Undefined ->
            verticalStage (Some cm) eid newY b1
            = (set_onGround (set_posY b1 newY) (assign (onGround b1) (ofZ 0)), [])) as HV.
  { intros newY b1 Hw1 Hh1. unfold verticalStage, verticalResult.
    rewrite Hw1, Hh1. cbn [JS.toNumber].
    rewrite (proj2 (resolve_without_size cm _ _ _ _)). reflexivity. }
  unfold updateEntity. rewrite HH, HV by (cbn; rewrite ?E6, ?E7; assumption).
  cbn. rewrite E1, E2, E3.
  assert (own (velY b) = JS.Undefined -> JS.toNumber (own (velY (applyGravity b))) = NaN) as Hy.
  { intros Hv. unfold applyGravity. destruct (negb _); [|rewrite Hv; reflexivity].
    cbn. rewrite Hv. cbn. reflexivity. }
  repeat split.
  - intros Hv. rewrite Hv. cbn. rewrite add_NaN_r. reflexivity.
  - intros Hv. rewrite (Hy Hv), add_NaN_r. reflexivity.
Qed.

End StepFacts.

(** The falling body of the entity store, above a solid cell. *)
Lemma body_without_size_is_never_blocked_witness :
  snd (PhysicsSystem.updateEntity (Some PhysicsSystem.floorCell) 7 PhysicsSystem.fallingHeld)
  = [] /\
  PhysicsSystem.posY
    (fst (PhysicsSystem.updateEntity (Some PhysicsSystem.floorCell) 7
            PhysicsSystem.fallingHeld))
  = Number.NaN.
Proof.
  destruct (body_without_size_is_never_blocked PhysicsSystem.floorCell 7
              PhysicsSystem.fallingHeld eq_refl eq_refl)
    as (Hev & _ & _ & _ & _ & _ & _ & Hy).
  split; [exact Hev | exact (Hy eq_refl)].
Defined.

(** ** Sprite frames: how a parse ends; encoded streams *)

Section FrameOutcomeFacts.
Import PidLoader.

Lemma rleLoop_unfold (fuel : nat) (src : list byte) (n : nat) (st : Rle) :
  rleLoop fuel src n st =
  if (dstPos st <? n)%nat && (srcPos st <? length src)%nat then
    match fuel with
    | O => None
    | S fuel' => rleLoop fuel' src n (rleStep src n st)
    end
  else Some st.
Proof. destruct fuel; reflexivity. Qed.

Lemma written_init (n srcOffset : nat) :
  written n [] (mkRle (replicate n x00) srcOffset 0).
Proof.
  unfold written. cbn. rewrite Nat.sub_0_r. repeat split; lia.
Qed.

(** The decoder returns for every input. *)
Lemma decompressRLE_some (src : list byte) (srcOffset n : nat) :
  exists r, decompressRLE src srcOffset n = Some r /\ length (fst r) = n.
Proof.
  unfold decompressRLE.
  destruct (rleLoop_written src n (length src) [] _ (written_init n srcOffset))
    as (st' & E & Hout); [cbn; lia|].
  rewrite E. eexists. split; [reflexivity|].
  cbn [fst]. rewrite Hout. apply zeroPad_length.
Qed.

Lemma startsWithPID_iff (buffer : list byte) :
  DataView.bytes_eqb (map (fun i => DataView.charCode (DataView.rawAt buffer i)) [0; 1; 2])
                     ["P"; "I"; "D"]%byte = true
  <-> startsWithPID buffer.
Proof.
  rewrite bytes_eqb_eq. unfold startsWithPID.
  destruct buffer as [|a [|b [|c rest]]]; cbn.
  - split; [discriminate|]. intros [r [=]].
  - split; [discriminate|]. intros [r [=]].
  - split; [discriminate|]. intros [r [=]].
  - split.
    + intros [= -> -> ->]. eauto.
    + intros [r [= -> -> -> _]]. reflexivity.
Qed.

Lemma unsignedAt_some (buf : list byte) (off : Z) (n : nat) (le : bool) :
  0 <= off -> off + Z.of_nat n <= Z.of_nat (length buf) ->
  exists v, DataView.unsignedAt buf off n le = Some v /\ 0 <= v < 256 ^ Z.of_nat n.
Proof.
  intros H0 H1. unfold DataView.unsignedAt.
  destruct (bytesAt_some buf off n H0 H1) as [bs E]. rewrite E.
  pose proof (bytesAt_length _ _ _ _ E) as L.
  eexists. split; [reflexivity|].
  destruct le.
  - rewrite <- L. apply le_value_bound.
  - rewrite <- L, <- (length_rev bs). apply le_value_bound.
Qed.

Lemma toSigned16_range (v : Z) :
  0 <= v < 65536 -> -32768 <= DataView.toSigned 16 v < 32768.
Proof.
  intros H. unfold DataView.toSigned.
  change (2 ^ (16 - 1)) with 32768. change (2 ^ 16) with 65536.
  destruct (v <? 32768) eqn:E; [apply Z.ltb_lt in E | apply Z.ltb_ge in E]; lia.
Qed.

Lemma frameIndices_some (raw : list byte) (cursor n : nat) (c : bool) :
  exists ix, frameIndices raw cursor n c = Some ix.
Proof.
  unfold frameIndices. destruct c; [|eauto].
  destruct (decompressRLE_some raw cursor n) as (r & E & _). rewrite E. cbn. eauto.
Qed.

(** X10.  How [parse] ends depends only on the first bytes: the
    signature error exactly when the buffer does not start with "PID";
    a RangeError when it does but is shorter than the 16-byte header;
    and a frame in every other case, whatever the payload holds, with
    the header fields in their ranges and four bytes per pixel.  (The
    frame is built in memory the runtime is assumed to have.) *)
Theorem parse_outcomes (loaderPalette buffer : list byte) :
  (parse loaderPalette buffer = inl InvalidMagic <-> ~ startsWithPID buffer) /\
  (startsWithPID buffer -> (length buffer < 16)%nat ->
   parse loaderPalette buffer = inl RangeError) /\
  (startsWithPID buffer -> (16 <= length buffer)%nat ->
   exists frame : PidFrame,
     parse loaderPalette buffer = inr frame /\
     0 <= width frame < 65536 /\ 0 <= height frame < 65536 /\
     -32768 <= offsetX frame < 32768 /\ -32768 <= offsetY frame < 32768 /\
     0 <= flags frame < 2 ^ 32 /\
     Z.of_nat (length (pixels frame)) = 4 * (width frame * height frame)) /\
  parse loaderPalette buffer <> inl InvalidPalette.
Proof.
  pose proof (startsWithPID_iff buffer) as M.
  unfold parse.
  destruct (DataView.bytes_eqb _ _) eqn:Emagic; cbn [negb].
  - assert (Hm : startsWithPID buffer) by (apply M; reflexivity).
    split; [|split; [|split]].
    + split; [|tauto].
      repeat case_match; discriminate.
    + intros _ Hlen.
      destruct (DataView.getUint32 buffer 12 true) as [fl|] eqn:Efl.
      * assert (Hs : is_Some (DataView.getUint32 buffer 12 true)) by (rewrite Efl; eauto).
        apply getUint32_some in Hs. lia.
      * repeat case_match; reflexivity.
    + intros _ Hlen.
      destruct (unsignedAt_some buffer 4 2 true) as (w & Ew & Hw); [lia|cbn; lia|].
      destruct (unsignedAt_some buffer 6 2 true) as (h & Eh & Hh); [lia|cbn; lia|].
      destruct (unsignedAt_some buffer 8 2 true) as (ox & Eox & Hox); [lia|cbn; lia|].
      destruct (unsignedAt_some buffer 10 2 true) as (oy & Eoy & Hoy); [lia|cbn; lia|].
      destruct (unsignedAt_some buffer 12 4 true) as (fl & Efl & Hfl); [lia|cbn; lia|].
      unfold DataView.getUint16, DataView.getInt16, DataView.getUint32.
      rewrite Ew, Eh, Eox, Eoy, Efl. cbn [option_map].
      destruct (activePalette loaderPalette buffer (flagSet fl PID_FLAG_HAS_PALETTE))
        as [palette cursor].
      destruct (frameIndices_some buffer cursor (Z.to_nat (w * h))
                  (flagSet fl PID_FLAG_COMPRESSED)) as [ix Eix].
      rewrite Eix. eexists. split; [reflexivity|]. cbn [width height offsetX offsetY flags pixels].
      change (256 ^ Z.of_nat 2) with 65536 in *. change (256 ^ Z.of_nat 4) with (2 ^ 32) in *.
      split; [exact Hw|]. split; [exact Hh|].
      split; [apply toSigned16_range; exact Hox|].
      split; [apply toSigned16_range; exact Hoy|].
      split; [exact Hfl|].
      destruct (convert_pixels (flagSet fl PID_FLAG_COLOR_KEY) palette ix (Z.to_nat (w * h)))
        as [L _].
      rewrite L. nia.
    + repeat case_match; discriminate.
  - assert (Hm : ~ startsWithPID buffer).
    { intros H. apply M in H. congruence. }
    split; [|split; [|split]].
    + tauto.
    + intros H. contradiction.
    + intros H. contradiction.
    + discriminate.
Qed.

End FrameOutcomeFacts.

(** ** Run-length streams: decoding what was encoded *)

Section EncodedStreamFacts.
Import PidLoader.

Lemma controlByte_to_nat (n : nat) : (n <= 255)%nat -> Byte.to_nat (controlByte n) = n.
Proof.
  intros H. unfold controlByte.
  destruct (Byte.of_nat n) as [b|] eqn:E.
  - cbn. apply Byte.to_of_nat. exact E.
  - apply Byte.of_nat_None_iff in E. lia.
Qed.

Lemma take_take_app (n : nat) (w x y : list byte) :
  (length w <= n)%nat ->
  take n ((w ++ take (n - length w) x) ++ y) = take n (w ++ x ++ y).
Proof.
  intros H. destruct (Nat.le_gt_cases (length x) (n - length w)) as [Hx|Hx].
  - rewrite (take_ge x) by lia. rewrite <- app_assoc. reflexivity.
  - rewrite (take_app_le (w ++ take (n - length w) x))
      by (rewrite length_app, length_take; lia).
    rewrite (take_ge (w ++ take (n - length w) x))
      by (rewrite length_app, length_take; lia).
    rewrite (take_app_ge w) by lia.
    rewrite take_app_le by lia. reflexivity.
Qed.

Lemma lookup_middle (pre rest : list byte) (b : byte) :
  (pre ++ b :: rest) !! length pre = Some b.
Proof. apply list_lookup_middle. reflexivity. Qed.

(** One pass of the decoding loop over one well-formed chunk. *)
Lemma rleStep_chunk (pre post : list byte) (c : Chunk) (n : nat) (w : list byte) (st : Rle) :
  wellFormed c -> written n w st -> (length w < n)%nat -> srcPos st = length pre ->
  written n (w ++ take (n - length w) (chunkPixels c))
          (rleStep (pre ++ chunkBytes c ++ post) n st) /\
  (length (w ++ take (n - length w) (chunkPixels c)) = n \/
   srcPos (rleStep (pre ++ chunkBytes c ++ post) n st) = length (pre ++ chunkBytes c)).
Proof.
  intros Hwf Hw Hlt Hpos. unfold wellFormed in Hwf. unfold rleStep. rewrite Hpos.
  destruct c as [count value | bs]; cbn [chunkCount chunkBytes chunkPixels] in *.
  - cbn [app]. rewrite lookup_middle.
    rewrite controlByte_to_nat by lia.
    replace (count - 1 <=? 127)%nat with true by (symmetry; apply Nat.leb_le; lia).
    cbn [srcPos out dstPos].
    replace (count - 1 + 1)%nat with count by lia.
    replace ((pre ++ controlByte (count - 1) :: value :: post) !! S (length pre))
      with (Some value).
    2:{ symmetry. change (controlByte (count - 1) :: value :: post)
          with ([controlByte (count - 1)] ++ value :: post).
        rewrite app_assoc.
        replace (S (length pre)) with (length (pre ++ [controlByte (count - 1)]))
          by (rewrite length_app; cbn; lia).
        apply lookup_middle. }
    cbn [stored default]. unfold id.
    set (st2 := mkRle (out st) (S (S (length pre))) (dstPos st)).
    assert (Hw2 : written n w st2) by exact Hw.
    destruct (runLoop_written count value n w st2 Hw2) as [Hr Hs].
    rewrite take_replicate. rewrite (Nat.min_comm (n - length w) count).
    split; [exact Hr|].
    right. rewrite Hs. cbn. rewrite length_app. cbn. lia.
  - cbn [app]. rewrite lookup_middle.
    rewrite controlByte_to_nat by lia.
    replace (128 + (length bs - 1) <=? 127)%nat with false by (symmetry; apply Nat.leb_gt; lia).
    replace (128 + (length bs - 1) - 128 + 1)%nat with (length bs) by lia.
    set (src := pre ++ controlByte (128 + (length bs - 1)) :: bs ++ post).
    set (st1 := mkRle (out st) (S (length pre)) (dstPos st)).
    assert (Hw1 : written n w st1) by exact Hw.
    destruct (literalLoop_written (length bs) src n w st1 Hw1) as [Hr Hs].
    assert (Hdrop : drop (srcPos st1) src = bs ++ post).
    { subst src st1. cbn [srcPos].
      change (controlByte (128 + (length bs - 1)) :: bs ++ post)
        with ([controlByte (128 + (length bs - 1))] ++ bs ++ post).
      rewrite app_assoc.
      replace (S (length pre)) with (length (pre ++ [controlByte (128 + (length bs - 1))]))
        by (rewrite length_app; cbn; lia).
      apply drop_app_length. }
    rewrite Hdrop in Hr.
    rewrite take_app_le in Hr by lia.
    assert (Et : take (min (length bs) (n - length w)) bs = take (n - length w) bs).
    { destruct (Nat.le_gt_cases (length bs) (n - length w)).
      - rewrite Nat.min_l by lia. rewrite !take_ge by lia. reflexivity.
      - rewrite Nat.min_r by lia. reflexivity. }
    rewrite Et in Hr. split; [exact Hr|].
    rewrite Hs. subst st1. cbn [srcPos].
    assert (Hsrc : length src = (length pre + 1 + length bs + length post)%nat).
    { subst src. rewrite length_app. cbn. rewrite length_app. lia. }
    rewrite !length_app, length_take. cbn [length].
    destruct (Nat.le_gt_cases (length bs) (n - length w)); [right|left]; lia.
Qed.

Lemma rleLoop_chunks (chunks : list Chunk) :
  forall (pre post : list byte) (n : nat) (w : list byte) (st : Rle) (fuel : nat),
  Forall wellFormed chunks -> written n w st ->
  (length w = n \/ srcPos st = length pre) ->
  (n <= length w + length (pixelsOf chunks))%nat ->
  (length chunks <= fuel)%nat ->
  exists st',
    rleLoop fuel (pre ++ encode chunks ++ post) n st = Some st' /\
    written n (take n (w ++ pixelsOf chunks)) st'.
Proof.
  induction chunks as [|c cs IH]; intros pre post n w st fuel Hwf Hw Hpos Hn Hfuel.
  - cbn in Hn. rewrite app_nil_r in *.
    destruct Hw as (Ho & Hd & Hl).
    assert (length w = n) by lia.
    rewrite rleLoop_unfold.
    replace (dstPos st <? n)%nat with false by (symmetry; apply Nat.ltb_ge; lia).
    cbn [andb]. eexists. split; [reflexivity|].
    rewrite take_ge by lia. repeat split; assumption.
  - destruct (Nat.eq_dec (length w) n) as [Hfull|Hnot].
    + destruct Hw as (Ho & Hd & Hl).
      rewrite rleLoop_unfold.
      replace (dstPos st <? n)%nat with false by (symmetry; apply Nat.ltb_ge; lia).
      cbn [andb]. eexists. split; [reflexivity|].
      rewrite take_app_le by lia. rewrite take_ge by lia. repeat split; assumption.
    + destruct Hpos as [Hpos|Hpos]; [contradiction|].
      pose proof Hw as (Ho & Hd & Hl).
      assert (Hlt : (length w < n)%nat) by lia.
      apply Forall_cons in Hwf as [Hc Hcs].
      assert (Hb : (1 <= length (chunkBytes c))%nat).
      { destruct c; cbn; lia. }
      rewrite rleLoop_unfold.
      replace (dstPos st <? n)%nat with true by (symmetry; apply Nat.ltb_lt; lia).
      replace (srcPos st <? length (pre ++ encode (c :: cs) ++ post))%nat with true.
      2:{ symmetry. apply Nat.ltb_lt. cbn [encode flat_map].
          rewrite !length_app. lia. }
      cbn [andb]. destruct fuel as [|fuel]; [cbn in Hfuel; lia|].
      cbn [encode flat_map]. fold (encode cs).
      rewrite <- (app_assoc (chunkBytes c)).
      destruct (rleStep_chunk pre (encode cs ++ post) c n w st Hc Hw Hlt Hpos) as [Hw' Hpos'].
      set (st1 := rleStep (pre ++ chunkBytes c ++ encode cs ++ post) n st) in *.
      destruct (IH (pre ++ chunkBytes c) post n _ st1 fuel Hcs Hw' Hpos') as (st' & E & Hfin).
      * cbn [pixelsOf flat_map] in Hn. rewrite length_app in Hn.
        rewrite length_app, length_take. fold (pixelsOf cs) in Hn. lia.
      * cbn in Hfuel. lia.
      * rewrite <- app_assoc in E. exists st'. split; [exact E|].
        cbn [pixelsOf flat_map]. fold (pixelsOf cs).
        rewrite take_take_app in Hfin by lia. exact Hfin.
Qed.

Lemma encode_length (chunks : list Chunk) : (length chunks <= length (encode chunks))%nat.
Proof.
  induction chunks as [|c cs IH]; cbn [encode flat_map]; [cbn; lia|].
  fold (encode cs). rewrite length_app. destruct c; cbn; lia.
Qed.

(** X11.  Decoding inverts encoding.  For a stream made of well-formed
    runs and literals, stored at any offset of a buffer and followed by
    any bytes, decoding the full pixel count gives back the pixels that
    were encoded, decoding fewer gives their first [n], and no
    short-output warning is raised; bytes after the stream are not
    looked at. *)
Theorem decompressRLE_inverts_encode
    (pre trailing : list byte) (chunks : list Chunk) (n : nat) :
  Forall wellFormed chunks ->
  (n <= length (pixelsOf chunks))%nat ->
  decompressRLE (pre ++ encode chunks ++ trailing) (length pre) n
    = Some (take n (pixelsOf chunks), false) /\
  decompressRLE (pre ++ encode chunks ++ trailing) (length pre) (length (pixelsOf chunks))
    = Some (pixelsOf chunks, false).
Proof.
  intros Hwf Hn.
  assert (G : forall m, (m <= length (pixelsOf chunks))%nat ->
            decompressRLE (pre ++ encode chunks ++ trailing) (length pre) m
            = Some (take m (pixelsOf chunks), false)).
  { intros m Hm. unfold decompressRLE.
    destruct (rleLoop_chunks chunks pre trailing m [] (mkRle (replicate m x00) (length pre) 0)
                (length (pre ++ encode chunks ++ trailing)) Hwf (written_init m (length pre)))
      as (st' & E & Ho & Hd & Hl).
    - right. reflexivity.
    - cbn. exact Hm.
    - rewrite !length_app. pose proof (encode_length chunks). lia.
    - rewrite E. cbn [app] in *. rewrite length_take in Hd, Ho.
      rewrite Ho, Hd.
      replace (m - m `min` length (pixelsOf chunks))%nat with 0%nat by lia.
      cbn [replicate]. rewrite app_nil_r.
      replace (m `min` length (pixelsOf chunks) =? m)%nat with true
        by (symmetry; apply Nat.eqb_eq; lia).
      reflexivity. }
  split; [apply G; exact Hn|].
  rewrite (G (length (pixelsOf chunks))) by lia.
  rewrite take_ge by lia. reflexivity.
Qed.

End EncodedStreamFacts.

Lemma decompressRLE_inverts_encode_witness :
  PidLoader.decompressRLE
    ([x00; x00] ++ PidLoader.encode [PidLoader.Run 3 x09; PidLoader.Literal [x07; x08]] ++ [xff])
    (length [x00; x00]) 4
  = Some (take 4 (PidLoader.pixelsOf [PidLoader.Run 3 x09; PidLoader.Literal [x07; x08]]), false).
Proof.
  apply (proj1 (decompressRLE_inverts_encode [x00; x00] [xff]
                  [PidLoader.Run 3 x09; PidLoader.Literal [x07; x08]] 4
                  ltac:(repeat constructor; cbn; lia) ltac:(cbn; lia))).
Defined.

(** ** Level maps: how a parse ends, what a level holds *)

Section LevelOutcomeFacts.
Import Thrown WwdLoader.

Lemma u8_bound (b : byte) : 0 <= DataView.u8 b < 256.
Proof.
  unfold DataView.u8. pose proof (Byte.to_N_bounded b). lia.
Qed.

Lemma u8_inj (a b : byte) : DataView.u8 a = DataView.u8 b -> a = b.
Proof.
  unfold DataView.u8. intros H. apply N2Z.inj in H.
  pose proof (Byte.of_to_N a) as Ha. pose proof (Byte.of_to_N b) as Hb.
  rewrite H in Ha. congruence.
Qed.

(** The big-endian test of line 111 accepts exactly the bytes "WORL". *)
Lemma be_magic_WORL (a b c d : byte) :
  DataView.le_value (rev [a; b; c; d]) = WWD_MAGIC <-> [a; b; c; d] = ["W"; "O"; "R"; "L"]%byte.
Proof.
  cbn [rev app DataView.le_value]. unfold WWD_MAGIC. split.
  - intros H.
    pose proof (u8_bound a). pose proof (u8_bound b).
    pose proof (u8_bound c). pose proof (u8_bound d).
    assert (DataView.u8 a = DataView.u8 "W"%byte) by (change (DataView.u8 "W"%byte) with 87; lia).
    assert (DataView.u8 b = DataView.u8 "O"%byte) by (change (DataView.u8 "O"%byte) with 79; lia).
    assert (DataView.u8 c = DataView.u8 "R"%byte) by (change (DataView.u8 "R"%byte) with 82; lia).
    assert (DataView.u8 d = DataView.u8 "L"%byte) by (change (DataView.u8 "L"%byte) with 76; lia).
    f_equal; [|f_equal; [|f_equal; [|f_equal]]]; apply u8_inj; assumption.
  - intros [= -> -> -> ->]. reflexivity.
Qed.

Lemma getUint32_head (a b c d : byte) (rest : list byte) (le : bool) :
  DataView.getUint32 (a :: b :: c :: d :: rest) 0 le
  = Some (DataView.le_value (if le then [a; b; c; d] else rev [a; b; c; d])).
Proof.
  unfold DataView.getUint32, DataView.unsignedAt, DataView.bytesAt.
  replace (Z.of_nat (length (a :: b :: c :: d :: rest)) <? 0 + Z.of_nat 4) with false
    by (symmetry; apply Z.ltb_ge; cbn [length]; lia).
  reflexivity.
Qed.

Lemma checkMagic_short (buffer : list byte) :
  signature buffer = None -> checkMagic buffer = inl RangeError.
Proof.
  intros H. unfold checkMagic.
  destruct (DataView.getUint32 buffer 0 false) as [v|] eqn:E; [|reflexivity].
  assert (Hs : is_Some (DataView.getUint32 buffer 0 false)) by (rewrite E; eauto).
  apply getUint32_some in Hs.
  destruct buffer as [|a [|b [|c [|d rest]]]]; cbn in Hs, H; try lia. discriminate.
Qed.

Lemma checkMagic_signature (buffer sig : list byte) :
  signature buffer = Some sig ->
  checkMagic buffer =
  if DataView.bytes_eqb sig ["W"; "O"; "R"; "L"]%byte
     || DataView.bytes_eqb sig ["L"; "E"; "V"; "L"]%byte
  then inr tt else inl InvalidMagic.
Proof.
  destruct buffer as [|a [|b [|c [|d rest]]]]; try discriminate.
  intros [= <-]. unfold checkMagic. rewrite getUint32_head. cbn [read bind].
  destruct (_ =? WWD_MAGIC) eqn:E.
  - apply Z.eqb_eq, be_magic_WORL in E. rewrite E. reflexivity.
  - change (map (fun i => DataView.charCode (DataView.rawAt (a :: b :: c :: d :: rest) i))
                [0; 1; 2; 3]) with [a; b; c; d].
    destruct (DataView.bytes_eqb [a; b; c; d] ["W"; "O"; "R"; "L"]%byte);
      destruct (DataView.bytes_eqb [a; b; c; d] ["L"; "E"; "V"; "L"]%byte); reflexivity.
Qed.

(** After the signature test nothing throws the signature error. *)
Lemma bind_other {A B : Type} (r : result A) (k : A -> result B) :
  r <> inl InvalidMagic -> (forall a, k a <> inl InvalidMagic) ->
  bind r k <> inl InvalidMagic.
Proof. intros Hr Hk. destruct r as [e|a]; cbn [bind]; [|apply Hk].
  intros [= ->]. apply Hr. reflexivity.
Qed.

Lemma read_other {A : Type} (o : option A) : read o <> inl InvalidMagic.
Proof. destruct o; discriminate. Qed.

Lemma collect_other {A B : Type} (f : A -> result B) (l : list A) :
  (forall a, f a <> inl InvalidMagic) -> collect f l <> inl InvalidMagic.
Proof.
  intros Hf. induction l as [|a l IH]; cbn [collect]; [discriminate|].
  apply bind_other; [apply Hf|]. intros b. apply bind_other; [exact IH|]. discriminate.
Qed.

Ltac other :=
  repeat first
    [ discriminate
    | apply read_other
    | apply bind_other; [|intros ?]
    | apply collect_other; intros ? ].

Lemma int32Array_other (buffer : list byte) (off len : Z) :
  int32Array buffer off len <> inl InvalidMagic.
Proof.
  unfold int32Array. destruct (_ || _); [discriminate|]. other.
Qed.

Lemma parseLayerHeader_other (buffer : list byte) (base : Z) :
  parseLayerHeader buffer base <> inl InvalidMagic.
Proof.
  unfold parseLayerHeader. cbv beta zeta. other. apply int32Array_other.
Qed.

Lemma parseObject_other (buffer : list byte) (base : Z) :
  parseObject buffer base <> inl InvalidMagic.
Proof. unfold parseObject. cbv beta zeta. other. Qed.

Lemma parseObjects_other (n : nat) (buffer : list byte) (off i : Z) :
  parseObjects n buffer off i <> inl InvalidMagic.
Proof.
  revert i. induction n as [|n IH]; intros i; cbn [parseObjects]; [discriminate|].
  destruct (_ <? _); [discriminate|].
  apply bind_other; [apply parseObject_other|]. intros o.
  apply bind_other; [apply IH|]. discriminate.
Qed.

Lemma buildCollisionMap_other (l : option WwdLayer) :
  buildCollisionMap l <> inl InvalidMagic.
Proof.
  unfold buildCollisionMap. destruct l as [l|]; [|discriminate].
  destruct (TileCollisionMap.create _ _ _); discriminate.
Qed.

Ltac unbind H :=
  repeat match type of H with
         | bind ?e _ = inr _ =>
             let E := fresh "E" in
             destruct e eqn:E; [discriminate H|]; cbn [bind] in H
         end.

(** X12.  How [parse] ends on the first bytes.  A buffer shorter than
    four bytes ends in a RangeError; the loader's own signature error
    is thrown exactly when the buffer has four bytes and they are
    neither "WORL" nor "LEVL"; and a level is returned only for a
    buffer that holds the whole fixed header (0x5E8 bytes). *)
Theorem parse_signature_and_header (buffer : list byte) :
  (signature buffer = None -> parse buffer = inl RangeError) /\
  (parse buffer = inl InvalidMagic <->
   exists sig : list byte,
     signature buffer = Some sig /\
     sig <> ["W"; "O"; "R"; "L"]%byte /\ sig <> ["L"; "E"; "V"; "L"]%byte) /\
  (forall level : WwdLevel,
     parse buffer = inr level -> 0x5E8 <= Z.of_nat (length buffer)).
Proof.
  split; [|split].
  - intros H. unfold parse. rewrite (checkMagic_short buffer H). reflexivity.
  - destruct (signature buffer) as [sig|] eqn:S.
    + pose proof (checkMagic_signature buffer sig S) as C.
      destruct (DataView.bytes_eqb sig ["W"; "O"; "R"; "L"]%byte) eqn:E1;
        [|destruct (DataView.bytes_eqb sig ["L"; "E"; "V"; "L"]%byte) eqn:E2];
        cbn [orb] in C.
      * apply bytes_eqb_eq in E1. split.
        -- intros H. exfalso. revert H. unfold parse. rewrite C. cbn [bind]. cbv beta zeta.
           other; first [apply int32Array_other | apply parseObjects_other
                        | apply buildCollisionMap_other].
        -- intros (s & [= <-] & H1 & _). contradiction.
      * apply bytes_eqb_eq in E2. split.
        -- intros H. exfalso. revert H. unfold parse. rewrite C. cbn [bind]. cbv beta zeta.
           other; first [apply int32Array_other | apply parseObjects_other
                        | apply buildCollisionMap_other].
        -- intros (s & [= <-] & _ & H2). contradiction.
      * split.
        -- intros _. exists sig. split; [reflexivity|].
           split; intros Heq; apply bytes_eqb_eq in Heq; congruence.
        -- intros _. unfold parse. rewrite C. reflexivity.
    + split.
      * unfold parse. rewrite (checkMagic_short buffer S). discriminate.
      * intros (s & [=] & _).
  - intros level H. unfold parse in H. cbv beta zeta in H. unbind H.
    match goal with
    | Hr : read (DataView.getUint32 buffer 1508 true) = inr _ |- _ =>
        apply read_inr in Hr;
        assert (Hs : is_Some (DataView.getUint32 buffer 1508 true)) by (rewrite Hr; eauto);
        apply getUint32_some in Hs; lia
    end.
Qed.

End LevelOutcomeFacts.

(** ** Level maps: layers, objects and grid of a returned level *)

Section LevelContentFacts.
Import Thrown WwdLoader.

Ltac unbind H :=
  repeat match type of H with
         | bind ?e _ = inr _ =>
             let E := fresh "E" in
             destruct e eqn:E; [discriminate H|]; cbn [bind] in H
         end.

(** The object loop reads the records that fit, in order. *)
Lemma parseObjects_count (n : nat) (buffer : list byte) (off : Z) :
  forall (i : Z) (os : list WwdObject),
  parseObjects n buffer off i = inr os ->
  Z.of_nat (length os)
  = Z.min (Z.of_nat n)
          (Z.max 0 ((Z.of_nat (length buffer) - off) / OBJECT_ENTRY_SIZE - i)) /\
  forall (k : nat) (o : WwdObject),
    os !! k = Some o ->
    parseObject buffer (off + (i + Z.of_nat k) * OBJECT_ENTRY_SIZE) = inr o.
Proof.
  unfold OBJECT_ENTRY_SIZE.
  induction n as [|n IH]; intros i os H; cbn [parseObjects] in H.
  - injection H as <-. split; [cbn [length]; lia|]. intros k o Hk. discriminate.
  - unfold OBJECT_ENTRY_SIZE in H.
    destruct (Z.of_nat (length buffer) <? off + i * 360 + 360) eqn:E.
    + injection H as <-. apply Z.ltb_lt in E. split.
      * cbn [length]. Z.div_mod_to_equations. lia.
      * intros k o Hk. discriminate.
    + apply Z.ltb_ge in E. unbind H. injection H as <-.
      match goal with
      | Hrest : parseObjects n buffer off (i + 1) = inr ?l |- _ =>
          destruct (IH (i + 1) l Hrest) as [Hlen Hget]
      end.
      split.
      * cbn [length]. rewrite Nat2Z.inj_succ, Hlen. Z.div_mod_to_equations. lia.
      * intros [|k] o Hk; cbn in Hk.
        -- injection Hk as <-.
           replace (off + (i + Z.of_nat 0) * 360) with (off + i * 360) by lia. assumption.
        -- replace (off + (i + Z.of_nat (S k)) * 360)
             with (off + (i + 1 + Z.of_nat k) * 360) by lia.
           apply Hget. exact Hk.
Qed.

Lemma upto_length (n : Z) : Z.of_nat (length (upto n)) = Z.max 0 n.
Proof. unfold upto. rewrite length_map, length_seq. lia. Qed.

(** X13.  What a returned level holds.  It has min(layerCount, 8)
    layers, each with one signed 32-bit tile per cell; and its objects
    are the first min(numObjects, records that fit in the buffer from
    the object table on) records of the table, in order. *)
Theorem parsed_level_counts (buffer : list byte) (level : WwdLevel) :
  parse buffer = inr level ->
  exists layerCount numObjects objectsOffset : Z,
    declaredLayerCount buffer = Some layerCount /\
    declaredObjectCount buffer = Some numObjects /\
    declaredObjectsOffset buffer = Some objectsOffset /\
    Z.of_nat (length (layers level)) = Z.min layerCount MAX_LAYERS /\
    Forall layerInvariant (layers level) /\
    Z.of_nat (length (objects level))
    = Z.min numObjects (fittingRecords buffer objectsOffset) /\
    forall (k : nat) (o : WwdObject),
      objects level !! k = Some o ->
      parseObject buffer (objectsOffset + Z.of_nat k * OBJECT_ENTRY_SIZE) = inr o.
Proof.
  intros H. unfold parse in H. cbv beta zeta in H. unbind H.
  injection H as <-. cbn [layers objects].
  repeat match goal with
         | Hr : read _ = inr _ |- _ => apply read_inr in Hr
         end.
  match goal with
  | H1 : DataView.getUint32 buffer 1496 true = Some ?lc,
    H2 : DataView.getUint32 buffer 1500 true = Some ?no,
    H3 : DataView.getUint32 buffer 1508 true = Some ?oo,
    Hl : collect _ (upto _) = inr ?ls,
    Ho : parseObjects _ buffer _ 0 = inr ?os |- _ =>
      exists lc, no, oo;
      pose proof (getUint32_nonneg _ _ _ _ H1) as Hlc;
      pose proof (getUint32_nonneg _ _ _ _ H2) as Hno;
      pose proof (collect_length _ _ _ Hl) as Hlen;
      pose proof (collect_Forall _ layerInvariant _ _
                    (fun a b => parseLayerHeader_invariant buffer _ b) Hl) as Hinv;
      destruct (parseObjects_count _ _ _ _ _ Ho) as [Hcount Hget]
  end.
  split; [assumption|]. split; [assumption|]. split; [assumption|].
  split.
  { rewrite Hlen. rewrite upto_length. unfold MAX_LAYERS. lia. }
  split; [exact Hinv|].
  split.
  { rewrite Hcount. unfold fittingRecords. rewrite Z.sub_0_r. lia. }
  intros k o Hk. specialize (Hget k o Hk). rewrite Z.add_0_l in Hget. exact Hget.
Qed.

Lemma buildCell_tileSize (l : WwdLayer) (row : Z) (m : TileCollisionMap.t) (col : Z) :
  TileCollisionMap.tileSize (buildCell l row m col) = TileCollisionMap.tileSize m.
Proof.
  unfold buildCell. destruct (isNegative _); [reflexivity|]. apply set_shape.
Qed.

Lemma buildRow_tileSize (l : WwdLayer) (m : TileCollisionMap.t) (row : Z) :
  TileCollisionMap.tileSize (buildRow l m row) = TileCollisionMap.tileSize m.
Proof.
  unfold buildRow. generalize (upto (tilesWide l)) as cs. intros cs. revert m.
  induction cs as [|c cs IH]; intros m; cbn [fold_left]; [reflexivity|].
  rewrite IH. apply buildCell_tileSize.
Qed.

Lemma buildRows_tileSize (l : WwdLayer) (rs : list Z) (m : TileCollisionMap.t) :
  TileCollisionMap.tileSize (fold_left (buildRow l) rs m) = TileCollisionMap.tileSize m.
Proof.
  revert m. induction rs as [|r rs IH]; intros m; cbn [fold_left]; [reflexivity|].
  rewrite IH. apply buildRow_tileSize.
Qed.

Lemma buildCollisionMap_shape (l : WwdLayer) (m : TileCollisionMap.t) :
  buildCollisionMap (Some l) = inr m ->
  TileCollisionMap.cols m = tilesWide l /\
  TileCollisionMap.rows m = tilesHigh l /\
  TileCollisionMap.tileSize m = inject_Z (tileWidth l) /\
  TileCollisionMap.well_sized m.
Proof.
  unfold buildCollisionMap.
  destruct (TileCollisionMap.create _ _ _) as [m0|] eqn:Hm0; [|discriminate].
  intros [= <-].
  destruct (create_well_sized _ _ _ _ Hm0) as (Hs & Ec & Er).
  rewrite buildRows_tileSize. rewrite upto_to_nat.
  destruct (buildRows_prefix l (Z.to_nat (tilesHigh l)) m0 Hs Ec) as (Hw & Hc & Hr & _).
  rewrite Hc, Hr, Ec, Er. repeat split; try assumption.
  revert Hm0. unfold TileCollisionMap.create.
  destruct (_ <? 0); [discriminate|]. intros [= <-]. reflexivity.
Qed.

Lemma cellWrite_codes (l : WwdLayer) (col row : Z) :
  cellWrite l col row = None \/
  cellWrite l col row = Some TileCollisionMap.Empty \/
  cellWrite l col row = Some TileCollisionMap.Solid.
Proof.
  unfold cellWrite. destruct (isNegative _); [auto|].
  destruct (isSolidTile _); auto.
Qed.

(** X14.  The grid of a returned level has the action layer's width
    and height in tiles and its tile width as tile size, and every cell
    lookup, inside or outside the grid, answers Empty or Solid: a level
    file never produces a ladder or a one-way platform. *)
Theorem parsed_grid_is_empty_or_solid (buffer : list byte) (level : WwdLevel) :
  parse buffer = inr level ->
  (exists layer : WwdLayer,
     actionLayer (layers level) = Some layer /\
     TileCollisionMap.cols (collisionMap level) = tilesWide layer /\
     TileCollisionMap.rows (collisionMap level) = tilesHigh layer /\
     TileCollisionMap.tileSize (collisionMap level) = inject_Z (tileWidth layer) /\
     TileCollisionMap.well_sized (collisionMap level)) /\
  (forall col row : Z,
     TileCollisionMap.get (collisionMap level) col row
       = Some (TileCollisionMap.attr_code TileCollisionMap.Empty) \/
     TileCollisionMap.get (collisionMap level) col row
       = Some (TileCollisionMap.attr_code TileCollisionMap.Solid)) /\
  (forall px py : Q,
     TileCollisionMap.isLadder (collisionMap level) px py = false /\
     TileCollisionMap.isOneWayPlatform (collisionMap level) px py = false).
Proof.
  intros H. destruct (parse_inr buffer level H) as (lc & lo & _ & _ & Hcm).
  destruct (actionLayer (layers level)) as [l|] eqn:Ha; [|discriminate].
  destruct (buildCollisionMap_shape l _ Hcm) as (Hc & Hr & Ht & Hw).
  assert (Hcells : forall col row : Z,
     TileCollisionMap.get (collisionMap level) col row = Some 0 \/
     TileCollisionMap.get (collisionMap level) col row = Some 1).
  { intros col row.
    destruct (TileCollisionMap.out_of_bounds (collisionMap level) col row) eqn:Ho.
    - right. unfold TileCollisionMap.get. rewrite Ho. reflexivity.
    - apply out_of_bounds_false in Ho. destruct Ho as [Hcol Hrow].
      rewrite Hc in Hcol. rewrite Hr in Hrow.
      rewrite (buildCollisionMap_get l _ col row Hcm Hcol Hrow).
      destruct (cellWrite_codes l col row) as [-> | [-> | ->]]; cbn; auto. }
  split; [|split].
  - exists l. repeat split; assumption.
  - exact Hcells.
  - intros px py.
    unfold TileCollisionMap.isLadder, TileCollisionMap.isOneWayPlatform,
      TileCollisionMap.getAtPixel.
    destruct (Hcells (Qfloor (px / TileCollisionMap.tileSize (collisionMap level)))
                     (Qfloor (py / TileCollisionMap.tileSize (collisionMap level))))
      as [-> | ->]; split; reflexivity.
Qed.

(** The bytes a string read returns: up to the first zero byte. *)
Lemma untilNull_spec (bs : list byte) :
  untilNull bs `prefix_of` bs /\
  Forall (fun b => b <> x00) (untilNull bs) /\
  (bs !! length (untilNull bs) = None \/ bs !! length (untilNull bs) = Some x00).
Proof.
  induction bs as [|b bs (IH1 & IH2 & IH3)]; cbn [untilNull].
  - split; [reflexivity|]. split; [constructor|]. left. reflexivity.
  - destruct (Byte.eqb b x00) eqn:E.
    + apply Byte.byte_dec_bl in E. subst b.
      split; [apply prefix_nil|]. split; [constructor|]. right. reflexivity.
    + split; [apply prefix_cons; exact IH1|].
      split.
      * constructor; [|exact IH2]. intros ->. cbn in E. discriminate.
      * cbn [length lookup]. exact IH3.
Qed.

(** X15.  A string read returns the longest run of non-zero bytes that
    starts at the offset, stays in the buffer and has at most [maxLen]
    bytes: it is a prefix of the bytes from the offset on, holds no zero
    byte, is at most [maxLen] long, and when it is shorter the byte after
    it is a zero byte or the end of the buffer. *)
Theorem readString_longest_run (raw : list byte) (offset : Z) (maxLen : nat) :
  0 <= offset ->
  readString raw offset maxLen `prefix_of` drop (Z.to_nat offset) raw /\
  (length (readString raw offset maxLen) <= maxLen)%nat /\
  Forall (fun b => b <> x00) (readString raw offset maxLen) /\
  ((length (readString raw offset maxLen) < maxLen)%nat ->
   raw !! (Z.to_nat offset + length (readString raw offset maxLen))%nat = None \/
   raw !! (Z.to_nat offset + length (readString raw offset maxLen))%nat = Some x00) /\
  RezLoader.readNullString raw offset (Z.of_nat maxLen) = readString raw offset maxLen.
Proof.
  intros _. unfold RezLoader.readNullString, readString. rewrite Nat2Z.id.
  set (window := take maxLen (drop (Z.to_nat offset) raw)).
  destruct (untilNull_spec window) as (P & F & E).
  assert (Hlen : (length (untilNull window) <= length window)%nat)
    by (apply prefix_length; exact P).
  assert (Hwin : (length window <= maxLen)%nat)
    by (subst window; rewrite length_take; lia).
  split.
  { etransitivity; [exact P|]. subst window. apply prefix_take. }
  split; [lia|]. split; [exact F|]. split; [|reflexivity].
  intros Hshort. rewrite <- lookup_drop.
  subst window. rewrite lookup_take_lt in E by exact Hshort. exact E.
Qed.

End LevelContentFacts.

Lemma parsed_level_counts_witness :
  exists layerCount numObjects objectsOffset : Z,
    WwdLoader.declaredLayerCount WwdLoader.sampleLevel = Some layerCount /\
    WwdLoader.declaredObjectCount WwdLoader.sampleLevel = Some numObjects /\
    WwdLoader.declaredObjectsOffset WwdLoader.sampleLevel = Some objectsOffset /\
    Z.of_nat (length (WwdLoader.layers (WwdLoader.parsed WwdLoader.sampleLevel)))
    = Z.min layerCount WwdLoader.MAX_LAYERS.
Proof.
  destruct (parsed_level_counts WwdLoader.sampleLevel (WwdLoader.parsed WwdLoader.sampleLevel))
    as (lc & no & oo & H1 & H2 & H3 & H4 & _).
  - vm_compute. reflexivity.
  - exists lc, no, oo. repeat split; assumption.
Defined.

Lemma parsed_grid_is_empty_or_solid_witness :
  TileCollisionMap.get (WwdLoader.collisionMap (WwdLoader.parsed WwdLoader.sampleLevel)) 1 0
    = Some (TileCollisionMap.attr_code TileCollisionMap.Empty) \/
  TileCollisionMap.get (WwdLoader.collisionMap (WwdLoader.parsed WwdLoader.sampleLevel)) 1 0
    = Some (TileCollisionMap.attr_code TileCollisionMap.Solid).
Proof.
  destruct (parsed_grid_is_empty_or_solid WwdLoader.sampleLevel
              (WwdLoader.parsed WwdLoader.sampleLevel)) as (_ & H & _).
  - vm_compute. reflexivity.
  - exact (H 1 0).
Defined.

Lemma readString_longest_run_witness :
  (length (WwdLoader.readString ["a"; "b"; x00; "c"]%byte 0 3) <= 3)%nat /\
  Forall (fun b => b <> x00) (WwdLoader.readString ["a"; "b"; x00; "c"]%byte 0 3).
Proof.
  destruct (readString_longest_run ["a"; "b"; x00; "c"]%byte 0 3) as (_ & H1 & H2 & _).
  - lia.
  - split; assumption.
Defined.

(** ** Archives: paths *)

Section PathFacts.
Import RezLoader.

Lemma byte_eqb_refl (b : byte) : Byte.eqb b b = true.
Proof. apply Byte.byte_dec_lb. reflexivity. Qed.

Lemma split_nonempty (sep : byte) (s : list byte) : split sep s <> [].
Proof.
  destruct s as [|b s]; cbn [split]; [discriminate|].
  destruct (Byte.eqb b sep); [discriminate|].
  destruct (split sep s); discriminate.
Qed.

Lemma split_app_sep (sep : byte) (p q : list byte) :
  split sep (p ++ sep :: q) = split sep p ++ split sep q.
Proof.
  induction p as [|b p IH]; cbn [app split].
  - rewrite byte_eqb_refl.
    reflexivity.
  - destruct (Byte.eqb b sep); rewrite IH; [reflexivity|].
    pose proof (split_nonempty sep p) as Hne.
    destruct (split sep p) as [|part parts]; [contradiction|]. reflexivity.
Qed.

Lemma split_no_sep (sep : byte) (s : list byte) : ~ In sep s -> split sep s = [s].
Proof.
  induction s as [|b s IH]; intros H; cbn [split]; [reflexivity|].
  destruct (Byte.eqb b sep) eqn:E.
  - apply Byte.byte_dec_bl in E. subst b. exfalso. apply H. left. reflexivity.
  - rewrite IH; [reflexivity|]. intros Hin. apply H. right. exact Hin.
Qed.

Lemma split_parts (sep : byte) (s : list byte) :
  Forall (fun part => ~ In sep part /\ forall b, In b part -> In b s) (split sep s).
Proof.
  induction s as [|b s IH]; cbn [split].
  - constructor; [|constructor]. split; [intros []|intros b []].
  - destruct (Byte.eqb b sep) eqn:E.
    + constructor.
      * split; [intros []|intros x []].
      * eapply Forall_impl; [exact IH|]. cbn. intros part [H1 H2].
        split; [exact H1|]. intros x Hx. right. apply H2. exact Hx.
    + destruct (split sep s) as [|part parts]; [constructor; [|constructor]|].
      * split.
        -- intros [->|[]]. rewrite byte_eqb_refl in E. discriminate.
        -- intros x [->|[]]. left. reflexivity.
      * apply Forall_cons in IH as [[H1 H2] IH]. constructor.
        -- split.
           ++ intros [->|Hin]; [|contradiction].
              rewrite byte_eqb_refl in E. discriminate.
           ++ intros x [->|Hx]; [left; reflexivity|right; apply H2; exact Hx].
        -- eapply Forall_impl; [exact IH|]. cbn. intros pt [H3 H4].
           split; [exact H3|]. intros x Hx. right. apply H4. exact Hx.
Qed.

Lemma slashes_app (p q : list byte) : slashes (p ++ q) = slashes p ++ slashes q.
Proof. unfold slashes. apply map_app. Qed.

Lemma slashes_clean (s : list byte) : ~ In x5c s -> slashes s = s.
Proof.
  induction s as [|b s IH]; intros H; cbn; [reflexivity|].
  destruct (Byte.eqb b x5c) eqn:E.
  - apply Byte.byte_dec_bl in E. subst b. exfalso. apply H. left. reflexivity.
  - f_equal. apply IH. intros Hin. apply H. right. exact Hin.
Qed.

Lemma slashes_no_backslash (s : list byte) : ~ In x5c (slashes s).
Proof.
  induction s as [|b s IH]; cbn; [tauto|].
  intros [H|H]; [|contradiction].
  destruct (Byte.eqb b x5c) eqn:E; [discriminate|].
  subst b. cbn in E. discriminate.
Qed.

Lemma normalizePath_app_sep (p q : list byte) (sep : byte) :
  sep = "/"%byte \/ sep = x5c ->
  normalizePath (p ++ sep :: q) = normalizePath p ++ normalizePath q.
Proof.
  intros Hsep. unfold normalizePath.
  rewrite slashes_app. cbn [slashes map]. fold (slashes q).
  replace (if Byte.eqb sep x5c then "/"%byte else sep) with "/"%byte
    by (destruct Hsep as [-> | ->]; reflexivity).
  rewrite split_app_sep. apply List.filter_app.
Qed.

Lemma normalizePath_single (s : list byte) : component s -> normalizePath s = [s].
Proof.
  intros (Hne & Hs & Hb). unfold normalizePath.
  rewrite (slashes_clean s Hb), (split_no_sep _ s Hs). cbn [List.filter].
  destruct s; [contradiction|]. reflexivity.
Qed.

(** X16.  [normalizePath] treats both separators alike and ignores
    empty components: the parts of [p] + separator + [q] are the parts
    of [p] followed by those of [q]; a non-empty string without a
    separator is its own single part; and every part returned is
    non-empty and free of separators. *)
Theorem normalizePath_components :
  (forall (p q : list byte) (sep : byte),
     sep = "/"%byte \/ sep = x5c ->
     normalizePath (p ++ sep :: q) = normalizePath p ++ normalizePath q) /\
  (forall s : list byte, component s -> normalizePath s = [s]) /\
  normalizePath [] = [] /\
  (forall path : list byte, Forall component (normalizePath path)).
Proof.
  split; [exact normalizePath_app_sep|]. split; [exact normalizePath_single|].
  split; [reflexivity|].
  intros path. unfold normalizePath.
  pose proof (split_parts "/"%byte (slashes path)) as H.
  pose proof (slashes_no_backslash path) as Hb.
  induction H as [|part parts [H1 H2] _ IH]; cbn [List.filter]; [constructor|].
  destruct (0 <? length part)%nat eqn:E; [|exact IH].
  constructor; [|exact IH].
  unfold component. split; [|split].
  - intros ->. cbn in E. discriminate.
  - exact H1.
  - intros Hin. apply Hb. apply H2. exact Hin.
Qed.

End PathFacts.

(** ** Archives: a sibling chain that loops *)

Section LoopFacts.
Import RezLoader.

Variable toUpperCase : list byte -> list byte.

Lemma rawAt_some (buf : list byte) (i : Z) :
  0 <= i < Z.of_nat (length buf) -> exists b, DataView.rawAt buf i = Some b.
Proof.
  intros H. unfold DataView.rawAt.
  replace (i <? 0) with false by (symmetry; apply Z.ltb_ge; lia).
  destruct (lookup_lt_is_Some_2 buf (Z.to_nat i)) as [b Hb]; [lia|]. eauto.
Qed.

Lemma getUint32_value (buf : list byte) (off : Z) :
  0 <= off -> off + 4 <= Z.of_nat (length buf) ->
  exists v, DataView.getUint32 buf off true = Some v.
Proof.
  intros H0 H1.
  destruct (proj2 (getUint32_some buf off true) (conj H0 H1)) as [v E]. eauto.
Qed.

(** X17.  A file entry whose next-sibling offset is its own offset
    keeps the directory loop running for ever: for every number of
    iterations allowed, [parseDirectory] started at that entry is still
    running, and so is [parse] of an archive whose root offset points at
    it. *)
Theorem self_linked_file_entry_never_returns (buf : list byte) (off : Z) :
  0 < off -> off + 0x14 <= Z.of_nat (length buf) ->
  DataView.getUint32 buf off true = Some off ->
  (forall fl : byte,
     DataView.rawAt buf (off + 0x10) = Some fl -> DataView.u8 fl <> DIRECTORY_FLAG) ->
  (forall (fuel : nat) (dir : RezDirectoryEntry) (count : Z),
     parseDirectory toUpperCase fuel buf dir off count = Unfinished) /\
  (magicRejected buf = false -> DataView.getUint32 buf 0x08 true = Some off ->
   forall fuel : nat, parse toUpperCase fuel buf = Unfinished).
Proof.
  intros Hpos Hlen Hnext Hfile.
  assert (Hloop : forall (fuel : nat) (dir : RezDirectoryEntry) (count : Z),
             parseDirectory toUpperCase fuel buf dir off count = Unfinished).
  { induction fuel as [|fuel IH]; intros dir count.
    - cbn [parseDirectory].
      replace (off =? 0) with false by (symmetry; apply Z.eqb_neq; lia).
      replace (Z.of_nat (length buf) <=? off) with false by (symmetry; apply Z.leb_gt; lia).
      replace (Z.of_nat (length buf) <? off + 20) with false by (symmetry; apply Z.ltb_ge; lia).
      reflexivity.
    - cbn [parseDirectory].
      replace (off =? 0) with false by (symmetry; apply Z.eqb_neq; lia).
      replace (Z.of_nat (length buf) <=? off) with false by (symmetry; apply Z.leb_gt; lia).
      replace (Z.of_nat (length buf) <? off + 20) with false by (symmetry; apply Z.ltb_ge; lia).
      cbn [orb]. rewrite Z.add_0_r, Hnext.
      destruct (getUint32_value buf (off + 4)) as [v1 ->]; [lia|lia|].
      destruct (getUint32_value buf (off + 8)) as [v2 ->]; [lia|lia|].
      destruct (getUint32_value buf (off + 12)) as [v3 ->]; [lia|lia|].
      destruct (rawAt_some buf (off + 16)) as [fl Efl]; [lia|].
      destruct (rawAt_some buf (off + 17)) as [nl ->]; [lia|].
      destruct (rawAt_some buf (off + 18)) as [el ->]; [lia|].
      rewrite Efl.
      replace (DataView.u8 fl =? DIRECTORY_FLAG) with false
        by (symmetry; apply Z.eqb_neq; apply Hfile; exact Efl).
      apply IH. }
  split; [exact Hloop|].
  intros Hmagic Hroot fuel. unfold parse.
  destruct (getUint32_value buf 0) as [m E0]; [lia|lia|].
  assert (E0' : exists m', DataView.getUint32 buf 0 false = Some m').
  { destruct (proj2 (getUint32_some buf 0 false)) as [m' E]; [lia|eauto]. }
  destruct E0' as [m' ->]. rewrite Hmagic.
  destruct (getUint32_value buf 4) as [v ->]; [lia|lia|].
  rewrite Hroot, Hloop. reflexivity.
Qed.

End LoopFacts.

Lemma self_linked_file_entry_never_returns_witness :
  RezLoader.parse RezLoader.asciiUpper 1000 RezLoader.selfLinked = RezLoader.Unfinished.
Proof.
  apply (proj2 (self_linked_file_entry_never_returns RezLoader.asciiUpper RezLoader.selfLinked 12
                  ltac:(lia) ltac:(vm_compute; discriminate) ltac:(reflexivity)
                  ltac:(intros fl [= <-]; vm_compute; discriminate))).
  - reflexivity.
  - reflexivity.
Defined.

(** ** Archives: what was parsed can be listed and read *)

Section ArchiveFacts.
Import RezLoader.

Variable toUpperCase : list byte -> list byte.

Lemma collectFiles_eq (n p : list byte) (fs : list (list byte * RezFileEntry))
    (ds : list (list byte * RezDirectoryEntry)) :
  collectFiles (mkDir n p fs ds)
  = map snd fs ++ flat_map (fun kc => collectFiles (snd kc)) ds.
Proof.
  cbn [collectFiles]. f_equal.
  induction ds as [|[k c] ds IH]; [reflexivity|].
  cbn [flat_map snd]. rewrite <- IH. reflexivity.
Qed.

(** *** The two maps *)

Lemma mapSet_In {V : Type} (m : list (list byte * V)) (k : list byte) (v : V)
    (k' : list byte) (v' : V) :
  In (k', v') (mapSet m k v) -> (k' = k /\ v' = v) \/ In (k', v') m.
Proof.
  induction m as [|[k0 v0] m IH]; cbn [mapSet].
  - intros [[= <- <-]|[]]. left. split; reflexivity.
  - destruct (DataView.bytes_eqb k0 k).
    + intros [[= <- <-]|H]; [left; split; reflexivity|right; right; exact H].
    + intros [H|H]; [right; left; exact H|].
      destruct (IH H) as [E|E]; [left; exact E|right; right; exact E].
Qed.

Lemma mapSet_keys {V : Type} (m : list (list byte * V)) (k : list byte) (v : V) :
  map fst (mapSet m k v) = map fst m \/
  (~ In k (map fst m) /\ map fst (mapSet m k v) = map fst m ++ [k]).
Proof.
  induction m as [|[k0 v0] m IH]; cbn [mapSet map fst].
  - right. split; [intros []|reflexivity].
  - destruct (DataView.bytes_eqb k0 k) eqn:E.
    + apply bytes_eqb_eq in E. subst k0. left. reflexivity.
    + assert (k0 <> k).
      { intros ->. assert (DataView.bytes_eqb k k = true) by (apply bytes_eqb_eq; reflexivity).
        congruence. }
      cbn [map fst]. destruct IH as [IH|[Hn IH]].
      * left. rewrite IH. reflexivity.
      * right. split; [intros [Hk|Hk]; [contradiction|exact (Hn Hk)]|].
        rewrite IH. reflexivity.
Qed.

Lemma mapSet_distinct {V : Type} (m : list (list byte * V)) (k : list byte) (v : V) :
  distinctKeys m -> distinctKeys (mapSet m k v).
Proof.
  unfold distinctKeys. intros H.
  destruct (mapSet_keys m k v) as [-> | [Hn ->]]; [exact H|].
  apply NoDup_app. split; [exact H|]. split.
  - intros x Hx Hk. apply list_elem_of_In in Hx. apply list_elem_of_In in Hk.
    destruct Hk as [<-|[]]. exact (Hn Hx).
  - apply NoDup_singleton.
Qed.

Lemma mapSet_Forall {V : Type} (P : list byte * V -> Prop) (m : list (list byte * V))
    (k : list byte) (v : V) :
  Forall P m -> P (k, v) -> Forall P (mapSet m k v).
Proof.
  intros Hm Hkv. induction Hm as [|[k0 v0] m H0 Hm IH]; cbn [mapSet].
  - constructor; [exact Hkv|constructor].
  - destruct (DataView.bytes_eqb k0 k); constructor; assumption.
Qed.

Lemma mapGet_In {V : Type} (m : list (list byte * V)) (k : list byte) (v : V) :
  distinctKeys m -> In (k, v) m -> mapGet m k = Some v.
Proof.
  unfold distinctKeys. induction m as [|[k0 v0] m IH]; [intros _ []|].
  cbn [map fst mapGet]. intros Hd Hin. apply NoDup_cons in Hd as [Hfresh Hd].
  destruct Hin as [[= -> ->]|Hin].
  - replace (DataView.bytes_eqb k k) with true
      by (symmetry; apply bytes_eqb_eq; reflexivity).
    reflexivity.
  - destruct (DataView.bytes_eqb k0 k) eqn:E.
    + apply bytes_eqb_eq in E. subst k0. exfalso. apply Hfresh.
      apply list_elem_of_In. apply in_map_iff. exists (k, v). split; [reflexivity|exact Hin].
    + apply IH; assumption.
Qed.

Lemma mapGet_Some {V : Type} (m : list (list byte * V)) (k : list byte) (v : V) :
  mapGet m k = Some v -> In (k, v) m.
Proof.
  induction m as [|[k0 v0] m IH]; cbn [mapGet]; [discriminate|].
  destruct (DataView.bytes_eqb k0 k) eqn:E.
  - apply bytes_eqb_eq in E. subst k0. intros [= ->]. left. reflexivity.
  - intros H. right. apply IH. exact H.
Qed.

Lemma mapSet_length {V : Type} (m : list (list byte * V)) (k : list byte) (v : V) :
  (length (mapSet m k v) <= length m + 1)%nat.
Proof.
  induction m as [|[k0 v0] m IH]; cbn [mapSet length]; [lia|].
  destruct (DataView.bytes_eqb k0 k); cbn [length]; lia.
Qed.

Lemma mapSet_flat_map {V B : Type} (g : list byte * V -> list B)
    (m : list (list byte * V)) (k : list byte) (v : V) :
  (length (flat_map g (mapSet m k v)) <= length (flat_map g m) + length (g (k, v)))%nat.
Proof.
  induction m as [|[k0 v0] m IH]; cbn [mapSet flat_map].
  - rewrite length_app. cbn. lia.
  - destruct (DataView.bytes_eqb k0 k); cbn [flat_map]; rewrite !length_app; lia.
Qed.

Lemma flat_map_member {A B : Type} (g : A -> list B) (l : list A) (x : A) :
  In x l -> (length (g x) <= length (flat_map g l))%nat.
Proof.
  induction l as [|y l IH]; [intros []|].
  cbn [flat_map]. rewrite length_app. intros [->|H]; [lia|]. specialize (IH H). lia.
Qed.

(** *** Adding an entry keeps the tree well keyed *)

Lemma addFile_keeps (dir : RezDirectoryEntry) (k : list byte) (f : RezFileEntry) :
  wellKeyed toUpperCase dir -> fileKeyed toUpperCase (dirPath dir) (k, f) ->
  wellKeyed toUpperCase (addFile dir k f) /\
  dirName (addFile dir k f) = dirName dir /\
  dirPath (addFile dir k f) = dirPath dir /\
  (length (collectFiles (addFile dir k f)) <= length (collectFiles dir) + 1)%nat.
Proof.
  intros Hwk Hf. destruct Hwk as [n p fs ds H1 H2 H3 H4]. cbn [addFile dirName dirPath] in *.
  split; [|split; [reflexivity|split; [reflexivity|]]].
  - constructor; try assumption.
    + apply mapSet_distinct. exact H1.
    + apply mapSet_Forall; assumption.
  - rewrite !collectFiles_eq, !length_app, !length_map.
    pose proof (mapSet_length fs k f). lia.
Qed.

Lemma addDirectory_keeps (dir : RezDirectoryEntry) (k : list byte) (c : RezDirectoryEntry) :
  wellKeyed toUpperCase dir -> dirKeyed toUpperCase (dirPath dir) (k, c) ->
  wellKeyed toUpperCase (addDirectory dir k c) /\
  dirName (addDirectory dir k c) = dirName dir /\
  dirPath (addDirectory dir k c) = dirPath dir /\
  (length (collectFiles (addDirectory dir k c))
   <= length (collectFiles dir) + length (collectFiles c))%nat.
Proof.
  intros Hwk Hc. destruct Hwk as [n p fs ds H1 H2 H3 H4].
  cbn [addDirectory dirName dirPath] in *.
  split; [|split; [reflexivity|split; [reflexivity|]]].
  - constructor; try assumption.
    + apply mapSet_distinct. exact H3.
    + apply mapSet_Forall; assumption.
  - rewrite !collectFiles_eq, !length_app.
    pose proof (mapSet_flat_map (fun kc => collectFiles (snd kc)) ds k c) as L.
    cbn [snd] in L. lia.
Qed.

Lemma empty_wellKeyed (n p : list byte) : wellKeyed toUpperCase (mkDir n p [] []).
Proof. constructor; try constructor. Qed.

(** *** The traversal *)

Lemma parseDirectory_invariant (buf : list byte) (fuel : nat) :
  forall (dir : RezDirectoryEntry) (off count : Z) (dir' : RezDirectoryEntry) (count' : Z),
  wellKeyed toUpperCase dir ->
  parseDirectory toUpperCase fuel buf dir off count = Returns (dir', count') ->
  wellKeyed toUpperCase dir' /\ dirName dir' = dirName dir /\ dirPath dir' = dirPath dir /\
  Z.of_nat (length (collectFiles dir')) + count
  <= Z.of_nat (length (collectFiles dir)) + count'.
Proof.
  induction fuel as [|fuel IH]; intros dir off count dir' count' Hwk H;
    cbn [parseDirectory] in H.
  - destruct (_ || _); [injection H as <- <-; repeat split; [assumption|lia]|].
    destruct (_ <? _); [injection H as <- <-; repeat split; [assumption|lia]|discriminate].
  - destruct (_ || _); [injection H as <- <-; repeat split; [assumption|lia]|].
    destruct (_ <? _); [injection H as <- <-; repeat split; [assumption|lia]|].
    destruct (DataView.getUint32 buf (off + 0) true) as [nextOffset|]; [|discriminate].
    destruct (DataView.getUint32 buf (off + 4) true) as [dataOffset|] eqn:Edo; [|discriminate].
    destruct (DataView.getUint32 buf (off + 8) true) as [dataSize|] eqn:Eds; [|discriminate].
    destruct (DataView.getUint32 buf (off + 12) true) as [timestamp|]; [|discriminate].
    destruct (DataView.rawAt buf (off + 16)) as [fl|]; [|discriminate].
    destruct (DataView.rawAt buf (off + 17)) as [nl|]; [|discriminate].
    destruct (DataView.rawAt buf (off + 18)) as [el|]; [|discriminate].
    pose proof (getUint32_nonneg _ _ _ _ Edo) as Hdo.
    pose proof (getUint32_nonneg _ _ _ _ Eds) as Hds.
    destruct (DataView.u8 fl =? DIRECTORY_FLAG).
    + match type of H with
      | context [mkDir ?name _ [] []] => set (nm := name) in *
      end.
      match type of H with
      | context [mkDir nm ?childPath [] []] => set (cp := childPath) in *
      end.
      assert (Hchild : exists child c1,
                 (if dataOffset =? 0 then Returns (mkDir nm cp [] [], count)
                  else parseDirectory toUpperCase fuel buf (mkDir nm cp [] []) dataOffset count)
                 = Returns (child, c1)).
      { destruct (if dataOffset =? 0 then _ else _) as [[child c1]| |];
          [eauto|discriminate|discriminate]. }
      destruct Hchild as (child & c1 & Ec). rewrite Ec in H.
      assert (Hc : wellKeyed toUpperCase child /\ dirName child = nm /\ dirPath child = cp /\
                   Z.of_nat (length (collectFiles child)) + count <= c1).
      { destruct (dataOffset =? 0).
        - injection Ec as <- <-. split; [apply empty_wellKeyed|].
          split; [reflexivity|]. split; [reflexivity|]. cbn. lia.
        - destruct (IH _ _ _ _ _ (empty_wellKeyed nm cp) Ec) as (W & N & P & C).
          split; [exact W|]. split; [exact N|]. split; [exact P|]. cbn in C. lia. }
      destruct Hc as (Wc & Nc & Pc & Cc).
      destruct (addDirectory_keeps dir (toUpperCase nm) child Hwk) as (W1 & N1 & P1 & C1).
      { unfold dirKeyed. cbn [fst snd]. rewrite Nc, Pc. repeat split; assumption. }
      destruct (IH _ _ _ _ _ W1 H) as (W2 & N2 & P2 & C2).
      split; [exact W2|]. split; [congruence|]. split; [congruence|]. lia.
    + match type of H with
      | context [addFile dir ?k ?f] =>
          destruct (addFile_keeps dir k f Hwk) as (W1 & N1 & P1 & C1);
          [unfold fileKeyed; cbn [fst snd f_name f_path offset size];
           repeat split; assumption |]
      end.
      destruct (IH _ _ _ _ _ W1 H) as (W2 & N2 & P2 & C2).
      split; [exact W2|]. split; [congruence|]. split; [congruence|]. lia.
Qed.

Lemma parse_invariant (fuel : nat) (buf : list byte) (a : RezArchive) :
  parse toUpperCase fuel buf = Returns a ->
  buffer a = buf /\ wellKeyed toUpperCase (fs a) /\ dirPath (fs a) = ["/"]%byte /\
  Z.of_nat (length (collectFiles (fs a))) <= fileCount a.
Proof.
  unfold parse. intros H.
  destruct (DataView.getUint32 buf 0 false); [|discriminate].
  destruct (magicRejected buf); [discriminate|].
  destruct (DataView.getUint32 buf 4 true) as [v|]; [|discriminate].
  destruct (DataView.getUint32 buf 8 true) as [rootOffset|]; [|discriminate].
  destruct (parseDirectory _ _ _ _ _ _) as [[root n]| |] eqn:E; try discriminate.
  injection H as <-. cbn [buffer fs fileCount].
  destruct (parseDirectory_invariant _ _ _ _ _ _ _ (empty_wellKeyed [] ["/"]%byte) E)
    as (W & _ & P & C).
  cbn in C, P. repeat split; try assumption. lia.
Qed.

Lemma walkDir_subtree (parts : list (list byte)) :
  forall d d' : RezDirectoryEntry,
  walkDir toUpperCase d parts = Some d' ->
  (length (collectFiles d') <= length (collectFiles d))%nat.
Proof.
  induction parts as [|part parts IH]; intros d d'; cbn [walkDir].
  - intros [= ->]. lia.
  - destruct (mapGet (dirDirectories d) (toUpperCase part)) as [c|] eqn:E; [|discriminate].
    intros H. specialize (IH c d' H). apply mapGet_Some in E.
    destruct d as [n p fs ds]. cbn [dirDirectories] in E.
    rewrite (collectFiles_eq n p fs ds), length_app.
    pose proof (flat_map_member (fun kc => collectFiles (snd kc)) ds _ E) as L.
    cbn [snd] in L. lia.
Qed.

(** X18.  [fileCount] bounds every listing: for an archive [parse]
    returns, [listDir] of any path has at most [fileCount] files.  The
    count is of the file entries met, not of the files kept: in the
    sample archive with the entries "A" and "a" it is 2 while the
    listing of the root has one file. *)
Theorem fileCount_bounds_listing (fuel : nat) (buf : list byte) (a : RezArchive) :
  parse toUpperCase fuel buf = Returns a ->
  (forall path : list byte,
     Z.of_nat (length (listDir toUpperCase a path)) <= fileCount a) /\
  fileCount (parsedArchive 5 twoSameNames) = 2 /\
  length (listDir asciiUpper (parsedArchive 5 twoSameNames) ["/"]%byte) = 1%nat.
Proof.
  intros H. destruct (parse_invariant fuel buf a H) as (_ & _ & _ & C).
  split; [|split; reflexivity].
  intros path. unfold listDir, resolveDir.
  destruct (walkDir toUpperCase (fs a) (normalizePath path)) as [d|] eqn:E; [|cbn; lia].
  pose proof (walkDir_subtree _ _ _ E). lia.
Qed.

End ArchiveFacts.

Lemma fileCount_bounds_listing_witness :
  Z.of_nat (length (RezLoader.listDir RezLoader.asciiUpper
                      (RezLoader.parsedArchive 5 RezLoader.twoSameNames) ["/"]%byte))
  <= RezLoader.fileCount (RezLoader.parsedArchive 5 RezLoader.twoSameNames).
Proof.
  apply (proj1 (fileCount_bounds_listing RezLoader.asciiUpper 5 RezLoader.twoSameNames
                  (RezLoader.parsedArchive 5 RezLoader.twoSameNames) ltac:(reflexivity))).
Defined.

(** ** Archives: a listed file is read by its path *)

Section ReadBackFacts.
Import RezLoader.

Variable toUpperCase : list byte -> list byte.

Lemma normalizePath_childPathOf (parent name : list byte) :
  component name ->
  normalizePath (childPathOf parent name) = normalizePath parent ++ [name].
Proof.
  intros Hc. unfold childPathOf.
  destruct (DataView.bytes_eqb parent ["/"]%byte) eqn:E.
  - apply bytes_eqb_eq in E. subst parent.
    change ("/"%byte :: name) with ([] ++ "/"%byte :: name).
    rewrite normalizePath_app_sep by (left; reflexivity).
    rewrite (normalizePath_single name Hc). reflexivity.
  - rewrite normalizePath_app_sep by (left; reflexivity).
    rewrite (normalizePath_single name Hc). reflexivity.
Qed.

Lemma normalizePath_joinUnder (names : list (list byte)) :
  forall parent : list byte,
  Forall component names ->
  normalizePath (joinUnder parent names) = normalizePath parent ++ names.
Proof.
  induction names as [|name names IH]; intros parent H; cbn [joinUnder].
  - rewrite app_nil_r. reflexivity.
  - apply Forall_cons in H as [Hn Hs].
    rewrite (IH _ Hs), (normalizePath_childPathOf _ _ Hn), <- app_assoc. reflexivity.
Qed.

Lemma wellKeyed_inv (d : RezDirectoryEntry) :
  wellKeyed toUpperCase d ->
  distinctKeys (dirFiles d) /\
  Forall (fileKeyed toUpperCase (dirPath d)) (dirFiles d) /\
  distinctKeys (dirDirectories d) /\
  Forall (dirKeyed toUpperCase (dirPath d)) (dirDirectories d).
Proof.
  intros [n p fs ds H1 H2 H3 H4]. cbn [dirFiles dirDirectories dirPath].
  repeat split; assumption.
Qed.

Lemma fileAt_resolve (d : RezDirectoryEntry) (names : list (list byte)) (f : RezFileEntry) :
  fileAt d names f -> wellKeyed toUpperCase d ->
  names <> [] /\ f_path f = joinUnder (dirPath d) names /\
  0 <= offset f /\ 0 <= size f /\
  exists dir' : RezDirectoryEntry,
    walkDir toUpperCase d (removelast names) = Some dir' /\
    mapGet (dirFiles dir') (toUpperCase (List.last names [])) = Some f.
Proof.
  intros Hat. induction Hat as [d k f Hin | d k c names f Hin Hat IH]; intros Hwk.
  - destruct (wellKeyed_inv d Hwk) as (H1 & H2 & _ & _).
    destruct (proj1 (List.Forall_forall _ _) H2 _ Hin) as (Ek & Ep & Ho & Hs).
    cbn [fst snd] in *.
    split; [discriminate|]. split; [exact Ep|]. split; [exact Ho|]. split; [exact Hs|].
    exists d. cbn [removelast walkDir List.last]. split; [reflexivity|].
    rewrite <- Ek. apply mapGet_In; assumption.
  - destruct (wellKeyed_inv d Hwk) as (_ & _ & H3 & H4).
    destruct (proj1 (List.Forall_forall _ _) H4 _ Hin) as (Ek & Ep & Hc).
    cbn [fst snd] in *.
    destruct (IH Hc) as (Hne & Epath & Ho & Hs & dir' & Hwalk & Hget).
    split; [discriminate|].
    split; [cbn [joinUnder]; rewrite <- Ep; exact Epath|].
    split; [exact Ho|]. split; [exact Hs|].
    exists dir'. destruct names as [|n0 names]; [contradiction|].
    change (removelast (dirName c :: n0 :: names))
      with (dirName c :: removelast (n0 :: names)).
    change (List.last (dirName c :: n0 :: names) [])
      with (List.last (n0 :: names) []).
    cbn [walkDir]. rewrite <- Ek. rewrite (mapGet_In _ _ _ H3 Hin).
    split; assumption.
Qed.

Lemma fileAt_listed (d : RezDirectoryEntry) (names : list (list byte)) (f : RezFileEntry) :
  fileAt d names f -> In f (collectFiles d).
Proof.
  induction 1 as [d k f Hin | d k c names f Hin Hat IH].
  - destruct d as [n p fs ds]. cbn [dirFiles] in Hin. rewrite collectFiles_eq.
    apply in_or_app. left. apply in_map_iff. exists (k, f). split; [reflexivity|exact Hin].
  - destruct d as [n p fs ds]. cbn [dirDirectories] in Hin. rewrite collectFiles_eq.
    apply in_or_app. right. apply in_flat_map. exists (k, c). split; [exact Hin|exact IH].
Qed.

Lemma listed_fileAt :
  forall (d : RezDirectoryEntry) (f : RezFileEntry),
  In f (collectFiles d) -> exists names : list (list byte), fileAt d names f.
Proof.
  fix IH 1. intros [n p fs ds] f Hin.
  rewrite collectFiles_eq in Hin. apply in_app_or in Hin as [Hin|Hin].
  - apply in_map_iff in Hin as ([k f'] & E & Hin). cbn [snd] in E. subst f'.
    exists [f_name f]. apply (fileHere (mkDir n p fs ds) k f). exact Hin.
  - assert (G : exists (k : list byte) (c : RezDirectoryEntry) (names : list (list byte)),
                 In (k, c) ds /\ fileAt c names f).
    { clear -IH Hin. induction ds as [|[k c] ds IHds]; [destruct Hin|].
      cbn [flat_map snd] in Hin. apply in_app_or in Hin as [Hin|Hin].
      - destruct (IH c f Hin) as [names Hn]. exists k, c, names.
        split; [left; reflexivity|exact Hn].
      - destruct (IHds Hin) as (k' & c' & names & Hk & Hn). exists k', c', names.
        split; [right; exact Hk|exact Hn]. }
    destruct G as (k & c & names & Hk & Hn).
    exists (dirName c :: names). apply (fileBelow (mkDir n p fs ds) k c names f Hk Hn).
Qed.

(** X19.  What [parse] lists can be read back.  For an archive [parse]
    returns, the files [listDir("/")] gives are the files of the tree;
    and for each of them reached through names that are non-empty and
    free of separators, its own [path] resolves to it: [exists] is true
    and [readFile] returns the [size] bytes of the buffer from [offset]
    on, or throws the RangeError of a view that leaves the buffer; it
    never answers that the file is not found. *)
Theorem listed_file_is_read_by_its_path (fuel : nat) (buf : list byte) (a : RezArchive) :
  parse toUpperCase fuel buf = Returns a ->
  (forall f : RezFileEntry,
     In f (listDir toUpperCase a ["/"]%byte) <->
     exists names : list (list byte), fileAt (fs a) names f) /\
  (forall (names : list (list byte)) (f : RezFileEntry),
     fileAt (fs a) names f -> Forall component names ->
     resolveFile toUpperCase a (f_path f) = Some f /\
     exists_ toUpperCase a (f_path f) = true /\
     readFile toUpperCase a (f_path f)
     = if Z.of_nat (length buf) <? offset f + size f then inl ViewOutOfRange
       else inr (DataView.slice buf (Z.to_nat (offset f)) (Z.to_nat (offset f + size f)))).
Proof.
  intros H. destruct (parse_invariant toUpperCase fuel buf a H) as (Hb & Hwk & Hp & _).
  split.
  - intros f. change (listDir toUpperCase a ["/"]%byte) with (collectFiles (fs a)).
    split; [apply listed_fileAt|]. intros [names Hn]. exact (fileAt_listed _ _ _ Hn).
  - intros names f Hat Hc.
    destruct (fileAt_resolve _ _ _ Hat Hwk) as (Hne & Epath & Ho & Hs & dir' & Hwalk & Hget).
    assert (Hparts : normalizePath (f_path f) = names).
    { rewrite Epath, Hp. rewrite (normalizePath_joinUnder names _ Hc). reflexivity. }
    assert (Hres : resolveFile toUpperCase a (f_path f) = Some f).
    { unfold resolveFile. rewrite Hparts.
      destruct names as [|n0 names]; [contradiction|].
      rewrite Hwalk. exact Hget. }
    split; [exact Hres|]. unfold exists_, readFile. rewrite Hres, Hb.
    split; [reflexivity|].
    replace (offset f <? 0) with false by (symmetry; apply Z.ltb_ge; lia).
    replace (size f <? 0) with false by (symmetry; apply Z.ltb_ge; lia).
    reflexivity.
Qed.

End ReadBackFacts.

Lemma listed_file_is_read_by_its_path_witness :
  RezLoader.readFile RezLoader.asciiUpper (RezLoader.parsedArchive 5 RezLoader.twoSameNames)
    (RezLoader.f_path RezLoader.sampleEntry)
  = inr ["R"; "E"; "Z"]%byte.
Proof.
  destruct (listed_file_is_read_by_its_path RezLoader.asciiUpper 5 RezLoader.twoSameNames
              (RezLoader.parsedArchive 5 RezLoader.twoSameNames) ltac:(reflexivity))
    as [_ H].
  destruct (H [["a"]%byte] RezLoader.sampleEntry) as (_ & _ & R).
  - apply (RezLoader.fileHere _ ["A"]%byte RezLoader.sampleEntry). left. reflexivity.
  - constructor; [|constructor]. unfold RezLoader.component.
    split; [discriminate|]. split; intros [E|[]]; discriminate.
  - exact R.
Defined.

(** ** Publish/subscribe: who is called *)

Section BusFacts.
Import EventBus.

Lemma bytes_eqb_refl (k : list byte) : DataView.bytes_eqb k k = true.
Proof. apply bytes_eqb_eq. reflexivity. Qed.

Lemma bytes_eqb_neq (k k' : list byte) : k <> k' -> DataView.bytes_eqb k k' = false.
Proof.
  intros H. destruct (DataView.bytes_eqb k k') eqn:E; [|reflexivity].
  apply bytes_eqb_eq in E. contradiction.
Qed.

Lemma mapGet_mapSet_same {V : Type} (m : list (list byte * V)) (k : list byte) (v : V) :
  RezLoader.mapGet (RezLoader.mapSet m k v) k = Some v.
Proof.
  induction m as [|[k0 v0] m IH]; cbn [RezLoader.mapSet RezLoader.mapGet].
  - rewrite bytes_eqb_refl. reflexivity.
  - destruct (DataView.bytes_eqb k0 k) eqn:E; cbn [RezLoader.mapGet].
    + rewrite bytes_eqb_refl. reflexivity.
    + rewrite E. exact IH.
Qed.

Lemma mapGet_mapSet_other {V : Type} (m : list (list byte * V)) (k k' : list byte) (v : V) :
  k <> k' -> RezLoader.mapGet (RezLoader.mapSet m k v) k' = RezLoader.mapGet m k'.
Proof.
  intros Hne. induction m as [|[k0 v0] m IH]; cbn [RezLoader.mapSet RezLoader.mapGet].
  - rewrite (bytes_eqb_neq _ _ Hne). reflexivity.
  - destruct (DataView.bytes_eqb k0 k) eqn:E; cbn [RezLoader.mapGet].
    + apply bytes_eqb_eq in E. subst k0. rewrite (bytes_eqb_neq _ _ Hne). reflexivity.
    + rewrite IH. reflexivity.
Qed.

Lemma mapGet_mapDelete_same {V : Type} (m : list (list byte * V)) (k : list byte) :
  RezLoader.mapGet (mapDelete m k) k = None.
Proof.
  induction m as [|[k0 v0] m IH]; cbn [mapDelete RezLoader.mapGet]; [reflexivity|].
  destruct (DataView.bytes_eqb k0 k) eqn:E; [exact IH|].
  cbn [RezLoader.mapGet]. rewrite E. exact IH.
Qed.

Lemma mapGet_mapDelete_Some {V : Type} (m : list (list byte * V)) (k k' : list byte) (v : V) :
  RezLoader.mapGet (mapDelete m k) k' = Some v -> RezLoader.mapGet m k' = Some v.
Proof.
  induction m as [|[k0 v0] m IH]; cbn [mapDelete RezLoader.mapGet]; [discriminate|].
  destruct (DataView.bytes_eqb k0 k) eqn:E.
  - intros H. specialize (IH H). apply bytes_eqb_eq in E. subst k0.
    destruct (DataView.bytes_eqb k k') eqn:E'; [|exact IH].
    apply bytes_eqb_eq in E'. subst k'. rewrite mapGet_mapDelete_same in H. discriminate.
  - cbn [RezLoader.mapGet]. destruct (DataView.bytes_eqb k0 k'); [auto|exact IH].
Qed.

Lemma alter_alter {A : Type} (f g : A -> A) (i : nat) (l : list A) :
  alter f i (alter g i l) = alter (fun x => f (g x)) i l.
Proof.
  revert i. induction l as [|x l IH]; intros [|i]; cbn; [reflexivity..|].
  f_equal. apply IH.
Qed.

Lemma filter_filter {A : Type} (f g : A -> bool) (l : list A) :
  List.filter f (List.filter g l) = List.filter (fun x => g x && f x) l.
Proof.
  induction l as [|x l IH]; cbn [List.filter]; [reflexivity|].
  destruct (g x); cbn [List.filter andb]; [destruct (f x)|]; rewrite IH; reflexivity.
Qed.

Lemma filter_all {A : Type} (l : list A) : List.filter (fun _ => true) l = l.
Proof. induction l as [|x l IH]; cbn; [reflexivity|]. rewrite IH. reflexivity. Qed.

Lemma sameHandler_refl (h : Handler) : sameHandler h h = true.
Proof. destruct h; cbn; apply Nat.eqb_refl. Qed.

(** *** The iteration of [emit] *)

Lemma invoke_fold {P : Type} (payload : P) (a : nat) (hs : list Handler) :
  forall (b : t) (log : list (nat * P)),
  (forall w home fn : nat, In (Once w home fn) hs -> home = a) ->
  fold_left (invoke payload) hs (b, log)
  = (mk (alter (List.filter
                  (fun x => negb (existsb (fun h => negb (isPlain h) && sameHandler h x) hs)))
               a (heap b))
        (listeners b) (wrappers b),
     log ++ map (fun h => (calledFunction h, payload)) hs).
Proof.
  induction hs as [|h hs IH]; intros b log Hhome; cbn [fold_left map existsb].
  - rewrite app_nil_r. destruct b as [hp ls ws]. cbn [heap listeners wrappers negb].
    rewrite list_alter_id; [reflexivity|]. intros s. apply filter_all.
  - assert (Hrest : forall w home fn : nat, In (Once w home fn) hs -> home = a)
      by (intros w home fn Hin; apply (Hhome w home fn); right; exact Hin).
    destruct h as [fn | w home fn]; cbn [invoke fst snd calledFunction isPlain negb andb orb].
    + rewrite (IH _ _ Hrest). rewrite <- app_assoc. reflexivity.
    + assert (home = a) by (apply (Hhome w home fn); left; reflexivity). subst home.
      rewrite (IH _ _ Hrest).
      cbn [unsubscribe heap listeners wrappers target subscribed].
      rewrite alter_alter. rewrite <- app_assoc. cbn [app].
      f_equal. f_equal. apply list_alter_ext; [|reflexivity].
      intros s _. unfold setDelete. rewrite filter_filter.
      apply List.filter_ext. intros x. rewrite negb_orb. reflexivity.
Qed.

Lemma subscribers_set (b : t) (e : list byte) (a : nat) :
  RezLoader.mapGet (listeners b) e = Some a ->
  wellFormed b ->
  heap b !! a = Some (subscribers b e).
Proof.
  intros Ha [Hvalid _]. unfold subscribers. rewrite Ha.
  destruct (lookup_lt_is_Some_2 (heap b) a (Hvalid e a Ha)) as [s Hs].
  rewrite Hs. reflexivity.
Qed.

Lemma emit_result {P : Type} (b : t) (e : list byte) (payload : P) (a : nat) :
  wellFormed b -> RezLoader.mapGet (listeners b) e = Some a ->
  emit b e payload
  = (mk (alter (List.filter isPlain) a (heap b)) (listeners b) (wrappers b),
     map (fun h => (calledFunction h, payload)) (subscribers b e)).
Proof.
  intros Hwf Ha. pose proof (subscribers_set b e a Ha Hwf) as Hs.
  unfold emit. rewrite Ha, Hs. cbn [default].
  rewrite (invoke_fold payload a).
  2:{ intros w home fn Hin. destruct Hwf as [_ Hw]. apply (Hw a _ w home fn Hs Hin). }
  cbn [app]. f_equal. f_equal. apply list_alter_ext; [|reflexivity].
  intros s Hs'. rewrite Hs in Hs'. injection Hs' as <-.
  apply List.filter_ext_in. intros x Hx.
  destruct x as [fn | w home fn]; cbn [isPlain].
  - apply negb_true_iff. apply not_true_is_false. intros Hex.
    apply existsb_exists in Hex as (h & _ & Hh). destruct h; cbn in Hh; discriminate.
  - apply negb_false_iff. apply existsb_exists. exists (Once w home fn).
    split; [exact Hx|]. cbn. apply Nat.eqb_refl.
Qed.

Lemma emit_calls {P : Type} (b : t) (e : list byte) (payload : P) :
  wellFormed b ->
  snd (emit b e payload) = map (fun h => (calledFunction h, payload)) (subscribers b e).
Proof.
  intros Hwf. destruct (RezLoader.mapGet (listeners b) e) as [a|] eqn:Ha.
  - rewrite (emit_result b e payload a Hwf Ha). reflexivity.
  - unfold emit, subscribers. rewrite Ha. reflexivity.
Qed.

Lemma emit_subscribers {P : Type} (b : t) (e : list byte) (payload : P) :
  wellFormed b ->
  subscribers (fst (emit b e payload)) e = List.filter isPlain (subscribers b e).
Proof.
  intros Hwf. destruct (RezLoader.mapGet (listeners b) e) as [a|] eqn:Ha.
  - pose proof (subscribers_set b e a Ha Hwf) as Hs.
    rewrite (emit_result b e payload a Hwf Ha). cbn [fst].
    unfold subscribers at 1. cbn [listeners heap]. rewrite Ha.
    rewrite list_lookup_alter_eq, Hs. reflexivity.
  - unfold emit, subscribers. rewrite Ha. cbn [fst]. rewrite Ha. reflexivity.
Qed.

Lemma alter_wellFormed (b : t) (f : list Handler -> list Handler) (a : nat) :
  wellFormed b ->
  (forall (s : list Handler) (h : Handler), In h (f s) -> In h s) ->
  wellFormed (mk (alter f a (heap b)) (listeners b) (wrappers b)).
Proof.
  intros [Hvalid Hw] Hsub. split; cbn [heap listeners wrappers].
  - intros e x Hx. rewrite length_alter. exact (Hvalid e x Hx).
  - intros x s w home fn Hs Hin.
    destruct (decide (a = x)) as [->|Hne].
    + rewrite list_lookup_alter_eq in Hs.
      destruct (heap b !! x) as [s0|] eqn:E; [|discriminate].
      cbn in Hs. injection Hs as <-. apply (Hw x s0 w home fn E). apply Hsub. exact Hin.
    + rewrite list_lookup_alter_ne in Hs by exact Hne. exact (Hw x s w home fn Hs Hin).
Qed.

Lemma emit_wellFormed {P : Type} (b : t) (e : list byte) (payload : P) :
  wellFormed b -> wellFormed (fst (emit b e payload)).
Proof.
  intros Hwf. destruct (RezLoader.mapGet (listeners b) e) as [a|] eqn:Ha.
  - rewrite (emit_result b e payload a Hwf Ha). cbn [fst].
    apply alter_wellFormed; [exact Hwf|].
    intros s h Hin. apply List.filter_In in Hin. tauto.
  - unfold emit. rewrite Ha. exact Hwf.
Qed.

(** *** Subscribing *)

Lemma create_wellFormed : wellFormed create.
Proof.
  split; cbn.
  - intros e a H. discriminate.
  - intros a s w home fn H. discriminate.
Qed.

Lemma setAdd_In (h x : Handler) (s : list Handler) : In x (setAdd h s) -> x = h \/ In x s.
Proof.
  unfold setAdd. destruct (existsb _ _); [auto|].
  intros H. apply in_app_or in H as [H|[H|[]]]; auto.
Qed.

Lemma on_wellFormed (b : t) (e : list byte) (h : Handler) :
  wellFormed b ->
  (forall w home fn : nat,
     h = Once w home fn -> home = target (snd (on b e h)) /\ (w < wrappers b)%nat) ->
  wellFormed (fst (on b e h)).
Proof.
  intros [Hvalid Hw] Hh. unfold on in *.
  destruct (RezLoader.mapGet (listeners b) e) as [a|] eqn:Ha; cbn [fst snd target] in *.
  - split; cbn [heap listeners wrappers].
    + intros e' x Hx. rewrite length_alter. exact (Hvalid e' x Hx).
    + intros x s w home fn Hs Hin.
      destruct (decide (a = x)) as [->|Hne].
      * rewrite list_lookup_alter_eq in Hs.
        destruct (heap b !! x) as [s0|] eqn:E; [|discriminate].
        cbn in Hs. injection Hs as <-.
        apply setAdd_In in Hin as [E1|Hin]; [exact (Hh w home fn (eq_sym E1))|].
        exact (Hw x s0 w home fn E Hin).
      * rewrite list_lookup_alter_ne in Hs by exact Hne. exact (Hw x s w home fn Hs Hin).
  - split; cbn [heap listeners wrappers].
    + intros e' x Hx. rewrite length_app. cbn [length].
      destruct (DataView.bytes_eqb e e') eqn:Ee.
      * apply bytes_eqb_eq in Ee. subst e'.
        rewrite mapGet_mapSet_same in Hx. injection Hx as <-. lia.
      * assert (Hne : e <> e') by (intros ->; rewrite bytes_eqb_refl in Ee; discriminate).
        rewrite mapGet_mapSet_other in Hx by exact Hne.
        specialize (Hvalid e' x Hx). lia.
    + intros x s w home fn Hs Hin.
      destruct (decide (x < length (heap b))%nat) as [Hlt|Hge].
      * rewrite lookup_app_l in Hs by exact Hlt. exact (Hw x s w home fn Hs Hin).
      * rewrite lookup_app_r in Hs by lia.
        destruct (x - length (heap b))%nat as [|k] eqn:Ek; cbn in Hs; [|discriminate].
        injection Hs as <-. cbn in Hin. destruct Hin as [E1|[]].
        destruct (Hh w home fn E1) as [-> Hlt]. split; [lia|exact Hlt].
Qed.

Lemma unsubscribe_wellFormed (b : t) (u : Unsubscribe) :
  wellFormed b -> wellFormed (unsubscribe b u).
Proof.
  intros Hwf. unfold unsubscribe. apply alter_wellFormed; [exact Hwf|].
  intros s h Hin. unfold setDelete in Hin. apply List.filter_In in Hin. tauto.
Qed.

Lemma off_wellFormed (b : t) (e : list byte) : wellFormed b -> wellFormed (off b e).
Proof.
  intros [Hvalid Hw]. split; cbn [off heap listeners wrappers].
  - intros e' a Ha. apply mapGet_mapDelete_Some in Ha. exact (Hvalid e' a Ha).
  - exact Hw.
Qed.

Lemma on_subscribers (b : t) (e : list byte) (h : Handler) :
  wellFormed b ->
  subscribers (fst (on b e h)) e = setAdd h (subscribers b e).
Proof.
  intros Hwf. unfold on.
  destruct (RezLoader.mapGet (listeners b) e) as [a|] eqn:Ha; cbn [fst].
  - pose proof (subscribers_set b e a Ha Hwf) as Hs.
    unfold subscribers at 1. cbn [listeners heap]. rewrite Ha.
    rewrite list_lookup_alter_eq, Hs. reflexivity.
  - unfold subscribers. cbn [listeners heap]. rewrite mapGet_mapSet_same, Ha.
    rewrite lookup_app_r by lia. rewrite Nat.sub_diag. reflexivity.
Qed.

Lemma on_target (b : t) (e : list byte) (h : Handler) :
  wellFormed b ->
  RezLoader.mapGet (listeners (fst (on b e h))) e = Some (target (snd (on b e h))) /\
  (target (snd (on b e h)) < length (heap (fst (on b e h))))%nat /\
  subscribed (snd (on b e h)) = h.
Proof.
  intros [Hvalid _]. unfold on.
  destruct (RezLoader.mapGet (listeners b) e) as [a|] eqn:Ha;
    cbn [fst snd target subscribed listeners heap].
  - split; [exact Ha|]. split; [|reflexivity]. rewrite length_alter. exact (Hvalid e a Ha).
  - split; [apply mapGet_mapSet_same|]. split; [|reflexivity].
    rewrite length_app. cbn. lia.
Qed.

Lemma on_target_known (b : t) (e : list byte) (h : Handler) (a : nat) :
  RezLoader.mapGet (listeners b) e = Some a -> target (snd (on b e h)) = a.
Proof. intros Ha. unfold on. rewrite Ha. reflexivity. Qed.

Lemma unsubscribe_subscribers (b : t) (u : Unsubscribe) (e : list byte) (a : nat) :
  wellFormed b -> RezLoader.mapGet (listeners b) e = Some a ->
  subscribers (unsubscribe b u) e
  = if Nat.eqb (target u) a then setDelete (subscribed u) (subscribers b e)
    else subscribers b e.
Proof.
  intros Hwf Ha. pose proof (subscribers_set b e a Ha Hwf) as Hs.
  unfold subscribers at 1. cbn [unsubscribe listeners heap]. rewrite Ha.
  destruct (Nat.eqb (target u) a) eqn:E.
  - apply Nat.eqb_eq in E. rewrite E, list_lookup_alter_eq, Hs. reflexivity.
  - apply Nat.eqb_neq in E. rewrite list_lookup_alter_ne by exact E. rewrite Hs. reflexivity.
Qed.

Lemma setAdd_fresh (h : Handler) (s : list Handler) :
  (forall x, In x s -> sameHandler h x = false) -> setAdd h s = s ++ [h].
Proof.
  intros H. unfold setAdd.
  destruct (existsb (sameHandler h) s) eqn:E; [|reflexivity].
  apply existsb_exists in E as (x & Hx & Hs). rewrite (H x Hx) in Hs. discriminate.
Qed.

Lemma setAdd_twice (h : Handler) (s : list Handler) : setAdd h (setAdd h s) = setAdd h s.
Proof.
  unfold setAdd. destruct (existsb (sameHandler h) s) eqn:E.
  - rewrite E. reflexivity.
  - rewrite existsb_app. cbn [existsb]. rewrite sameHandler_refl.
    rewrite orb_true_r. reflexivity.
Qed.

Lemma setDelete_setAdd (h : Handler) (s : list Handler) :
  setDelete h (setAdd h s) = setDelete h s.
Proof.
  unfold setAdd. destruct (existsb (sameHandler h) s); [reflexivity|].
  unfold setDelete. rewrite List.filter_app. cbn [List.filter].
  rewrite sameHandler_refl. cbn [negb]. apply app_nil_r.
Qed.

Lemma once_home (b : t) (e : list byte) :
  wellFormed b ->
  forall h : Handler,
  target (snd (on (mk (heap b) (listeners b) (S (wrappers b))) e h))
  = match RezLoader.mapGet (listeners b) e with
    | Some a => a
    | None => length (heap b)
    end.
Proof.
  intros _ h. unfold on. cbn [listeners heap].
  destruct (RezLoader.mapGet (listeners b) e); reflexivity.
Qed.

Lemma bump_wellFormed (b : t) :
  wellFormed b -> wellFormed (mk (heap b) (listeners b) (S (wrappers b))).
Proof.
  intros [Hvalid Hw]. split; cbn [heap listeners wrappers]; [exact Hvalid|].
  intros a s w home fn Hs Hin. destruct (Hw a s w home fn Hs Hin). split; [assumption|lia].
Qed.

Lemma once_wellFormed (b : t) (e : list byte) (fn : nat) :
  wellFormed b -> wellFormed (once b e fn).
Proof.
  intros Hwf. unfold once. apply on_wellFormed; [apply bump_wellFormed; exact Hwf|].
  intros w home fn' [= <- <- <-]. rewrite (once_home b e Hwf). cbn [wrappers].
  split; [reflexivity|lia].
Qed.

Lemma once_subscribers (b : t) (e : list byte) (fn : nat) :
  wellFormed b ->
  exists home : nat,
    subscribers (once b e fn) e = subscribers b e ++ [Once (wrappers b) home fn].
Proof.
  intros Hwf. unfold once. eexists.
  rewrite (on_subscribers _ e _ (bump_wellFormed b Hwf)).
  change (subscribers (mk (heap b) (listeners b) (S (wrappers b))) e) with (subscribers b e).
  apply setAdd_fresh. intros x Hx.
  destruct x as [g | w home g]; cbn [sameHandler]; [reflexivity|].
  apply Nat.eqb_neq. intros <-.
  destruct (RezLoader.mapGet (listeners b) e) as [a|] eqn:Ha.
  - pose proof (subscribers_set b e a Ha Hwf) as Hs.
    destruct Hwf as [_ Hw]. destruct (Hw a _ _ _ _ Hs Hx). lia.
  - unfold subscribers in Hx. rewrite Ha in Hx. destruct Hx.
Qed.

(** X20.  [emit] calls the subscribers of the event, each once, in
    the order they subscribed, with the payload; afterwards the handlers
    added with [on] are still subscribed, in the same order, and the
    wrappers [once] had added are gone. *)
Theorem emit_calls_the_subscribers {P : Type} (b : t) (e : list byte) (payload : P) :
  wellFormed b ->
  snd (emit b e payload) = map (fun h => (calledFunction h, payload)) (subscribers b e) /\
  subscribers (fst (emit b e payload)) e = List.filter isPlain (subscribers b e) /\
  wellFormed (fst (emit b e payload)).
Proof.
  intros Hwf. split; [apply emit_calls; exact Hwf|].
  split; [apply emit_subscribers; exact Hwf|apply emit_wellFormed; exact Hwf].
Qed.

(** X21.  A handler added with [once] is called by the next [emit] of
    its event, after the handlers subscribed before it, and by no later
    one: that [emit] makes the calls it would have made without it plus
    one call of the handler, and leaves the event subscribed as if
    [once] had not been called. *)
Theorem once_fires_once {P : Type} (b : t) (e : list byte) (fn : nat) (p q : P) :
  wellFormed b ->
  snd (emit (once b e fn) e p) = snd (emit b e p) ++ [(fn, p)] /\
  subscribers (fst (emit (once b e fn) e p)) e = subscribers (fst (emit b e p)) e /\
  snd (emit (fst (emit (once b e fn) e p)) e q) = snd (emit (fst (emit b e p)) e q).
Proof.
  intros Hwf. pose proof (once_wellFormed b e fn Hwf) as Hwf1.
  destruct (once_subscribers b e fn Hwf) as [home Hs].
  assert (E2 : subscribers (fst (emit (once b e fn) e p)) e
               = subscribers (fst (emit b e p)) e).
  { rewrite (emit_subscribers _ e p Hwf1), (emit_subscribers _ e p Hwf), Hs.
    rewrite List.filter_app. cbn. apply app_nil_r. }
  split; [|split; [exact E2|]].
  - rewrite (emit_calls _ e p Hwf1), (emit_calls _ e p Hwf), Hs, map_app. reflexivity.
  - rewrite (emit_calls _ e q (emit_wellFormed _ e p Hwf1)).
    rewrite (emit_calls _ e q (emit_wellFormed _ e p Hwf)). rewrite E2. reflexivity.
Qed.

(** X22.  The handlers of an event form a set.  Subscribing a function
    that is already subscribed changes nothing, so it is still called
    once per [emit]; and one call of the unsubscribe function removes
    it, however many times it was subscribed and whoever subscribed it
    before. *)
Theorem subscriptions_form_a_set (b : t) (e : list byte) (fn : nat) :
  wellFormed b ->
  subscribers (fst (on (fst (on b e (Plain fn))) e (Plain fn))) e
    = subscribers (fst (on b e (Plain fn))) e /\
  subscribers (unsubscribe (fst (on (fst (on b e (Plain fn))) e (Plain fn)))
                           (snd (on b e (Plain fn)))) e
    = setDelete (Plain fn) (subscribers b e) /\
  ~ In (Plain fn) (setDelete (Plain fn) (subscribers b e)).
Proof.
  intros Hwf.
  assert (Hwf1 : wellFormed (fst (on b e (Plain fn))))
    by (apply on_wellFormed; [exact Hwf|discriminate]).
  assert (Hwf2 : wellFormed (fst (on (fst (on b e (Plain fn))) e (Plain fn))))
    by (apply on_wellFormed; [exact Hwf1|discriminate]).
  destruct (on_target b e (Plain fn) Hwf) as (T1 & L1 & S1).
  destruct (on_target _ e (Plain fn) Hwf1) as (T2 & L2 & S2).
  split; [|split].
  - rewrite !on_subscribers by assumption. apply setAdd_twice.
  - assert (Hsame : target (snd (on (fst (on b e (Plain fn))) e (Plain fn)))
                    = target (snd (on b e (Plain fn)))).
    { apply on_target_known. exact T1. }
    rewrite (unsubscribe_subscribers _ _ e _ Hwf2 T2).
    rewrite Hsame, Nat.eqb_refl, S1.
    rewrite !on_subscribers by assumption.
    rewrite setAdd_twice. apply setDelete_setAdd.
  - unfold setDelete. intros Hin. apply List.filter_In in Hin as [_ Hin].
    cbn in Hin. rewrite Nat.eqb_refl in Hin. discriminate.
Qed.

(** X23.  [off] empties an event, and the unsubscribe functions handed
    out before it are dead afterwards: they act on the set that [off]
    removed, so calling one does not unsubscribe a handler that was
    subscribed again after the [off], while the unsubscribe function of
    the new subscription does. *)
Theorem unsubscribe_after_off_is_inert {P : Type} (b : t) (e : list byte) (fn : nat)
    (payload : P) :
  wellFormed b ->
  subscribers (off (fst (on b e (Plain fn))) e) e = [] /\
  snd (emit (off (fst (on b e (Plain fn))) e) e payload) = [] /\
  subscribers (unsubscribe (fst (on (off (fst (on b e (Plain fn))) e) e (Plain fn)))
                           (snd (on b e (Plain fn)))) e
    = [Plain fn] /\
  subscribers (unsubscribe (fst (on (off (fst (on b e (Plain fn))) e) e (Plain fn)))
                           (snd (on (off (fst (on b e (Plain fn))) e) e (Plain fn)))) e
    = [].
Proof.
  intros Hwf.
  assert (Hwf1 : wellFormed (fst (on b e (Plain fn))))
    by (apply on_wellFormed; [exact Hwf|discriminate]).
  set (b1 := fst (on b e (Plain fn))) in *.
  set (u1 := snd (on b e (Plain fn))).
  assert (Hwf2 : wellFormed (off b1 e)) by (apply off_wellFormed; exact Hwf1).
  set (b2 := off b1 e) in *.
  assert (Hwf3 : wellFormed (fst (on b2 e (Plain fn))))
    by (apply on_wellFormed; [exact Hwf2|discriminate]).
  destruct (on_target b e (Plain fn) Hwf) as (T1 & L1 & S1).
  fold b1 u1 in T1, L1, S1.
  destruct (on_target b2 e (Plain fn) Hwf2) as (T3 & L3 & S3).
  assert (Hnone : RezLoader.mapGet (listeners b2) e = None)
    by (apply mapGet_mapDelete_same).
  assert (Hempty : subscribers b2 e = []).
  { unfold subscribers. rewrite Hnone. reflexivity. }
  assert (Hnew : target (snd (on b2 e (Plain fn))) = length (heap b1)).
  { unfold on. rewrite Hnone. reflexivity. }
  assert (Hsub3 : subscribers (fst (on b2 e (Plain fn))) e = [Plain fn]).
  { rewrite (on_subscribers b2 e _ Hwf2), Hempty. reflexivity. }
  split; [exact Hempty|]. split.
  { rewrite (emit_calls b2 e payload Hwf2), Hempty. reflexivity. }
  split.
  - rewrite (unsubscribe_subscribers _ _ e _ Hwf3 T3).
    replace (Nat.eqb (target u1) (target (snd (on b2 e (Plain fn))))) with false
      by (symmetry; apply Nat.eqb_neq; rewrite Hnew; lia).
    exact Hsub3.
  - rewrite (unsubscribe_subscribers _ _ e _ Hwf3 T3).
    rewrite Nat.eqb_refl, S3, Hsub3. cbn. rewrite Nat.eqb_refl. reflexivity.
Qed.

End BusFacts.

Lemma emit_calls_the_subscribers_witness :
  snd (EventBus.emit (fst (EventBus.on EventBus.create ["e"]%byte (EventBus.Plain 1)))
                     ["e"]%byte 7%Z)
  = [(1%nat, 7%Z)].
Proof.
  apply (proj1 (emit_calls_the_subscribers
                  (fst (EventBus.on EventBus.create ["e"]%byte (EventBus.Plain 1)))
                  ["e"]%byte 7%Z
                  (on_wellFormed EventBus.create ["e"]%byte (EventBus.Plain 1)
                     create_wellFormed ltac:(discriminate)))).
Defined.

Lemma once_fires_once_witness :
  snd (EventBus.emit (EventBus.once EventBus.create ["e"]%byte 1) ["e"]%byte 7%Z)
    = [(1%nat, 7%Z)] /\
  snd (EventBus.emit
         (fst (EventBus.emit (EventBus.once EventBus.create ["e"]%byte 1) ["e"]%byte 7%Z))
         ["e"]%byte 8%Z)
    = [].
Proof.
  destruct (once_fires_once EventBus.create ["e"]%byte 1 7%Z 8%Z create_wellFormed)
    as (H1 & _ & H3).
  split; [exact H1|exact H3].
Defined.

Lemma subscriptions_form_a_set_witness :
  EventBus.subscribers
    (fst (EventBus.on (fst (EventBus.on EventBus.create ["e"]%byte (EventBus.Plain 1)))
                      ["e"]%byte (EventBus.Plain 1))) ["e"]%byte
  = [EventBus.Plain 1].
Proof.
  apply (proj1 (subscriptions_form_a_set EventBus.create ["e"]%byte 1 create_wellFormed)).
Defined.

Lemma unsubscribe_after_off_is_inert_witness :
  EventBus.subscribers
    (EventBus.unsubscribe
       (fst (EventBus.on
               (EventBus.off (fst (EventBus.on EventBus.create ["e"]%byte (EventBus.Plain 1)))
                             ["e"]%byte)
               ["e"]%byte (EventBus.Plain 1)))
       (snd (EventBus.on EventBus.create ["e"]%byte (EventBus.Plain 1)))) ["e"]%byte
  = [EventBus.Plain 1].
Proof.
  apply (proj1 (proj2 (proj2 (unsubscribe_after_off_is_inert EventBus.create ["e"]%byte 1 0%Z
                                create_wellFormed)))).
Defined.

(** ** Archives: when the traversal ends *)

Section TerminationFacts.
Import RezLoader.

Variable toUpperCase : list byte -> list byte.







End TerminationFacts.




(** ** Level maps: a layer's tiles come from its table *)

Section LayerTableFacts.
Import Thrown WwdLoader.

Ltac unbind H :=
  repeat match type of H with
         | bind ?e _ = inr _ =>
             let E := fresh "E" in
             destruct e eqn:E; [discriminate H|]; cbn [bind] in H
         end.

Lemma int32Array_elements (buffer : list byte) (byteOffset len : Z) (ts : list Z) :
  int32Array buffer byteOffset len = inr ts ->
  byteOffset mod 4 = 0 /\ 0 <= len /\
  byteOffset + 4 * len <= Z.of_nat (length buffer) /\
  forall k : nat, Z.of_nat k < len ->
    ts !! k = DataView.getInt32 buffer (byteOffset + 4 * Z.of_nat k) true.
Proof.
  unfold int32Array. destruct (_ || _) eqn:G; [discriminate|].
  apply orb_false_iff in G as [G G3]. apply orb_false_iff in G as [G1 G2].
  apply negb_false_iff, Z.eqb_eq in G1. apply Z.ltb_ge in G2. apply Z.ltb_ge in G3.
  intros H. split; [exact G1|]. split; [exact G2|]. split; [exact G3|].
  intros k Hk. apply collect_inr in H.
  assert (Hseq : seq 0 (Z.to_nat len) !! k = Some k).
  { rewrite lookup_seq_lt by lia. reflexivity. }
  destruct (Forall2_lookup_l _ _ _ _ _ H Hseq) as (y & Hy & Hr).
  apply read_inr in Hr. rewrite Hy, Hr. reflexivity.
Qed.

Lemma upto_lookup (n : Z) (i : nat) (x : Z) : upto n !! i = Some x -> x = Z.of_nat i.
Proof.
  unfold upto. rewrite list_lookup_fmap. intros H.
  destruct (seq 0 (Z.to_nat n) !! i) as [j|] eqn:E; [|discriminate].
  apply lookup_seq in E as [-> _]. cbn in H. injection H as <-. reflexivity.
Qed.

(** X27.  The layers of a returned level are read from the layer
    table of the header: layer [i] from the 52-byte-spaced record at
    [layerOffset + 52 i], with its width and height as stored there and
    its tiles the little-endian 32-bit values of its tile table.  A
    level is returned only if every such table starts at a multiple of
    4, has a non-negative number of tiles and lies in the buffer. *)
Theorem layer_tiles_are_read_from_the_table (buffer : list byte) (level : WwdLevel) :
  parse buffer = inr level ->
  exists layerOffset : Z,
    DataView.getUint32 buffer 0x5E0 true = Some layerOffset /\
    forall (i : nat) (l : WwdLayer),
      layers level !! i = Some l ->
      exists tilesOffset : Z,
        DataView.getUint32 buffer (layerOffset + Z.of_nat i * LAYER_HEADER_SIZE + 0x40) true
          = Some tilesOffset /\
        DataView.getInt32 buffer (layerOffset + Z.of_nat i * LAYER_HEADER_SIZE + 0x28) true
          = Some (tilesWide l) /\
        DataView.getInt32 buffer (layerOffset + Z.of_nat i * LAYER_HEADER_SIZE + 0x2C) true
          = Some (tilesHigh l) /\
        tilesOffset mod 4 = 0 /\
        0 <= tilesWide l * tilesHigh l /\
        tilesOffset + 4 * (tilesWide l * tilesHigh l) <= Z.of_nat (length buffer) /\
        forall k : nat,
          Z.of_nat k < tilesWide l * tilesHigh l ->
          tiles l !! k = DataView.getInt32 buffer (tilesOffset + 4 * Z.of_nat k) true.
Proof.
  intros H. unfold parse in H. cbv beta zeta in H. unbind H.
  injection H as <-. cbn [layers].
  match goal with
  | Hl : collect (fun i => parseLayerHeader buffer (?lo + i * LAYER_HEADER_SIZE)) _ = inr _,
    Hr : read (DataView.getUint32 buffer 1504 true) = inr ?lo |- _ =>
      exists lo; apply read_inr in Hr; split; [exact Hr|];
      apply collect_inr in Hl; rename Hl into Hlayers
  end.
  intros i layer Hi.
  destruct (Forall2_lookup_r _ _ _ _ _ Hlayers Hi) as (x & Hx & Hp).
  apply upto_lookup in Hx. subst x. cbv beta in Hp.
  unfold parseLayerHeader in Hp. cbv beta zeta in Hp. unbind Hp.
  injection Hp as <-. cbn [tilesWide tilesHigh tiles].
  repeat match goal with
         | Hr : read _ = inr _ |- _ => apply read_inr in Hr
         end.
  match goal with
  | Ha : int32Array buffer ?to _ = inr _ |- _ =>
      exists to; destruct (int32Array_elements _ _ _ _ Ha) as (A1 & A2 & A3 & A4)
  end.
  repeat split; assumption.
Qed.

End LayerTableFacts.

Lemma layer_tiles_are_read_from_the_table_witness :
  exists layerOffset : Z,
    DataView.getUint32 WwdLoader.sampleLevel 0x5E0 true = Some layerOffset.
Proof.
  destruct (layer_tiles_are_read_from_the_table WwdLoader.sampleLevel
              (WwdLoader.parsed WwdLoader.sampleLevel)) as (lo & H & _).
  - vm_compute. reflexivity.
  - exists lo. exact H.
Defined.

(** ** The probes of the step and the grid's cells *)

Section ProbeFacts.
Import Number.
Open Scope Q_scope.

Lemma ofZ_exact (z : Z) : (Z.abs z < 2 ^ 53)%Z -> ofZ z = Finite (Qred (inject_Z z)).
Proof.
  intros H. unfold ofZ, ofQ. apply round64_exact.
  exists z, 0%Z. split; [change (pow2 0) with 1; ring|]. split; [exact H|].
  split; [discriminate|].
  apply Qlt_le_trans with (pow2 53); [|apply pow2_le; discriminate].
  rewrite (pow2_Z 53) by discriminate.
  assert (Qabs (inject_Z z) == inject_Z (Z.abs z)) as -> by (unfold Qabs, inject_Z; reflexivity).
  rewrite <- Zlt_Qlt. exact H.
Qed.

(** The bounds test on an integer column and row. *)
Lemma bounds_on_numbers (cm : TileCollisionMap.t) (c r : Z) :
  (Z.abs (TileCollisionMap.cols cm) < 2 ^ 53)%Z ->
  (Z.abs (TileCollisionMap.rows cm) < 2 ^ 53)%Z ->
  lt (Finite (inject_Z c)) (ofZ 0) || ge (Finite (inject_Z c)) (ofZ (TileCollisionMap.cols cm))
  || lt (Finite (inject_Z r)) (ofZ 0) || ge (Finite (inject_Z r)) (ofZ (TileCollisionMap.rows cm))
  = TileCollisionMap.out_of_bounds cm c r.
Proof.
  intros Hc Hr. unfold TileCollisionMap.out_of_bounds.
  rewrite ofZ_0, (ofZ_exact _ Hc), (ofZ_exact _ Hr).
  assert (forall z, lt (Finite (inject_Z z)) (Finite 0) = (z <? 0)%Z) as L.
  { intros z. destruct (z <? 0)%Z eqn:E.
    - apply Z.ltb_lt in E. apply lt_Finite. change 0 with (inject_Z 0).
      rewrite <- Zlt_Qlt. exact E.
    - apply Z.ltb_ge in E. apply lt_Finite_false. change 0 with (inject_Z 0).
      rewrite <- Zle_Qle. exact E. }
  assert (forall z n, ge (Finite (inject_Z z)) (Finite (Qred (inject_Z n))) = (n <=? z)%Z) as G.
  { intros z n. destruct (n <=? z)%Z eqn:E.
    - apply Z.leb_le in E. apply ge_Finite. rewrite Qred_correct, <- Zle_Qle. exact E.
    - apply Z.leb_gt in E. apply ge_Finite_false. rewrite Qred_correct, <- Zlt_Qlt. exact E. }
  rewrite !L, !G. reflexivity.
Qed.

(** The array index of a cell inside the grid. *)
Lemma index_on_numbers (cm : TileCollisionMap.t) (c r : Z) :
  (Z.abs (TileCollisionMap.cols cm) < 2 ^ 40)%Z ->
  (0 <= c < TileCollisionMap.cols cm)%Z -> (0 <= r <= 1536)%Z ->
  toInteger (add (mul (Finite (inject_Z r)) (ofZ (TileCollisionMap.cols cm)))
                 (Finite (inject_Z c)))
  = Some (r * TileCollisionMap.cols cm + c)%Z.
Proof.
  intros Hcols Hc Hr. set (n := TileCollisionMap.cols cm) in *.
  rewrite ofZ_exact by lia.
  assert (forall z : Z, (Z.abs z < 2 ^ 53)%Z -> representable binary64 (inject_Z z)) as RZ.
  { intros z Hz. exists z, 0%Z. split; [change (pow2 0) with 1; ring|]. split; [exact Hz|].
    split; [discriminate|].
    apply Qlt_le_trans with (pow2 53); [|apply pow2_le; discriminate].
    rewrite (pow2_Z 53) by discriminate.
    assert (Qabs (inject_Z z) == inject_Z (Z.abs z)) as -> by (unfold Qabs, inject_Z; reflexivity).
    rewrite <- Zlt_Qlt. exact Hz. }
  assert (r * n < 2 ^ 52)%Z as Hrn.
  { assert (r * n <= 1536 * n)%Z by nia. assert (1536 * 2 ^ 40 < 2 ^ 52)%Z by reflexivity. lia. }
  assert (inject_Z r * Qred (inject_Z n) == inject_Z (r * n)) as Em
    by (rewrite Qred_correct, inject_Z_mult; reflexivity).
  rewrite mul_exact.
  - assert (Qred (inject_Z r * Qred (inject_Z n)) + inject_Z c == inject_Z (r * n + c)) as Ea
      by (rewrite Qred_correct, Em, inject_Z_plus; reflexivity).
    rewrite add_exact.
    + unfold toInteger.
      assert (Qred (Qred (inject_Z r * Qred (inject_Z n)) + inject_Z c)
              == inject_Z (r * n + c)) as Eq by (rewrite Qred_correct; exact Ea).
      rewrite (Qfloor_comp _ _ Eq), Qfloor_Z.
      assert (Qeq_bool (inject_Z (r * n + c))
                (Qred (Qred (inject_Z r * Qred (inject_Z n)) + inject_Z c)) = true) as ->
        by (apply Qeq_bool_iff; symmetry; exact Eq).
      reflexivity.
    + apply (proj2 (Qeq_representable _ _ Ea)). apply RZ. nia.
  - rewrite Qred_correct. change 0 with (inject_Z 0). rewrite <- Zlt_Qlt. lia.
  - apply (proj2 (Qeq_representable _ _ Em)). apply RZ. nia.
Qed.


(** X30.  On a grid of 64-px tiles with fewer than [2 ^ 40] columns and
    rows, and for pixel coordinates that are multiples of [2 ^ -35]
    within 98304 px of the origin, the lookups in double arithmetic, as
    the physics step performs them, give what the lookups on the exact
    coordinates give. *)
Theorem probes_see_the_grid_cells (cm : TileCollisionMap.t) (px py : Q) :
  TileCollisionMap.tileSize cm == 64 ->
  (Z.abs (TileCollisionMap.cols cm) < 2 ^ 40)%Z ->
  (Z.abs (TileCollisionMap.rows cm) < 2 ^ 40)%Z ->
  within (-35) 98304 px -> within (-35) 98304 py ->
  TileCollisionMap.OnNumbers.getAtPixel cm (Finite px) (Finite py)
  = TileCollisionMap.getAtPixel cm px py /\
  TileCollisionMap.OnNumbers.isSolid cm (Finite px) (Finite py)
  = TileCollisionMap.isSolid cm px py.
Proof.
  intros Hts Hcols Hrows Wx Wy.
  assert (TileCollisionMap.OnNumbers.getAtPixel cm (Finite px) (Finite py)
          = TileCollisionMap.getAtPixel cm px py) as E.
  { unfold TileCollisionMap.OnNumbers.getAtPixel, TileCollisionMap.getAtPixel.
    assert (ofQ (TileCollisionMap.tileSize cm) = ofZ 64) as ->
      by (unfold ofZ, ofQ; apply round_comp; exact Hts).
    destruct (tile_within px Wx) as [Ex Bx]. destruct (tile_within py Wy) as [Ey By].
    rewrite Ex, Ey.
    rewrite (Qfloor_comp (px / TileCollisionMap.tileSize cm) (px / 64)) by (rewrite Hts; reflexivity).
    rewrite (Qfloor_comp (py / TileCollisionMap.tileSize cm) (py / 64)) by (rewrite Hts; reflexivity).
    set (c := Qfloor (px / 64)) in *. set (r := Qfloor (py / 64)) in *.
    unfold TileCollisionMap.OnNumbers.get, TileCollisionMap.get.
    rewrite bounds_on_numbers by lia.
    destruct (TileCollisionMap.out_of_bounds cm c r) eqn:O; [reflexivity|].
    unfold TileCollisionMap.out_of_bounds in O.
    apply orb_false_iff in O as [O O4]. apply orb_false_iff in O as [O O3].
    apply orb_false_iff in O as [O1 O2].
    apply Z.ltb_ge in O1, O3. apply Z.leb_gt in O2, O4.
    rewrite index_on_numbers by lia.
    assert ((r * TileCollisionMap.cols cm + c <? 0)%Z = false) as -> by (apply Z.ltb_ge; nia).
    reflexivity. }
  split; [exact E|].
  unfold TileCollisionMap.OnNumbers.isSolid, TileCollisionMap.isSolid. rewrite E. reflexivity.
Qed.

End ProbeFacts.

(** The pixel (32, 70) of the two-cell column lies in its solid cell. *)
Lemma probes_see_the_grid_cells_witness :
  TileCollisionMap.OnNumbers.isSolid PhysicsSystem.floorCell
    (Number.Finite 32) (Number.Finite 70)
  = TileCollisionMap.isSolid PhysicsSystem.floorCell 32 70.
Proof.
  apply (proj2 (probes_see_the_grid_cells PhysicsSystem.floorCell 32 70
                  ltac:(reflexivity) ltac:(reflexivity) ltac:(reflexivity)
                  ltac:(split; [exists (32 * 2 ^ 35)%Z; vm_compute; reflexivity
                               | split; discriminate])
                  ltac:(split; [exists (70 * 2 ^ 35)%Z; vm_compute; reflexivity
                               | split; discriminate]))).
Defined.
